(** * nodeprop: TTL cache, event bus and manager orchestration

    A shallow embedding of the event-driven manager core of
    [Cdaprod/nodeprop]: the in-memory TTL cache ([pkg/nodeprop/cache.go]),
    the publish/subscribe event bus ([pkg/nodeprop/events.go]) and the
    manager operations built on them ([pkg/nodeprop/manager.go]).
    Further modules cover the cleanup loop of the cache, the batching
    loop of the registry consumer, the channel event bus and the
    pattern-based [AddWorkflow], the configuration and shutdown methods
    of the manager, and the GitHub operations
    ([pkg/nodeprop/github_ops.go]).

    Conventions.
    - Go [map[string]T] is a [gmap string T].  The order in which a Go
      [range] loop visits a map is not specified by the language, so every
      function that ranges over a map takes the visiting order as an
      explicit argument [order : list string].
    - [int64] and [uint64] values are integers in [Z]; the wrap-around of
      the machine arithmetic is written out ([wrap_int64], [wrap_uint64]).
    - [time.Now().UnixNano()] is an explicit argument [now : Z] of the
      cache methods, and the string of a [uuid.New()] an explicit argument
      [u] of [Subscribe]; the manager reads both from counters of calls. *)

From stdpp Require Import gmap strings list pretty vector.

Local Open Scope Z_scope.

(** ** Machine integers *)

Definition MaxInt64 : Z := 2 ^ 63 - 1.

Definition wrap_int64 (z : Z) : Z := (z + 2 ^ 63) `mod` 2 ^ 64 - 2 ^ 63.

Definition wrap_uint64 (z : Z) : Z := z `mod` 2 ^ 64.

(** [len(m)] of a Go map, as an [int]. *)
Definition len {A : Type} (m : gmap string A) : Z := Z.of_nat (size m).

(** ** Go errors

    [errors.New]/[fmt.Errorf] without [%w] build an [errorString];
    [fmt.Errorf("msg: %w", err)] wraps [err] under the context [msg]. *)

Inductive error : Type :=
  | errorString (s : string)
  | wrapError (msg : string) (err : error).

Fixpoint Error (e : error) : string :=
  match e with
  | errorString s => s
  | wrapError msg err => msg +:+ ": " +:+ Error err
  end.

Definition Unwrap (e : error) : option error :=
  match e with
  | errorString _ => None
  | wrapError _ err => Some err
  end.

(** A line written through the [Logger] interface, with the fields
    attached by [WithField]/[WithFields]/[WithError]. *)
Inductive LogValue : Type :=
  | LogString (s : string)
  | LogTime (t : option Z).

Record LogEntry : Type := mkLogEntry {
  Level : string;
  Fields : list (string * LogValue);
  Message : string
}.

(** ** The TTL cache ([pkg/nodeprop/cache.go]) *)

Module TTLCache.

Section WithValue.

(** The cached payload, [interface{}] in the source. *)
Context {V : Type}.

Record CacheItem : Type := mkCacheItem {
  Value : V;
  Expiration : Z
}.

Record CacheStats : Type := mkCacheStats {
  Hits : Z;
  Misses : Z;
  Evictions : Z;
  Size : Z
}.

Record Cache : Type := mkCache {
  items : gmap string CacheItem;
  defaultExpiration : Z;
  cleanupInterval : Z;
  maxItems : Z;
  stats : CacheStats
}.

Definition set_items (m : gmap string CacheItem) (c : Cache) : Cache :=
  {| items := m; defaultExpiration := defaultExpiration c;
     cleanupInterval := cleanupInterval c; maxItems := maxItems c;
     stats := stats c |}.

Definition set_stats (s : CacheStats) (c : Cache) : Cache :=
  {| items := items c; defaultExpiration := defaultExpiration c;
     cleanupInterval := cleanupInterval c; maxItems := maxItems c;
     stats := s |}.

Definition incr_Hits (s : CacheStats) : CacheStats :=
  {| Hits := wrap_uint64 (Hits s + 1); Misses := Misses s;
     Evictions := Evictions s; Size := Size s |}.

Definition incr_Misses (s : CacheStats) : CacheStats :=
  {| Hits := Hits s; Misses := wrap_uint64 (Misses s + 1);
     Evictions := Evictions s; Size := Size s |}.

Definition incr_Evictions (s : CacheStats) : CacheStats :=
  {| Hits := Hits s; Misses := Misses s;
     Evictions := wrap_uint64 (Evictions s + 1); Size := Size s |}.

Definition set_Size (n : Z) (s : CacheStats) : CacheStats :=
  {| Hits := Hits s; Misses := Misses s;
     Evictions := Evictions s; Size := n |}.

(** Durations are nanoseconds, as [time.Duration]. *)
Definition Hour : Z := 3600 * 1000000000.
Definition Minute : Z := 60 * 1000000000.

(** [NewCache] before its options are applied (the cleanup goroutine it
    starts is the periodic call of [DeleteExpired]). *)
Definition NewCache : Cache :=
  {| items := ∅; defaultExpiration := 1 * Hour;
     cleanupInterval := 5 * Minute; maxItems := 10000;
     stats := mkCacheStats 0 0 0 0 |}.

Definition WithExpiration (d : Z) (c : Cache) : Cache :=
  {| items := items c; defaultExpiration := d;
     cleanupInterval := cleanupInterval c; maxItems := maxItems c;
     stats := stats c |}.

Definition WithCleanupInterval (d : Z) (c : Cache) : Cache :=
  {| items := items c; defaultExpiration := defaultExpiration c;
     cleanupInterval := d; maxItems := maxItems c;
     stats := stats c |}.

Definition WithMaxItems (n : Z) (c : Cache) : Cache :=
  {| items := items c; defaultExpiration := defaultExpiration c;
     cleanupInterval := cleanupInterval c; maxItems := n;
     stats := stats c |}.

(** One step of the scan in [evictOldest]: the loop body at key [k],
    with the loop variables [(oldestKey, oldestTime)]. *)
Definition oldest_step (m : gmap string CacheItem)
    (acc : string * Z) (k : string) : string * Z :=
  match m !! k with
  | Some v => if Expiration v <? acc.2 then (k, Expiration v) else acc
  | None => acc
  end.

Definition oldest_scan (m : gmap string CacheItem) (order : list string)
    : string * Z :=
  foldl (oldest_step m) (EmptyString, MaxInt64) order.

(** [evictOldest]: scan for the smallest [Expiration], then delete the
    key found unless it is the empty string. *)
Definition evictOldest (order : list string) (c : Cache) : Cache :=
  let oldestKey := (oldest_scan (items c) order).1 in
  if decide (oldestKey ≠ EmptyString)
  then set_stats (incr_Evictions (stats c))
         (set_items (delete oldestKey (items c)) c)
  else c.

(** The expiration stamp computed at the head of [Set]:
    [time.Now().Add(duration).UnixNano()], an [int64]. *)
Definition expiration_of (c : Cache) (duration now : Z) : Z :=
  let duration := if duration =? 0 then defaultExpiration c else duration in
  if 0 <? duration then wrap_int64 (now + duration) else 0.

Definition Set_ (order : list string) (key : string) (value : V)
    (duration now : Z) (c : Cache) : Cache :=
  let expiration := expiration_of c duration now in
  let c1 := if maxItems c <=? len (items c) then evictOldest order c else c in
  let m := <[key := mkCacheItem value expiration]> (items c1) in
  set_stats (set_Size (wrap_uint64 (len m)) (stats c1)) (set_items m c1).

Definition expired (now : Z) (v : CacheItem) : bool :=
  (0 <? Expiration v) && (Expiration v <? now).

Definition Get (key : string) (now : Z) (c : Cache) : option V * Cache :=
  match items c !! key with
  | None => (None, set_stats (incr_Misses (stats c)) c)
  | Some item =>
      if expired now item
      then (None, set_stats (incr_Misses (stats c)) c)
      else (Some (Value item), set_stats (incr_Hits (stats c)) c)
  end.

(** [GetWithExpiration]: the value, its expiration time (the zero
    [time.Time], here [None], for an entry without expiration) and the
    found flag.  A hit on an entry with an expiration returns before the
    hit counter is raised. *)
Definition GetWithExpiration (key : string) (now : Z) (c : Cache)
    : option (V * option Z) * Cache :=
  match items c !! key with
  | None => (None, set_stats (incr_Misses (stats c)) c)
  | Some item =>
      if 0 <? Expiration item
      then
        if Expiration item <? now
        then (None, set_stats (incr_Misses (stats c)) c)
        else (Some (Value item, Some (Expiration item)), c)
      else (Some (Value item, None), set_stats (incr_Hits (stats c)) c)
  end.

Definition Delete (key : string) (c : Cache) : Cache :=
  let m := delete key (items c) in
  set_stats (set_Size (wrap_uint64 (len m)) (stats c)) (set_items m c).

Definition Clear (c : Cache) : Cache :=
  set_stats (set_Size 0 (stats c)) (set_items ∅ c).

(** [Items]: the values of the entries it takes for unexpired. *)
Definition Items (now : Z) (c : Cache) : gmap string V :=
  Value <$>
    filter (λ kv, Expiration kv.2 = 0 ∨ now < Expiration kv.2) (items c).

Definition ItemCount (c : Cache) : Z := len (items c).

Definition Stats (c : Cache) : CacheStats := stats c.

(** The loop body of [DeleteExpired] at key [k]. *)
Definition sweep_step (now : Z) (c : Cache) (k : string) : Cache :=
  match items c !! k with
  | Some v =>
      if expired now v
      then set_stats (incr_Evictions (stats c))
             (set_items (delete k (items c)) c)
      else c
  | None => c
  end.

Definition DeleteExpired (order : list string) (now : Z) (c : Cache)
    : Cache :=
  let c1 := foldl (sweep_step now) c order in
  set_stats (set_Size (wrap_uint64 (len (items c1))) (stats c1)) c1.

(** What a sweep at time [now] leaves of an entry (used to state what
    [DeleteExpired] does). *)
Definition swept (now : Z) (o : option CacheItem) : option CacheItem :=
  match o with
  | Some v => if expired now v then None else Some v
  | None => None
  end.

(** A [range] over the map visits every key once, in some order. *)
Definition range_of (m : gmap string CacheItem) (order : list string)
    : Prop :=
  NoDup order ∧ ∀ k, k ∈ order ↔ is_Some (m !! k).

End WithValue.

Arguments CacheItem : clear implicits.
Arguments Cache : clear implicits.

End TTLCache.

(** ** The event bus ([pkg/nodeprop/events.go]) *)

Module Events.

Definition EventType : Type := string.

Definition EventTypeNodeProp : EventType := "nodeprop".
Definition EventTypeWorkflow : EventType := "workflow".
Definition EventTypeSecret : EventType := "secret".
Definition EventTypeConfig : EventType := "config".
Definition EventTypeError : EventType := "error".
Definition EventTypeSystem : EventType := "system".

Section WithData.

(** The event payload, [interface{}] in the source. *)
Context {D : Type}.

(** [Timestamp] is [None] for the zero [time.Time] ([IsZero]). *)
Record Event : Type := mkEvent {
  ID : string;
  Type_ : EventType;
  Name : string;
  Data : D;
  Metadata : gmap string D;
  Timestamp : option Z
}.

Definition set_Timestamp (t : option Z) (e : Event) : Event :=
  {| ID := ID e; Type_ := Type_ e; Name := Name e; Data := Data e;
     Metadata := Metadata e; Timestamp := t |}.

(** [func(Event) error]: [None] is the [nil] error. *)
Definition EventHandler : Type := Event → option error.

Definition EventMiddleware : Type := Event → Event.

Record EventSubscription : Type := mkEventSubscription {
  sub_ID : string;
  sub_Type : EventType;
  sub_Handler : EventHandler
}.

(** The [EventConsumer] interface over a consumer with state [S]:
    [Consume] returns the error and the consumer after the call. *)
Class EventConsumer (S : Type) : Type :=
  Consume : Event → S → option error * S.

Record EventBus (S : Type) : Type := mkEventBus {
  subscribers : gmap string (gmap string EventHandler);
  middleware : list EventMiddleware;
  consumer : S;
  logger : list LogEntry
}.

#[global] Arguments subscribers {S} _.
#[global] Arguments middleware {S} _.
#[global] Arguments consumer {S} _.
#[global] Arguments logger {S} _.
#[global] Arguments mkEventBus {S} _ _ _ _.

Section WithConsumer.

Context {S : Type}.

Definition NewEventBus (logger : list LogEntry) (consumer : S)
    : EventBus S :=
  mkEventBus ∅ [] consumer logger.

Definition set_subscribers (m : gmap string (gmap string EventHandler))
    (eb : EventBus S) : EventBus S :=
  mkEventBus m (middleware eb) (consumer eb) (logger eb).

Definition handlers_of (eb : EventBus S) (eventType : EventType)
    : gmap string EventHandler :=
  default ∅ (subscribers eb !! eventType).

(** [Subscribe]; [u] is the string of the [uuid.New()] drawn for the
    subscription id. *)
Definition Subscribe (eventType : EventType) (handler : EventHandler)
    (u : string) (eb : EventBus S) : EventSubscription * EventBus S :=
  let id := eventType +:+ "-" +:+ u in
  (mkEventSubscription id eventType handler,
   set_subscribers
     (<[eventType := <[id := handler]> (handlers_of eb eventType)]>
        (subscribers eb)) eb).

Definition unsubscribe (eventType : EventType) (id : string)
    (eb : EventBus S) : EventBus S :=
  match subscribers eb !! eventType with
  | Some handlers =>
      set_subscribers (<[eventType := delete id handlers]> (subscribers eb)) eb
  | None => eb
  end.

(** [sub.Unsubscribe()] runs the closure [unsubFn] built by
    [Subscribe], which captured the type and the id. *)
Definition Unsubscribe (sub : EventSubscription) (eb : EventBus S)
    : EventBus S :=
  unsubscribe (sub_Type sub) (sub_ID sub) eb.

Definition AddMiddleware (mw : EventMiddleware) (eb : EventBus S)
    : EventBus S :=
  mkEventBus (subscribers eb) (middleware eb ++ [mw]) (consumer eb)
    (logger eb).

(** [for _, mw := range eb.middleware { event = mw(event) }] *)
Definition apply_middleware (mws : list EventMiddleware) (event : Event)
    : Event :=
  foldl (λ e mw, mw e) event mws.

(** A goroutine started by the fan-out loop: the subscriber id, its
    handler and the event it is called with. *)
Record Invocation : Type := mkInvocation {
  inv_id : string;
  inv_handler : EventHandler;
  inv_event : Event
}.

(** The goroutines started for the handlers of [event.Type]; they run
    concurrently, so the order of the list carries no meaning. *)
Definition fan_out (eb : EventBus S) (event : Event) : list Invocation :=
  (λ p, mkInvocation p.1 p.2 event)
    <$> map_to_list (handlers_of eb (Type_ event)).

Definition log_entry (l : LogEntry) (eb : EventBus S) : EventBus S :=
  mkEventBus (subscribers eb) (middleware eb) (consumer eb)
    (logger eb ++ [l]).

Definition set_consumer (s : S) (eb : EventBus S) : EventBus S :=
  mkEventBus (subscribers eb) (middleware eb) s (logger eb).

(** The body of a fan-out goroutine of the updated [Publish]: the log
    line it writes, if the handler fails. *)
Definition run_invocation (i : Invocation) : option LogEntry :=
  match inv_handler i (inv_event i) with
  | Some err =>
      Some (mkLogEntry "error"
              [("subscriber", LogString (inv_id i));
               ("error", LogString (Error err))]
              "Failed to handle event")
  | None => None
  end.

(** The updated [Publish] (the second declaration in the file, with
    the consumer). *)
Definition Publish `{!EventConsumer S} (event : Event) (eb : EventBus S)
    : EventBus S * list Invocation :=
  let event := apply_middleware (middleware eb) event in
  let '(err, s) := Consume event (consumer eb) in
  let eb := set_consumer s eb in
  let eb :=
    match err with
    | Some err =>
        log_entry (mkLogEntry "error" [("error", LogString (Error err))]
                     "Failed to consume event") eb
    | None => eb
    end in
  (eb, fan_out eb event).

End WithConsumer.

End WithData.

#[global] Arguments Event : clear implicits.
#[global] Arguments EventHandler : clear implicits.
#[global] Arguments EventMiddleware : clear implicits.
#[global] Arguments EventSubscription : clear implicits.
#[global] Arguments EventBus : clear implicits.
#[global] Arguments Invocation : clear implicits.
#[global] Arguments EventConsumer : clear implicits.

(** [shouldStore] *)
Definition shouldStore {D : Type} (event : Event D) : bool :=
  bool_decide (Type_ event = EventTypeNodeProp)
  || bool_decide (Type_ event = EventTypeWorkflow)
  || bool_decide (Type_ event = EventTypeSecret).

(** [RegistryEventConsumer]: [events] is the content of the buffered
    channel [make(chan Event, 1000)], oldest first. *)
Record RegistryEventConsumer (D : Type) : Type := mkRegistryEventConsumer {
  rec_logger : list LogEntry;
  rec_batchSize : Z;
  rec_events : list (Event D)
}.

#[global] Arguments rec_logger {D} _.
#[global] Arguments rec_batchSize {D} _.
#[global] Arguments rec_events {D} _.
#[global] Arguments mkRegistryEventConsumer {D} _ _ _.

Definition events_capacity : nat := 1000.

Definition NewRegistryEventConsumer {D : Type} (logger : list LogEntry)
    : RegistryEventConsumer D :=
  mkRegistryEventConsumer logger 100 [].

(** [RegistryEventConsumer.Consume] with a context that is not cancelled:
    the send succeeds while the channel has room, and the [default] branch
    drops the event otherwise. *)
Definition Registry_Consume {D : Type} (event : Event D)
    (rec : RegistryEventConsumer D) : option error * RegistryEventConsumer D :=
  if decide (length (rec_events rec) < events_capacity)%nat
  then (None,
        mkRegistryEventConsumer (rec_logger rec) (rec_batchSize rec)
          (rec_events rec ++ [event]))
  else (Some (errorString "event channel full"),
        mkRegistryEventConsumer
          (rec_logger rec ++
             [mkLogEntry "warn" [] "Event channel full, dropping event"])
          (rec_batchSize rec) (rec_events rec)).

#[global] Instance RegistryEventConsumer_Consumer {D : Type}
    : EventConsumer D (RegistryEventConsumer D) := Registry_Consume.

(** [LocalEventConsumer]: [lec_store] is the content of the [Store] it
    writes to and [lec_store_Set] the outcome of [store.Set] on a key. *)
Record LocalEventConsumer (D : Type) : Type := mkLocalEventConsumer {
  lec_logger : list LogEntry;
  lec_store : gmap string (Event D);
  lec_store_Set : string → option error
}.

#[global] Arguments lec_logger {D} _.
#[global] Arguments lec_store {D} _.
#[global] Arguments lec_store_Set {D} _.
#[global] Arguments mkLocalEventConsumer {D} _ _ _.

Definition Local_Consume {D : Type} (event : Event D)
    (lec : LocalEventConsumer D) : option error * LocalEventConsumer D :=
  let lg :=
    lec_logger lec ++
      [mkLogEntry "info"
         [("event_type", LogString (Type_ event));
          ("event_name", LogString (Name event));
          ("timestamp", LogTime (Timestamp event))]
         "Event received"] in
  if shouldStore event
  then
    let key := "events:" +:+ Type_ event +:+ ":" +:+ ID event in
    match lec_store_Set lec key with
    | Some err =>
        (None,
         mkLocalEventConsumer
           (lg ++ [mkLogEntry "error" [("error", LogString (Error err))]
                     "Failed to store event"])
           (lec_store lec) (lec_store_Set lec))
    | None =>
        (None,
         mkLocalEventConsumer lg (<[key := event]> (lec_store lec))
           (lec_store_Set lec))
    end
  else (None, mkLocalEventConsumer lg (lec_store lec) (lec_store_Set lec)).

#[global] Instance LocalEventConsumer_Consumer {D : Type}
    : EventConsumer D (LocalEventConsumer D) := Local_Consume.

(** A caller's use of the bus over time: a sequence of calls, each
    [Subscribe] with the uuid it draws. *)
Inductive BusOp (D : Type) : Type :=
  | OpSubscribe (eventType : EventType) (handler : EventHandler D) (u : string)
  | OpUnsubscribe (sub : EventSubscription D)
  | OpAddMiddleware (mw : EventMiddleware D)
  | OpPublish (event : Event D).

#[global] Arguments OpSubscribe {D} _ _ _.
#[global] Arguments OpUnsubscribe {D} _.
#[global] Arguments OpAddMiddleware {D} _.
#[global] Arguments OpPublish {D} _.

Definition run_op {D S : Type} `{!EventConsumer D S} (op : BusOp D)
    (eb : EventBus D S) : EventBus D S * list (Invocation D) :=
  match op with
  | OpSubscribe eventType handler u =>
      ((Subscribe eventType handler u eb).2, [])
  | OpUnsubscribe sub => (Unsubscribe sub eb, [])
  | OpAddMiddleware mw => (AddMiddleware mw eb, [])
  | OpPublish event => Publish event eb
  end.

(** The bus after the calls, and every handler invocation they started. *)
Fixpoint run_ops {D S : Type} `{!EventConsumer D S} (ops : list (BusOp D))
    (eb : EventBus D S) : EventBus D S * list (Invocation D) :=
  match ops with
  | [] => (eb, [])
  | op :: ops =>
      let '(eb1, started1) := run_op op eb in
      let '(eb2, started2) := run_ops ops eb1 in
      (eb2, started1 ++ started2)
  end.

(** The uuids drawn by the [Subscribe] calls of a sequence. *)
Definition drawn {D : Type} (ops : list (BusOp D)) : list string :=
  omap (λ op, match op with OpSubscribe _ _ u => Some u | _ => None end) ops.

(** The first declaration of [Publish] in the file (no consumer). *)
Module Original.

Definition Publish {D S : Type} (now : Z) (event : Event D)
    (eb : EventBus D S) : EventBus D S * list (Invocation D) :=
  let event :=
    if decide (Timestamp event = None)
    then set_Timestamp (Some now) event else event in
  let event := apply_middleware (middleware eb) event in
  (eb, fan_out eb event).

End Original.

End Events.

(** ** The manager ([pkg/nodeprop/manager.go], the [CoreManager]
    implementation, with the types of [interfaces.go] and [types.go]) *)

Module Manager.

Module WorkflowArguments.
Record t : Type := mk {
  Repository : string;
  Name : string;
  Content : string;
  Template : string;
Variables : gmap string string;
Reference : string
}.
End WorkflowArguments.

Module SecretArguments.
Record t : Type := mk {
  Repository : string;
  Name : string;
  Value : string;
  Visibility : string
}.
End SecretArguments.

Module NodePropArguments.
Record t : Type := mk {
  RepoPath : string;
  RepoName : string;
  Domain : string;
  Config : string;
Variables : gmap string string
}.
End NodePropArguments.

(** [time.Time] values are [option Z]: [None] is the zero time. *)
Module Workflow.
Record t : Type := mk {
  ID : string;
  Name : string;
  Path : string;
  Content : string;
  Created : option Z;
  Updated : option Z;
  Status : string
}.
End Workflow.

Module Secret.
Record t : Type := mk {
  Name : string;
  Created : option Z;
  Updated : option Z;
  Visibility : string
}.
End Secret.

Module SecretReference.
Record t : Type := mk {
  Name : string;
  Repository : string;
  Created : option Z;
  Updated : option Z;
  Visibility : string
}.
End SecretReference.

Module PRInfo.
Record t : Type := mk { Open : Z; Closed : Z }.
End PRInfo.

Module GitHub.
Record t : Type := mk {
  Stars : Z;
  Forks : Z;
  Issues : Z;
  PullRequests : PRInfo.t;
  LatestCommit : string;
  License : string;
  Topics : list string
}.
Definition zero : t := mk 0 0 0 (PRInfo.mk 0 0) "" "" [].
End GitHub.

Module DockerfileInfo.
Record t : Type := mk {
  ExposedPorts : list string;
  EnvVars : list string;
  Cmd : string;
  Entrypoint : string;
  Volumes : list string
}.
Definition zero : t := mk [] [] "" "" [].
End DockerfileInfo.

Module Service.
Record t : Type := mk {
  Name : string;
  Ports : list string;
  EnvVars : list string;
  Volumes : list string
}.
End Service.

Module DockerCompose.
Record t : Type := mk {
  Services : list Service.t;
  Ports : gmap string (list Z);
  Volumes : gmap string (list string);
  EnvVars : gmap string (list string);
  Command : gmap string string
}.
Definition zero : t := mk [] ∅ ∅ ∅ ∅.
End DockerCompose.

Module Docker.
Record t : Type := mk {
  Dockerfile : DockerfileInfo.t;
  DockerCompose : DockerCompose.t
}.
Definition zero : t := mk DockerfileInfo.zero DockerCompose.zero.
End Docker.

Module Metadata.
Record t : Type := mk {
  Description : string;
  Owner : string;
  LastUpdated : string;
  Tags : list string;
  GitHub : GitHub.t;
  Docker : Docker.t
}.
End Metadata.

Module CustomProperties.
Record t : Type := mk {
  DeployEnvironment : string;
  MonitoringEnabled : bool;
  AutoScale : bool;
  Service : string;
  App : string;
  Image : string;
  Ports : list string;
  Volumes : list string;
  Network : string;
  Domain : string
}.
End CustomProperties.

Module NodePropFile.
Record t : Type := mk {
  ID : string;
  Name : string;
  Address : string;
  Capabilities : list string;
  Status : string;
  Metadata : Metadata.t;
  CustomProperties : CustomProperties.t
}.
End NodePropFile.

(** What the manager puts behind [interface{}]: event data and cache and
    store values. *)
Inductive payload : Type :=
  | PNil
  | PWorkflow (w : Workflow.t)
  | PSecret (s : Secret.t)
  | PSecretReference (r : SecretReference.t)
  | PNodeProp (f : NodePropFile.t).

Module Event.
Record t : Type := mk {
  Type_ : Events.EventType;
  Name : string;
  Data : payload;
  Error : option error;
  Timestamp : option Z;
  Metadata : gmap string payload
}.
End Event.

(** The [Cache] interface of [interfaces.go], over an implementation with
    state [C]. *)
Class Cache (C : Type) : Type := {
  cache_Get : string → C → option payload * C;
  cache_Set : string → payload → Z → C → C;
  cache_Delete : string → C → C
}.

(** The calls the manager makes on its GitHub client. *)
Inductive GitHubCall : Type :=
  | CreateWorkflow (repo name content : string)
  | CreateSecret (repo name value visibility : string)
  | CreateFile (repoPath path data : string).

(** A Go result [(T, error)]. *)
Inductive result (A : Type) : Type :=
  | Ok (a : A)
  | Err (e : error).

#[global] Arguments Ok {A} _.
#[global] Arguments Err {A} _.

(** The collaborators injected into [NodePropManager], as far as the three
    operations use them.  Their bodies are not part of the manager: each is
    the behaviour of the collaborator as the manager sees it.  The GitHub
    client and the store answer a call given the calls made so far. *)
Record NodePropManager : Type := mkNodePropManager {
  ValidateWorkflowArgs : WorkflowArguments.t → option error;
  ValidateSecretArgs : SecretArguments.t → option error;
  ValidateNodePropArgs : NodePropArguments.t → option error;
  ValidateNodeProp : NodePropFile.t → option error;
  ProcessTemplate : string → gmap string string → result string;
  github : list GitHubCall → GitHubCall → option error;
  store_Set : list (string * payload) → string → payload → option error;
  yaml_Marshal : NodePropFile.t → result string;
(** [uuid.New().String()] at the n-th call *)
uuid_New : nat → string;
(** [time.Now()] at the n-th call, and [t.Format(time.RFC3339)] *)
time_Now : nat → Z;
Format_RFC3339 : Z → string
}.

(** Everything the operations can change or reach. *)
Record World (C : Type) : Type := mkWorld {
  cache : C;
  github_calls : list GitHubCall;
  store_calls : list (string * payload);
  emitted : list Event.t;
  warnings : list LogEntry;
  uuid_calls : nat;
  clock_calls : nat
}.

#[global] Arguments cache {C} _.
#[global] Arguments github_calls {C} _.
#[global] Arguments store_calls {C} _.
#[global] Arguments emitted {C} _.
#[global] Arguments warnings {C} _.
#[global] Arguments uuid_calls {C} _.
#[global] Arguments clock_calls {C} _.
#[global] Arguments mkWorld {C} _ _ _ _ _ _ _.

(** The monad of a manager method: it reads and changes the world and
    either returns a value or returns early with an error. *)
Definition M (C A : Type) : Type := World C → result A * World C.

#[global] Instance M_ret {C : Type} : MRet (M C) :=
  λ A a w, (Ok a, w).

#[global] Instance M_bind {C : Type} : MBind (M C) :=
  λ A B f m w,
    match m w with
    | (Ok a, w1) => f a w1
    | (Err e, w1) => (Err e, w1)
    end.

Section Operations.

Context {C : Type} `{!Cache C}.
Variable m : NodePropManager.

Definition fail {A : Type} (e : error) : M C A := λ w, (Err e, w).

(** [if err := f(); err != nil { return fmt.Errorf("msg: %w", err) }] *)
Definition check (msg : string) (r : option error) : M C unit :=
  match r with
  | Some err => fail (wrapError msg err)
  | None => mret ()
  end.

Definition check_result {A : Type} (msg : string) (r : result A) : M C A :=
  match r with
  | Err err => fail (wrapError msg err)
  | Ok a => mret a
  end.

(** A call on [m.github]: it is recorded, and answered by the client. *)
Definition call_github (call : GitHubCall) : M C (option error) :=
  λ w, (Ok (github m (github_calls w) call),
        mkWorld (cache w) (github_calls w ++ [call]) (store_calls w)
          (emitted w) (warnings w) (uuid_calls w) (clock_calls w)).

Definition call_store_Set (key : string) (v : payload)
    : M C (option error) :=
  λ w, (Ok (store_Set m (store_calls w) key v),
        mkWorld (cache w) (github_calls w) (store_calls w ++ [(key, v)])
          (emitted w) (warnings w) (uuid_calls w) (clock_calls w)).

Definition on_cache (f : C → C) : M C unit :=
  λ w, (Ok (),
        mkWorld (f (cache w)) (github_calls w) (store_calls w)
          (emitted w) (warnings w) (uuid_calls w) (clock_calls w)).

(** [m.eventBus.Emit(event)] *)
Definition Emit (event : Event.t) : M C unit :=
  λ w, (Ok (),
        mkWorld (cache w) (github_calls w) (store_calls w)
          (emitted w ++ [event]) (warnings w) (uuid_calls w)
          (clock_calls w)).

Definition Warn (msg : string) : M C unit :=
  λ w, (Ok (),
        mkWorld (cache w) (github_calls w) (store_calls w) (emitted w)
          (warnings w ++ [mkLogEntry "warn" [] msg]) (uuid_calls w)
          (clock_calls w)).

Definition uuid_New_String : M C string :=
  λ w, (Ok (uuid_New m (uuid_calls w)),
        mkWorld (cache w) (github_calls w) (store_calls w) (emitted w)
          (warnings w) (S (uuid_calls w)) (clock_calls w)).

Definition Now : M C Z :=
  λ w, (Ok (time_Now m (clock_calls w)),
        mkWorld (cache w) (github_calls w) (store_calls w) (emitted w)
          (warnings w) (uuid_calls w) (S (clock_calls w))).

Definition AddWorkflow (args : WorkflowArguments.t) : M C unit :=
  check "invalid workflow arguments" (ValidateWorkflowArgs m args);;
  content ←
    (if decide (WorkflowArguments.Template args ≠ "")
     then check_result "failed to process template"
            (ProcessTemplate m (WorkflowArguments.Template args)
               (WorkflowArguments.Variables args))
     else mret (WorkflowArguments.Content args));
  err ← call_github
          (CreateWorkflow (WorkflowArguments.Repository args)
             (WorkflowArguments.Name args) content);
  check "failed to create workflow" err;;
  on_cache (cache_Delete ("workflows:" +:+ WorkflowArguments.Repository args));;
  now ← Now;
  Emit (Event.mk Events.EventTypeWorkflow "WorkflowAdded"
          (PWorkflow
             (Workflow.mk "" (WorkflowArguments.Name args) "" content None
                (Some now) "active"))
          None None ∅).

Definition AddSecret (args : SecretArguments.t) : M C unit :=
  check "invalid secret arguments" (ValidateSecretArgs m args);;
  err ← call_github
          (CreateSecret (SecretArguments.Repository args)
             (SecretArguments.Name args) (SecretArguments.Value args)
             (SecretArguments.Visibility args));
  check "failed to create secret" err;;
  on_cache (cache_Delete ("secrets:" +:+ SecretArguments.Repository args));;
  created ← Now;
  updated ← Now;
  let secretRef :=
    SecretReference.mk (SecretArguments.Name args)
      (SecretArguments.Repository args) (Some created) (Some updated)
      (SecretArguments.Visibility args) in
  err ← call_store_Set
          ("secret_refs:" +:+ SecretArguments.Repository args +:+ ":"
             +:+ SecretArguments.Name args)
          (PSecretReference secretRef);
  (match err with
   | Some _ => Warn "Failed to store secret reference locally"
   | None => mret ()
   end);;
  created ← Now;
  updated ← Now;
  Emit (Event.mk Events.EventTypeSecret "SecretAdded"
          (PSecret
             (Secret.mk (SecretArguments.Name args) (Some created)
                (Some updated) (SecretArguments.Visibility args)))
          None None ∅).

(** The descriptor built by [GenerateNodeProp] from its arguments, the
    uuid drawn and the time read. *)
Definition new_NodePropFile (args : NodePropArguments.t) (id : string)
    (now : Z) : NodePropFile.t :=
  NodePropFile.mk id (NodePropArguments.RepoName args)
    ("https://github.com/Cdaprod/" +:+ NodePropArguments.RepoName args)
    [] "active"
    (Metadata.mk "" "Cdaprod" (Format_RFC3339 m now) [] GitHub.zero
       Docker.zero)
    (CustomProperties.mk "" false false "" "" "" [] [] ""
       (NodePropArguments.Domain args)).

Definition GenerateNodeProp (args : NodePropArguments.t) : M C unit :=
  check "invalid nodeprop arguments" (ValidateNodePropArgs m args);;
  id ← uuid_New_String;
  now ← Now;
  let nodeProp := new_NodePropFile args id now in
  check "invalid nodeprop configuration" (ValidateNodeProp m nodeProp);;
  data ← check_result "failed to marshal nodeprop" (yaml_Marshal m nodeProp);
  err ← call_github
          (CreateFile (NodePropArguments.RepoPath args) ".nodeprop.yml" data);
  check "failed to create nodeprop file" err;;
  on_cache (cache_Set ("nodeprop:" +:+ NodePropArguments.RepoPath args)
              (PNodeProp nodeProp) (1 * 3600 * 1000000000));;
  Emit (Event.mk Events.EventTypeNodeProp "NodePropGenerated"
          (PNodeProp nodeProp) None None ∅).

(** The three effectful operations, as a caller invokes them. *)
Inductive Operation : Type :=
  | DoAddWorkflow (args : WorkflowArguments.t)
  | DoAddSecret (args : SecretArguments.t)
  | DoGenerateNodeProp (args : NodePropArguments.t).

Definition run (op : Operation) : M C unit :=
  match op with
  | DoAddWorkflow args => AddWorkflow args
  | DoAddSecret args => AddSecret args
  | DoGenerateNodeProp args => GenerateNodeProp args
  end.

(** Successive calls; an operation that fails does not stop the caller
    from making the next one. *)
Fixpoint run_all (ops : list Operation) (w : World C) : World C :=
  match ops with
  | [] => w
  | op :: ops => run_all ops (run op w).2
  end.

End Operations.

(** The argument validation an operation starts with, and the context
    its error is wrapped in. *)
Definition validate (m : NodePropManager) (op : Operation) : option error :=
  match op with
  | DoAddWorkflow args => ValidateWorkflowArgs m args
  | DoAddSecret args => ValidateSecretArgs m args
  | DoGenerateNodeProp args => ValidateNodePropArgs m args
  end.

Definition validation_context (op : Operation) : string :=
  match op with
  | DoAddWorkflow _ => "invalid workflow arguments"
  | DoAddSecret _ => "invalid secret arguments"
  | DoGenerateNodeProp _ => "invalid nodeprop arguments"
  end.




(** A cache for the manager built on the TTL cache: the [Cache] of
    [cache.go] together with the clock its methods read.  Its [range]
    loops visit the keys in the order of [map_to_list]. *)
Record InMemoryCache : Type := mkInMemoryCache {
  imc_cache : TTLCache.Cache payload;
  imc_now : Z
}.

#[global] Instance InMemoryCache_Cache : Cache InMemoryCache := {
  cache_Get key c :=
    let '(v, c1) := TTLCache.Get key (imc_now c) (imc_cache c) in
    (v, mkInMemoryCache c1 (imc_now c));
  cache_Set key v d c :=
    mkInMemoryCache
      (TTLCache.Set_ (map_to_list (TTLCache.items (imc_cache c))).*1 key v d
         (imc_now c) (imc_cache c))
      (imc_now c);
  cache_Delete key c :=
    mkInMemoryCache (TTLCache.Delete key (imc_cache c)) (imc_now c)
}.

(** Test doubles in the manner of [manager_test.go]: validators that
    reject an empty repository or name, a GitHub client that answers every
    call with [github_answer], a store that accepts every write, and
    counters for the uuid and the clock. *)
Definition mock_manager (github_answer : option error) : NodePropManager :=
  {| ValidateWorkflowArgs args :=
       if decide (WorkflowArguments.Repository args = "")
       then Some (errorString "repository is required") else None;
     ValidateSecretArgs args :=
       if decide (SecretArguments.Repository args = "")
       then Some (errorString "repository is required") else None;
     ValidateNodePropArgs args :=
       if decide (NodePropArguments.RepoName args = "")
       then Some (errorString "repository name is required") else None;
     ValidateNodeProp f :=
       if decide (NodePropFile.Name f = "")
       then Some (errorString "name is required") else None;
     ProcessTemplate name vars := Err (errorString "template not found");
     github calls call := github_answer;
     store_Set calls key v := None;
     yaml_Marshal f :=
       Ok ("id: " +:+ NodePropFile.ID f +:+ ", name: " +:+ NodePropFile.Name f);
     uuid_New n := "uuid-" +:+ pretty n;
     time_Now n := 1700000000000000000 + Z.of_nat n;
     Format_RFC3339 t := pretty t |}.

Definition new_world : World InMemoryCache :=
  mkWorld (mkInMemoryCache TTLCache.NewCache 1700000000000000000)
    [] [] [] [] 0 0.

End Manager.

(** ** Using the cache over time *)

Module CacheRun.

Import TTLCache.

Section WithValue.

Context {V : Type}.

(** One call on a [*Cache], with what the call reads from outside: the
    time and, where it ranges over the map, the visiting order. *)
Inductive CacheOp : Type :=
  | OpSet (order : list string) (key : string) (value : V) (duration now : Z)
  | OpGet (key : string) (now : Z)
  | OpGetWithExpiration (key : string) (now : Z)
  | OpDelete (key : string)
  | OpClear
  | OpDeleteExpired (order : list string) (now : Z).

Definition apply_op (op : CacheOp) (c : Cache V) : Cache V :=
  match op with
  | OpSet order key value duration now => Set_ order key value duration now c
  | OpGet key now => (Get key now c).2
  | OpGetWithExpiration key now => (GetWithExpiration key now c).2
  | OpDelete key => Delete key c
  | OpClear => Clear c
  | OpDeleteExpired order now => DeleteExpired order now c
  end.

Definition apply_ops (ops : list CacheOp) (c : Cache V) : Cache V :=
  foldl (λ c op, apply_op op c) c ops.

(** What a call needs from its surroundings: a [range] loop visits the
    keys of the map as it is at the call; for [Set], the key is not the
    empty string and the stamp computed is below [math.MaxInt64]. *)
Definition op_ok (c : Cache V) (op : CacheOp) : Prop :=
  match op with
  | OpSet order key _ duration now =>
      range_of (items c) order ∧ key ≠ EmptyString
      ∧ expiration_of c duration now < MaxInt64
  | OpDeleteExpired order _ => range_of (items c) order
  | _ => True
  end.

Fixpoint ops_ok (ops : list CacheOp) (c : Cache V) : Prop :=
  match ops with
  | [] => True
  | op :: ops => op_ok c op ∧ ops_ok ops (apply_op op c)
  end.

(** A cache within its limit that [evictOldest] can always serve: the
    limit is at least one, no entry sits under the empty key and no stamp
    equals [math.MaxInt64]. *)
Definition bounded (c : Cache V) : Prop :=
  1 ≤ maxItems c
  ∧ len (items c) ≤ maxItems c
  ∧ items c !! EmptyString = None
  ∧ ∀ k v, items c !! k = Some v → Expiration v < MaxInt64.

(** [stats.Size] agrees with the number of stored entries. *)
Definition Size_in_sync (c : Cache V) : Prop :=
  Size (stats c) = wrap_uint64 (ItemCount c).

(** The ticks of the cleanup ticker that [startCleanup] serves: for each
    one the visiting order and the time read by [DeleteExpired]. *)
Definition cleanup_ticks (ticks : list (list string * Z)) (c : Cache V)
    : Cache V :=
  foldl (λ c tick, DeleteExpired tick.1 tick.2 c) c ticks.

(** [startCleanup] up to some tick.  [time.NewTicker] panics on an
    interval that is not positive: [None]. *)
Definition startCleanup (ticks : list (list string * Z)) (c : Cache V)
    : option (Cache V) :=
  if cleanupInterval c <=? 0 then None else Some (cleanup_ticks ticks c).

(** Each tick visits the map as it is when the tick is served. *)
Fixpoint ticks_ok (ticks : list (list string * Z)) (c : Cache V) : Prop :=
  match ticks with
  | [] => True
  | tick :: ticks =>
      range_of (items c) tick.1
      ∧ ticks_ok ticks (DeleteExpired tick.1 tick.2 c)
  end.

End WithValue.

Arguments CacheOp : clear implicits.

End CacheRun.

(** ** The batching loop of the registry consumer
    ([RegistryEventConsumer.processEvents] and [sendBatch]) *)

Module Batching.

Import Events.

Section WithClient.

Context {D : Type}.

(** [rec.client.SendEvents(ctx, batch)]: the registry's answer to a
    batch. *)
Variable SendEvents : list (Event D) → option error.

(** The goroutine of [processEvents] together with the consumer it
    serves: the consumer (its logger and channel), the local slice
    [batch], and the batches handed so far to [client.SendEvents] and to
    [storeFailedEvents], oldest first. *)
Record Processor : Type := mkProcessor {
  p_rec : RegistryEventConsumer D;
  p_batch : list (Event D);
  p_sent : list (list (Event D));
  p_failed : list (list (Event D))
}.

Definition sendBatch (batch : list (Event D)) (p : Processor) : Processor :=
  match SendEvents batch with
  | Some err =>
      mkProcessor
        (mkRegistryEventConsumer
           (rec_logger (p_rec p) ++
              [mkLogEntry "error" [("error", LogString (Error err))]
                 "Failed to send events to registry"])
           (rec_batchSize (p_rec p)) (rec_events (p_rec p)))
        (p_batch p) (p_sent p ++ [batch]) (p_failed p ++ [batch])
  | None => mkProcessor (p_rec p) (p_batch p) (p_sent p ++ [batch]) (p_failed p)
  end.

Definition set_batch (batch : list (Event D)) (p : Processor) : Processor :=
  mkProcessor (p_rec p) batch (p_sent p) (p_failed p).

(** What wakes the [select] of the loop, short of cancellation: an event
    on the channel or a tick of the one-second ticker. *)
Inductive Wakeup : Type :=
  | Receive
  | Tick.

(** One turn of the loop.  The receive case is ready only when the
    channel holds an event; on an empty channel it does not fire. *)
Definition turn (w : Wakeup) (p : Processor) : Processor :=
  match w with
  | Receive =>
      match rec_events (p_rec p) with
      | [] => p
      | event :: rest =>
          let batch := p_batch p ++ [event] in
          let p :=
            mkProcessor
              (mkRegistryEventConsumer (rec_logger (p_rec p))
                 (rec_batchSize (p_rec p)) rest)
              (p_batch p) (p_sent p) (p_failed p) in
          if rec_batchSize (p_rec p) <=? Z.of_nat (length batch)
          then set_batch [] (sendBatch batch p)
          else set_batch batch p
      end
  | Tick =>
      if 0 <? Z.of_nat (length (p_batch p))
      then set_batch [] (sendBatch (p_batch p) p)
      else p
  end.

(** [processEvents] up to cancellation, over the wakeups it got.
    [make([]Event, 0, rec.batchSize)] panics on a negative capacity:
    [None].  On cancellation the function returns and whatever is in
    [p_batch] is not sent. *)
Definition processEvents (wakeups : list Wakeup)
    (rec : RegistryEventConsumer D) : option Processor :=
  if rec_batchSize rec <? 0 then None
  else Some (foldl (λ p w, turn w p) (mkProcessor rec [] [] []) wakeups).

(** The consumer in use: publishers calling [Consume] while the loop
    turns. *)
Inductive Action : Type :=
  | Published (event : Event D)
  | Woke (w : Wakeup).

(** One action, with the event it got accepted into the channel, if
    any. *)
Definition act (a : Action) (p : Processor) : Processor * list (Event D) :=
  match a with
  | Published event =>
      let '(err, rec) := Registry_Consume event (p_rec p) in
      (mkProcessor rec (p_batch p) (p_sent p) (p_failed p),
       match err with None => [event] | Some _ => [] end)
  | Woke w => (turn w p, [])
  end.

(** The processor after the actions, and the events accepted by
    [Consume] on the way, in order. *)
Fixpoint run (acts : list Action) (p : Processor)
    : Processor * list (Event D) :=
  match acts with
  | [] => (p, [])
  | a :: acts =>
      let '(p1, acc1) := act a p in
      let '(p2, acc2) := run acts p1 in
      (p2, acc1 ++ acc2)
  end.

(** Everything the processor holds, in the order it came in: what was
    sent, then the batch in the making, then the channel. *)
Definition held (p : Processor) : list (Event D) :=
  concat (p_sent p) ++ p_batch p ++ rec_events (p_rec p).

(** A processor within its sizes: a batch size of at least one, a batch
    in the making below it, a channel within its capacity. *)
Definition sized (p : Processor) : Prop :=
  1 ≤ rec_batchSize (p_rec p)
  ∧ Z.of_nat (length (p_batch p)) < rec_batchSize (p_rec p)
  ∧ (length (rec_events (p_rec p)) ≤ events_capacity)%nat.

Definition batch_sized (n : Z) (b : list (Event D)) : Prop :=
  1 ≤ Z.of_nat (length b) ≤ n.

End WithClient.

Arguments Processor : clear implicits.
Arguments Action : clear implicits.

End Batching.

(** ** The channel event bus ([EventBus] of the pattern-based
    [manager.go], the same code as [Subscribe]/[Emit] of the first
    [interfaces.go]) *)

Module ChannelBus.

(** [Event] and [EventType] as the pattern-based manager uses them. *)
Module Event.
Record t : Type := mk {
  Type_ : string;
  Message : string
}.
End Event.

Definition EventTypeSuccess : string := "success".
Definition EventTypeError : string := "error".
Definition EventTypeInfo : string := "info".

#[global] Instance Event_eq_dec : EqDecision Event.t.
Proof. solve_decision. Defined.

(** [make(chan Event, 100)]: a channel is the content of its buffer,
    oldest first. *)
Definition channel_capacity : nat := 100.

Record EventBus : Type := mkEventBus {
  subscribers : gmap string (list (list Event.t))
}.

Definition NewEventBus : EventBus := mkEventBus ∅.

Definition channels (eb : EventBus) (eventType : string)
    : list (list Event.t) :=
  default [] (subscribers eb !! eventType).

(** The channel returned by [Subscribe] is named by its type and its
    position in the list of that type. *)
Definition Subscribe (eventType : string) (eb : EventBus)
    : (string * nat) * EventBus :=
  ((eventType, length (channels eb eventType)),
   mkEventBus
     (<[eventType := channels eb eventType ++ [[]]]> (subscribers eb))).

(** [select { case ch <- event: default: }] *)
Definition send (event : Event.t) (ch : list Event.t) : list Event.t :=
  if decide (length ch < channel_capacity)%nat then ch ++ [event] else ch.

Definition Publish (event : Event.t) (eb : EventBus) : EventBus :=
  match subscribers eb !! Event.Type_ event with
  | Some chans =>
      mkEventBus
        (<[Event.Type_ event := send event <$> chans]> (subscribers eb))
  | None => eb
  end.

(** [Emit] of the first [interfaces.go] has the body of [Publish]. *)
Definition Emit (event : Event.t) (eb : EventBus) : EventBus :=
  Publish event eb.

Definition buffer (eb : EventBus) (ch : string * nat) : list Event.t :=
  default [] (channels eb ch.1 !! ch.2).

(** [<-ch] by the subscriber, when the channel holds an event. *)
Definition receive (ch : string * nat) (eb : EventBus)
    : option Event.t * EventBus :=
  match buffer eb ch with
  | [] => (None, eb)
  | event :: rest =>
      (Some event,
       mkEventBus
         (<[ch.1 := <[ch.2 := rest]> (channels eb ch.1)]> (subscribers eb)))
  end.

Inductive BusOp : Type :=
  | OpSubscribe (eventType : string)
  | OpPublish (event : Event.t)
  | OpReceive (ch : string * nat).

Definition run_op (op : BusOp) (eb : EventBus)
    : EventBus * list ((string * nat) * Event.t) :=
  match op with
  | OpSubscribe eventType => ((Subscribe eventType eb).2, [])
  | OpPublish event => (Publish event eb, [])
  | OpReceive ch =>
      match receive ch eb with
      | (Some event, eb1) => (eb1, [(ch, event)])
      | (None, eb1) => (eb1, [])
      end
  end.

(** The bus after the calls, and what was received, by channel. *)
Fixpoint run_ops (ops : list BusOp) (eb : EventBus)
    : EventBus * list ((string * nat) * Event.t) :=
  match ops with
  | [] => (eb, [])
  | op :: ops =>
      let '(eb1, got1) := run_op op eb in
      let '(eb2, got2) := run_ops ops eb1 in
      (eb2, got1 ++ got2)
  end.

(** The events published by a sequence of calls, and those of them of a
    given type. *)
Definition published (ops : list BusOp) : list Event.t :=
  omap (λ op, match op with OpPublish e => Some e | _ => None end) ops.

Definition of_type (eventType : string) (evs : list Event.t)
    : list Event.t :=
  filter (λ e, Event.Type_ e = eventType) evs.

(** What a channel received in a run. *)
Definition received (ch : string * nat)
    (got : list ((string * nat) * Event.t)) : list Event.t :=
  (filter (λ r, r.1 = ch) got).*2.

(** [ch] names a channel that [Subscribe] has returned. *)
Definition live (eb : EventBus) (ch : string * nat) : Prop :=
  (ch.2 < length (channels eb ch.1))%nat.

End ChannelBus.

(** ** The pattern-based manager ([AddWorkflow] and [generateNodeProp] of
    the second [manager.go]) *)

Module PatternManager.

Import Manager.

Module NodePropArguments.
Record t : Type := mk {
  RepoPath : string;
  Workflow : string;
  Domain : string;
  Config : string
}.
End NodePropArguments.

(** The [Cache] interface of this manager.  The values are the
    [NodePropFile]s that [AddWorkflow] stores: it is the only writer. *)
Class Cache (C : Type) : Type := {
  cache_Get : string → C → option NodePropFile.t * C;
  cache_Set : string → NodePropFile.t → C → option error * C;
  cache_Delete : string → C → C
}.

(** Calls on the [MetricsCollector]: [MeasureOperation(name)] and the
    function it returns. *)
Inductive MetricCall : Type :=
  | MeasureStart (name : string)
  | MeasureStop (name : string).

(** What [AddWorkflow] can change or reach.  [cache] and [metrics] are
    [None] when the field is [nil]. *)
Record World (C : Type) : Type := mkWorld {
  cache : option C;
  metrics : option (list MetricCall);
  eventBus : ChannelBus.EventBus;
  infos : list string;
  uuid_calls : nat;
  clock_calls : nat
}.

#[global] Arguments cache {C} _.
#[global] Arguments metrics {C} _.
#[global] Arguments eventBus {C} _.
#[global] Arguments infos {C} _.
#[global] Arguments uuid_calls {C} _.
#[global] Arguments clock_calls {C} _.
#[global] Arguments mkWorld {C} _ _ _ _ _ _.

Section Operations.

Context {C : Type} `{!Cache C}.

(** [npm.workflowProcessor.Process], an interface *)
Variable Process : NodePropArguments.t → option error.
(** [npm.applyWorkflow], whose body is not in the sources: any function
    of the cached file, the arguments and the world *)
Variable applyWorkflow :
  NodePropFile.t → NodePropArguments.t → World C → option error * World C.
(** [filepath.Base], [uuid.New().String()] and [time.Now()] at the n-th
    call, [Format(time.RFC3339)] *)
Variable filepath_Base : string → string.
Variable uuid_New : nat → string.
Variable time_Now : nat → Z.
Variable Format_RFC3339 : Z → string.

(** [DefaultWorkflowProcessor.Process] *)
Definition DefaultWorkflowProcessor_Process (args : NodePropArguments.t)
    : option error := None.

Definition set_cache (c : option C) (w : World C) : World C :=
  mkWorld c (metrics w) (eventBus w) (infos w) (uuid_calls w) (clock_calls w).

Definition publish (event : ChannelBus.Event.t) (w : World C) : World C :=
  mkWorld (cache w) (metrics w) (ChannelBus.Publish event (eventBus w))
    (infos w) (uuid_calls w) (clock_calls w).

Definition measure (call : MetricCall) (w : World C) : World C :=
  mkWorld (cache w) ((λ calls, calls ++ [call]) <$> metrics w) (eventBus w)
    (infos w) (uuid_calls w) (clock_calls w).

Definition generateNodeProp (args : NodePropArguments.t) (w : World C)
    : result NodePropFile.t * World C :=
  let name := filepath_Base (NodePropArguments.RepoPath args) in
  (Ok (NodePropFile.mk (uuid_New (uuid_calls w)) name
         ("https://github.com/Cdaprod/" +:+ name) [] "active"
         (Metadata.mk "" "" (Format_RFC3339 (time_Now (clock_calls w))) []
            GitHub.zero Docker.zero)
         (CustomProperties.mk "" false false "" "" "" [] [] ""
            (NodePropArguments.Domain args))),
   mkWorld (cache w) (metrics w) (eventBus w) (infos w)
     (Datatypes.S (uuid_calls w)) (Datatypes.S (clock_calls w))).

(** [AddWorkflow] from "Process workflow" on. *)
Definition process_and_publish (args : NodePropArguments.t) (w : World C)
    : option error * World C :=
  match Process args with
  | Some err =>
      (Some (wrapError "workflow processing failed" err),
       publish
         (ChannelBus.Event.mk ChannelBus.EventTypeError
            ("Workflow processing failed: " +:+ Error err)) w)
  | None =>
      match generateNodeProp args w with
      | (Err err, w1) =>
          (Some (wrapError "failed to generate nodeprop" err), w1)
      | (Ok nodeProp, w1) =>
          let w2 :=
            match cache w1 with
            | Some c =>
                set_cache
                  (Some (cache_Set (NodePropArguments.RepoPath args)
                           nodeProp c).2) w1
            | None => w1
            end in
          (None,
           publish
             (ChannelBus.Event.mk ChannelBus.EventTypeSuccess
                ("Workflow added successfully to "
                   +:+ NodePropArguments.RepoPath args)) w2)
      end
  end.

(** [AddWorkflow]; [ctx_err] is [ctx.Err()] at entry.  The deferred stop
    of the measurement runs on every return after it was started. *)
Definition AddWorkflow (ctx_err : option error) (args : NodePropArguments.t)
    (w : World C) : option error * World C :=
  match ctx_err with
  | Some err => (Some (wrapError "context error" err), w)
  | None =>
      let w := measure (MeasureStart "add_workflow") w in
      let '(r, w) :=
        match cache w with
        | Some c =>
            match cache_Get (NodePropArguments.RepoPath args) c with
            | (Some cached, c1) =>
                applyWorkflow cached args
                  (mkWorld (Some c1) (metrics w) (eventBus w)
                     (infos w ++ ["Using cached configuration"])
                     (uuid_calls w) (clock_calls w))
            | (None, c1) => process_and_publish args (set_cache (Some c1) w)
            end
        | None => process_and_publish args w
        end in
      (r, measure (MeasureStop "add_workflow") w)
  end.

End Operations.

(** A cache for this manager that keeps every value: a map. *)
#[global] Instance MapCache : Cache (gmap string NodePropFile.t) := {
  cache_Get key c := (c !! key, c);
  cache_Set key v c := (None, <[key := v]> c);
  cache_Delete key c := delete key c
}.

End PatternManager.

(** ** Sequences of manager operations *)

Module ManagerRun.

Import Manager.

(** Type and name of the event an operation emits. *)
Definition event_of (op : Operation) : Events.EventType * string :=
  match op with
  | DoAddWorkflow _ => (Events.EventTypeWorkflow, "WorkflowAdded")
  | DoAddSecret _ => (Events.EventTypeSecret, "SecretAdded")
  | DoGenerateNodeProp _ => (Events.EventTypeNodeProp, "NodePropGenerated")
  end.

Definition succeeded {A : Type} (r : result A) : bool :=
  match r with
  | Ok _ => true
  | Err _ => false
  end.

(** How many of the calls of [run_all] return [nil]. *)
Fixpoint successes {C : Type} `{!Cache C} (m : NodePropManager)
    (ops : list Operation) (w : World C) : nat :=
  match ops with
  | [] => 0
  | op :: ops =>
      ((if succeeded (run m op w).1 then 1 else 0)
       + successes m ops (run m op w).2)%nat
  end.

End ManagerRun.

(** ** A manager whose store refuses every write *)

Module ManagerDoubles.

Import Manager.

Definition with_failing_store (m : NodePropManager) : NodePropManager :=
  mkNodePropManager (ValidateWorkflowArgs m) (ValidateSecretArgs m)
    (ValidateNodePropArgs m) (ValidateNodeProp m) (ProcessTemplate m)
    (github m) (λ _ _ _, Some (errorString "store unavailable"))
    (yaml_Marshal m) (uuid_New m) (time_Now m) (Format_RFC3339 m).

End ManagerDoubles.

(** ** Configuration and shutdown of the manager ([LoadConfig],
    [SaveConfig] and [Shutdown] of [pkg/nodeprop/manager.go], with
    [Cache.Flush] of [cache.go]) *)

Module ConfigManager.

Import TTLCache.

(** [persistItem] *)
Definition persistItem {V : Type} (key : string) (item : CacheItem V)
    : option error := None.

(** [Flush]: the range loop over the keys in visiting order, up to the
    first item that cannot be persisted. *)
Fixpoint Flush {V : Type} (order : list string) (c : Cache V)
    : option error :=
  match order with
  | [] => None
  | k :: order =>
      match items c !! k with
      | Some v =>
          match persistItem k v with
          | Some err =>
              Some (wrapError ("failed to persist cache item " +:+ k) err)
          | None => Flush order c
          end
      | None => Flush order c
      end
  end.

Section WithConfig.

(** A [*Config]: the methods copy the pointer and never look behind
    it. *)
Context {Config : Type}.

(** What cache and store hold behind [interface{}]: a [*Config] or
    anything else, [nil] included. *)
Inductive value : Type :=
  | VConfig (config : Config)
  | VOther (what : string).

Record Event : Type := mkEvent {
  Type_ : Events.EventType;
  Name : string;
  Data : option value;
  Error_ : option error;
  Timestamp : option Z;
  Metadata : gmap string value
}.

(** The [Store] interface, over an implementation with state [St]. *)
Class Store (St : Type) : Type := {
  store_Get : string → St → Manager.result value * St;
  store_Set : string → value → St → option error * St
}.

Context {St : Type} `{!Store St}.

(** The manager with the [*Cache] of [cache.go] behind [m.cache], as far
    as these methods reach: its configuration, its cache, its store, the
    events emitted, the lines logged and whether the config watcher has
    been stopped.  [Manager] below adds the manager with any other
    implementation of the interface. *)
Record World : Type := mkWorld {
  config : Config;
  cache : Cache value;
  store : St;
  emitted : list Event;
  logged : list LogEntry;
  watcher_stopped : bool
}.

Definition set_config (cfg : Config) (w : World) : World :=
  mkWorld cfg (cache w) (store w) (emitted w) (logged w) (watcher_stopped w).

Definition set_cache (c : Cache value) (w : World) : World :=
  mkWorld (config w) c (store w) (emitted w) (logged w) (watcher_stopped w).

Definition set_store (st : St) (w : World) : World :=
  mkWorld (config w) (cache w) st (emitted w) (logged w) (watcher_stopped w).

Definition Emit (event : Event) (w : World) : World :=
  mkWorld (config w) (cache w) (store w) (emitted w ++ [event]) (logged w)
    (watcher_stopped w).

Definition log (level msg : string) (w : World) : World :=
  mkWorld (config w) (cache w) (store w) (emitted w)
    (logged w ++ [mkLogEntry level [] msg]) (watcher_stopped w).

Definition watcher_Stop (w : World) : World :=
  mkWorld (config w) (cache w) (store w) (emitted w) (logged w) true.

(** From "Load from store" on.  [order] and [now_set] are what
    [cache.Set] reads from outside: the visiting order of its eviction
    scan and the time. *)
Definition load_from_store (order : list string) (now_set : Z) (w : World)
    : option error * World :=
  let '(data, st1) := store_Get "config" (store w) in
  let w := set_store st1 w in
  match data with
  | Manager.Err err => (Some (wrapError "failed to load config" err), w)
  | Manager.Ok (VConfig cfg) =>
      let w := set_config cfg w in
      let w :=
        set_cache (Set_ order "config" (VConfig cfg) (1 * Hour) now_set
                     (cache w)) w in
      (None,
       Emit (mkEvent Events.EventTypeConfig "ConfigLoaded"
               (Some (VConfig cfg)) None None ∅) w)
  | Manager.Ok (VOther _) => (Some (errorString "invalid config data type"), w)
  end.

(** [LoadConfig]; [now_get] is the time read by [cache.Get]. *)
Definition LoadConfig (now_get : Z) (order : list string) (now_set : Z)
    (w : World) : option error * World :=
  let '(cached, c1) := Get "config" now_get (cache w) in
  let w := set_cache c1 w in
  match cached with
  | Some (VConfig cfg) => (None, set_config cfg w)
  | _ => load_from_store order now_set w
  end.

Definition SaveConfig (order : list string) (now_set : Z) (w : World)
    : option error * World :=
  let '(err, st1) := store_Set "config" (VConfig (config w)) (store w) in
  let w := set_store st1 w in
  match err with
  | Some err => (Some (wrapError "failed to save config" err), w)
  | None =>
      let w :=
        set_cache (Set_ order "config" (VConfig (config w)) (1 * Hour)
                     now_set (cache w)) w in
      (None,
       Emit (mkEvent Events.EventTypeConfig "ConfigSaved"
               (Some (VConfig (config w))) None None ∅) w)
  end.

(** The manager with another implementation of the [Cache] interface
    behind [m.cache], as [WithCache] accepts: [o_cache] is that
    implementation, of which [Shutdown] uses nothing. *)
Context {Other : Type}.

Record OtherWorld : Type := mkOtherWorld {
  o_config : Config;
  o_cache : Other;
  o_store : St;
  o_emitted : list Event;
  o_logged : list LogEntry;
  o_watcher_stopped : bool
}.

(** The manager by the dynamic type of [m.cache]: the [*Cache] of
    [cache.go] ([World]) or anything else. *)
Inductive Manager : Type :=
  | HasCache (w : World)
  | HasOther (o : OtherWorld).

Inductive completion : Type :=
  | Returns (err : option error)
  | Panics.

(** [m.logger.Info("Shutting down NodePropManager...")] and
    [m.watcher.Stop()] *)
Definition announce (m : Manager) : Manager :=
  match m with
  | HasCache w =>
      HasCache
        (watcher_Stop (log "info" "Shutting down NodePropManager..." w))
  | HasOther o =>
      HasOther
        (mkOtherWorld (o_config o) (o_cache o) (o_store o) (o_emitted o)
           (o_logged o ++
              [mkLogEntry "info" [] "Shutting down NodePropManager..."])
           true)
  end.

(** [Shutdown]; [flush_order] is the visiting order of [Flush].  The
    type assertion of [m.cache] to [*Cache] has no second result: it
    panics unless the cache is a [*Cache]. *)
Definition Shutdown (flush_order order : list string) (now_set : Z)
    (m : Manager) : completion * Manager :=
  match announce m with
  | HasOther o => (Panics, HasOther o)
  | HasCache w =>
      let w :=
        match Flush flush_order (cache w) with
        | Some _ => log "warn" "Failed to flush cache during shutdown" w
        | None => w
        end in
      let '(err, w) := SaveConfig order now_set w in
      let w :=
        match err with
        | Some _ => log "warn" "Failed to save config during shutdown" w
        | None => w
        end in
      (Returns None,
       HasCache
         (Emit (mkEvent Events.EventTypeSystem "Shutdown" None None None ∅)
            w))
  end.

End WithConfig.

Arguments value : clear implicits.
Arguments Event : clear implicits.
Arguments Store : clear implicits.
Arguments World : clear implicits.
Arguments OtherWorld : clear implicits.
Arguments Manager : clear implicits.

(** A store that keeps what it is given, and one that is out of
    service. *)
Record MapStore (Config : Type) : Type := mkMapStore {
  kept : gmap string (value Config)
}.

Arguments mkMapStore {Config} _.
Arguments kept {Config} _.

#[global] Instance MapStore_Store {Config : Type}
    : Store Config (MapStore Config) := {
  store_Get key st :=
    (match kept st !! key with
     | Some v => Manager.Ok v
     | None => Manager.Err (errorString "key not found")
     end, st);
  store_Set key v st := (None, mkMapStore (<[key := v]> (kept st)))
}.

Inductive DownStore : Type := Down.

#[global] Instance DownStore_Store {Config : Type}
    : Store Config DownStore := {
  store_Get key st := (Manager.Err (errorString "store unavailable"), st);
  store_Set key v st := (Some (errorString "store unavailable"), st)
}.

End ConfigManager.

(** ** GitHub operations ([pkg/nodeprop/github_ops.go]) *)

Module GitHubOps.

(** [strings.HasPrefix], [strings.HasSuffix] and [strings.Contains] *)
Definition HasPrefix (s prefix : string) : bool := String.prefix prefix s.

Definition HasSuffix (s suffix : string) : bool :=
  (String.length suffix <=? String.length s)%nat
  && String.eqb
       (String.substring (String.length s - String.length suffix)
          (String.length suffix) s)
       suffix.

Definition Contains (s substr : string) : bool :=
  match String.index 0 substr s with
  | Some _ => true
  | None => false
  end.

(** The path [AddWorkflow] works on ("Ensure path is in
    .github/workflows"). *)
Definition workflow_path (path : string) : string :=
  let path :=
    if negb (HasPrefix path ".github/workflows/")
    then ".github/workflows/" +:+ path else path in
  if negb (HasSuffix path ".yml") && negb (HasSuffix path ".yaml")
  then path +:+ ".yml" else path.

(** A [github.RepositoryContent], as far as the code reads it: the
    [*string] field [Content]. *)
Record RepositoryContent : Type := mkRepositoryContent {
  Content : option string
}.

(** The calls made on [g.client.Repositories]. *)
Inductive ClientCall : Type :=
  | GetContents (owner repo path : string)
  | UpdateFile (owner repo path message content : string)
  | CreateFile (owner repo path message content : string).

(** The client, answering a call given the calls made before it.
    [GetContents] answers with the file content, a pointer that may be
    [nil], or with an error. *)
Record Client : Type := mkClient {
  answer_GetContents :
    list ClientCall → string → string → string →
    Manager.result (option RepositoryContent);
  answer_write : list ClientCall → ClientCall → option error
}.

(** What the cache holds behind [interface{}]: a
    [*github.RepositoryContent] or anything else. *)
Inductive cached : Type :=
  | CContent (content : option RepositoryContent)
  | COther (what : string).

(** The [Cache] interface of [interfaces.go], over an implementation with
    state [C]. *)
Class Cache (C : Type) : Type := {
  cache_Get : string → C → option cached * C;
  cache_Set : string → cached → Z → C → C
}.

(** The result of a call that may panic. *)
Inductive outcome (A : Type) : Type :=
  | Returned (a : A)
  | Panicked.

#[global] Arguments Returned {A} _.
#[global] Arguments Panicked {A}.

Record World (C : Type) : Type := mkWorld {
  cache : C;
  calls : list ClientCall;
  logged : list LogEntry
}.

#[global] Arguments cache {C} _.
#[global] Arguments calls {C} _.
#[global] Arguments logged {C} _.
#[global] Arguments mkWorld {C} _ _ _.

Section Operations.

Context {C : Type} `{!Cache C}.
Variable client : Client.
(** [defaultCacheDuration], declared outside the sources at hand, and
    [base64.StdEncoding.DecodeString] *)
Variable defaultCacheDuration : Z.
Variable DecodeString : string → Manager.result string.

Definition add_call (call : ClientCall) (w : World C) : World C :=
  mkWorld (cache w) (calls w ++ [call]) (logged w).

Definition set_cache (c : C) (w : World C) : World C :=
  mkWorld c (calls w) (logged w).

Definition AddWorkflow (owner repo path content : string) (w : World C)
    : option error * World C :=
  let path := workflow_path path in
  let message := "Add workflow: " +:+ path in
  let found := answer_GetContents client (calls w) owner repo path in
  let w := add_call (GetContents owner repo path) w in
  let write :=
    match found with
    | Manager.Ok _ => UpdateFile owner repo path message content
    | Manager.Err _ => CreateFile owner repo path message content
    end in
  let err := answer_write client (calls w) write in
  let w := add_call write w in
  match err with
  | Some err => (Some (wrapError "failed to create workflow file" err), w)
  | None =>
      (None,
       mkWorld (cache w) (calls w)
         (logged w ++
            [mkLogEntry "info"
               [("repo", LogString (owner +:+ "/" +:+ repo));
                ("path", LogString path)]
               "Workflow added successfully"]))
  end.

Definition cacheKey (owner repo path : string) : string :=
  "file:" +:+ owner +:+ "/" +:+ repo +:+ "/" +:+ path.

(** [CheckFile] from "Get file content from GitHub" on. *)
Definition check_remote (owner repo path : string) (w : World C)
    : (bool * option RepositoryContent * option error) * World C :=
  let r := answer_GetContents client (calls w) owner repo path in
  let w := add_call (GetContents owner repo path) w in
  match r with
  | Manager.Err err =>
      if Contains (Error err) "404" then ((false, None, None), w)
      else ((false, None, Some (wrapError "failed to check file" err)), w)
  | Manager.Ok content =>
      ((true, content, None),
       set_cache
         (cache_Set (cacheKey owner repo path) (CContent content)
            defaultCacheDuration (cache w)) w)
  end.

Definition CheckFile (owner repo path : string) (w : World C)
    : (bool * option RepositoryContent * option error) * World C :=
  let '(got, c1) := cache_Get (cacheKey owner repo path) (cache w) in
  let w := set_cache c1 w in
  match got with
  | Some (CContent content) => ((true, content, None), w)
  | _ => check_remote owner repo path w
  end.

(** [GetFileContent]; dereferencing a [nil] content or a [nil] [Content]
    field panics. *)
Definition GetFileContent (owner repo path : string) (w : World C)
    : outcome (string * option error) * World C :=
  let '((exists_, content, err), w) := CheckFile owner repo path w in
  match err with
  | Some err => (Returned (EmptyString, Some err), w)
  | None =>
      if negb exists_
      then (Returned (EmptyString,
                      Some (errorString ("file not found: " +:+ path))), w)
      else
        match content with
        | None => (Panicked, w)
        | Some rc =>
            match Content rc with
            | None => (Panicked, w)
            | Some text =>
                match DecodeString text with
                | Manager.Err err =>
                    (Returned (EmptyString,
                               Some (wrapError "failed to decode content"
                                       err)), w)
                | Manager.Ok decoded => (Returned (decoded, None), w)
                end
            end
        end
  end.

End Operations.

(** The TTL cache of [cache.go] behind the interface, with the clock its
    methods read, as [ExampleUsage] sets it up. *)
Record TimedCache : Type := mkTimedCache {
  tc_cache : TTLCache.Cache cached;
  tc_now : Z
}.

#[global] Instance TimedCache_Cache : Cache TimedCache := {
  cache_Get key c :=
    let '(v, c1) := TTLCache.Get key (tc_now c) (tc_cache c) in
    (v, mkTimedCache c1 (tc_now c));
  cache_Set key v d c :=
    mkTimedCache
      (TTLCache.Set_ (map_to_list (TTLCache.items (tc_cache c))).*1 key v d
         (tc_now c) (tc_cache c))
      (tc_now c)
}.

End GitHubOps.

(** ** Descriptor ids ([uuid.New().String()] of
    [github.com/google/uuid]) *)

Module UUID.

(** [type UUID [16]byte] *)
Definition t : Type := vec Byte.byte 16.

(** [encoding/hex]: [hextable] and [Encode], two lowercase digits per
    byte, [hextable[v>>4]] and [hextable[v&0x0f]]. *)
Definition hextable : string := "0123456789abcdef".

Definition hex_digit (n : N) : string :=
  String.substring (N.to_nat n) 1 hextable.

Definition hex_byte (v : Byte.byte) : string :=
  hex_digit (N.shiftr (Byte.to_N v) 4)
    +:+ hex_digit (N.land (Byte.to_N v) 15).

Fixpoint hex_Encode (src : list Byte.byte) : string :=
  match src with
  | [] => EmptyString
  | v :: src => hex_byte v +:+ hex_Encode src
  end.

(** [encodeHex]: the form xxxxxxxx-xxxx-xxxx-xxxx-xxxxxxxxxxxx. *)
Definition encodeHex (uuid : list Byte.byte) : string :=
  hex_Encode (take 4 uuid) +:+ "-"
    +:+ hex_Encode (take 2 (drop 4 uuid)) +:+ "-"
    +:+ hex_Encode (take 2 (drop 6 uuid)) +:+ "-"
    +:+ hex_Encode (take 2 (drop 8 uuid)) +:+ "-"
    +:+ hex_Encode (drop 10 uuid).

(** [func (uuid UUID) String() string] *)
Definition String (uuid : t) : string := encodeHex (vec_to_list uuid).


End UUID.

(** * Properties of the TTL cache *)

Section CacheFacts.

Import TTLCache.

Context {V : Type}.
Implicit Types (c : Cache V) (m : gmap string (CacheItem V)).
Implicit Types (order : list string) (k key : string).

Lemma wrap_uint64_succ (a : Z) :
  wrap_uint64 (wrap_uint64 a + 1) = wrap_uint64 (a + 1).
Proof. unfold wrap_uint64. by rewrite Z.add_mod_idemp_l. Qed.

Lemma wrap_int64_id (z : Z) :
  - 2 ^ 63 ≤ z ≤ MaxInt64 → wrap_int64 z = z.
Proof.
  unfold wrap_int64, MaxInt64. intros Hz.
  rewrite Z.mod_small; lia.
Qed.

Lemma expired_spec (now : Z) (v : CacheItem V) :
  expired now v = true ↔ 0 < Expiration v ∧ Expiration v < now.
Proof. unfold expired. rewrite andb_true_iff, !Z.ltb_lt. done. Qed.

Lemma expired_false (now : Z) (v : CacheItem V) :
  expired now v = false ↔ Expiration v ≤ 0 ∨ now ≤ Expiration v.
Proof. unfold expired. rewrite andb_false_iff, !Z.ltb_ge. done. Qed.

(** *** The scan of [evictOldest] *)

Lemma oldest_scan_from m (l : list string) (k0 : string) (t0 : Z) :
  let r := foldl (oldest_step m) (k0, t0) l in
  (r = (k0, t0) ∧
     ∀ k' v', k' ∈ l → m !! k' = Some v' → t0 ≤ Expiration v')
  ∨ (r.1 ∈ l ∧ r.2 < t0 ∧
     (∃ v, m !! r.1 = Some v ∧ Expiration v = r.2) ∧
     ∀ k' v', k' ∈ l → m !! k' = Some v' → r.2 ≤ Expiration v').
Proof.
  revert k0 t0. induction l as [|a l IH]; intros k0 t0; simpl.
  - left. split; [done|]. intros k' v' Hin. by apply elem_of_nil in Hin.
  - set (acc := oldest_step m (k0, t0) a).
    assert (acc = match m !! a with
                  | Some v =>
                      if Expiration v <? t0 then (a, Expiration v)
                      else (k0, t0)
                  | None => (k0, t0)
                  end) as Hacc by done.
    clearbody acc.
    destruct (m !! a) as [va|] eqn:Ha.
    + destruct (Z.ltb_spec (Expiration va) t0) as [Hlt|Hge]; subst acc.
      * destruct (IH a (Expiration va)) as [[Hr Hall]|(Hin & Hlt' & Hv & Hall)].
        -- right. rewrite Hr. simpl. split_and!.
           ++ apply elem_of_cons; by left.
           ++ done.
           ++ by exists va.
           ++ intros k' v' [->|Hin]%elem_of_cons Hk'.
              ** rewrite Ha in Hk'. by simplify_eq.
              ** by eapply Hall.
        -- right. split_and!.
           ++ apply elem_of_cons; by right.
           ++ lia.
           ++ done.
           ++ intros k' v' [->|Hin']%elem_of_cons Hk'.
              ** rewrite Ha in Hk'. simplify_eq. lia.
              ** by eapply Hall.
      * destruct (IH k0 t0) as [[Hr Hall]|(Hin & Hlt' & Hv & Hall)].
        -- left. split; [done|].
           intros k' v' [->|Hin]%elem_of_cons Hk'.
           ++ rewrite Ha in Hk'. by simplify_eq.
           ++ by eapply Hall.
        -- right. split_and!.
           ++ apply elem_of_cons; by right.
           ++ done.
           ++ done.
           ++ intros k' v' [->|Hin']%elem_of_cons Hk'.
              ** rewrite Ha in Hk'. simplify_eq. lia.
              ** by eapply Hall.
    + subst acc.
      destruct (IH k0 t0) as [[Hr Hall]|(Hin & Hlt' & Hv & Hall)].
      * left. split; [done|].
        intros k' v' [->|Hin]%elem_of_cons Hk'.
        -- by rewrite Ha in Hk'.
        -- by eapply Hall.
      * right. split_and!.
        -- apply elem_of_cons; by right.
        -- done.
        -- done.
        -- intros k' v' [->|Hin']%elem_of_cons Hk'.
           ++ by rewrite Ha in Hk'.
           ++ by eapply Hall.
Qed.

(** On a full visit of the map the scan either finds nothing below
    [MaxInt64] and keeps the empty key, or stops at an entry of smallest
    [Expiration]. *)
Lemma oldest_scan_spec m order :
  range_of m order →
  let r := oldest_scan m order in
  (r = (EmptyString, MaxInt64) ∧
     ∀ k' v', m !! k' = Some v' → MaxInt64 ≤ Expiration v')
  ∨ (r.2 < MaxInt64 ∧
     (∃ v, m !! r.1 = Some v ∧ Expiration v = r.2) ∧
     ∀ k' v', m !! k' = Some v' → r.2 ≤ Expiration v').
Proof.
  intros [_ Hdom]. unfold oldest_scan.
  destruct (oldest_scan_from m order EmptyString MaxInt64)
    as [[Hr Hall]|(Hin & Hlt & Hv & Hall)].
  - left. split; [done|]. intros k' v' Hk'.
    eapply Hall; [|done]. apply Hdom. by eexists.
  - right. split_and!; [done..|]. intros k' v' Hk'.
    eapply Hall; [|done]. apply Hdom. by eexists.
Qed.

(** *** The sweep of [DeleteExpired] *)

Lemma sweep_step_items now c a :
  items (sweep_step now c a)
  = if decide (swept now (items c !! a) = None) then delete a (items c)
    else items c.
Proof.
  unfold sweep_step, swept.
  destruct (items c !! a) as [v|] eqn:Ha.
  - destruct (expired now v); [|done]. by rewrite decide_True.
  - rewrite decide_True by done. by rewrite delete_id.
Qed.

Lemma sweep_step_lookup now c a k :
  items (sweep_step now c a) !! k
  = if decide (k = a) then swept now (items c !! k) else items c !! k.
Proof.
  rewrite sweep_step_items. case_decide as Hs; case_decide as Hk; subst.
  - by rewrite lookup_delete_eq.
  - by rewrite lookup_delete_ne.
  - unfold swept in *. destruct (items c !! a) as [v|]; [|done].
    by destruct (expired now v).
  - done.
Qed.

Lemma swept_idemp now (o : option (CacheItem V)) :
  swept now (swept now o) = swept now o.
Proof.
  destruct o as [v|]; [|done]. simpl.
  destruct (expired now v) eqn:He; [done|]. simpl. by rewrite He.
Qed.

Lemma sweep_lookup now (l : list string) c k :
  items (foldl (sweep_step now) c l) !! k
  = if decide (k ∈ l) then swept now (items c !! k) else items c !! k.
Proof.
  revert c. induction l as [|a l IH]; intros c.
  - by destruct (decide (k ∈ [])) as [?%elem_of_nil|].
  - cbn [foldl]. rewrite IH, !sweep_step_lookup.
    destruct (decide (k = a)) as [->|Hne].
    + rewrite (decide_True (P := a ∈ a :: l)) by (apply elem_of_cons; by left).
      case_decide; [by rewrite swept_idemp|done].
    + case_decide as Hin.
      * rewrite decide_True; [done|]. apply elem_of_cons; by right.
      * rewrite decide_False; [done|].
        intros [?|?]%elem_of_cons; done.
Qed.

(** The sweep touches nothing but the entries and the eviction counter,
    which it raises once for each entry it deletes. *)
Lemma sweep_step_frame now c a :
  let c' := sweep_step now c a in
  defaultExpiration c' = defaultExpiration c
  ∧ cleanupInterval c' = cleanupInterval c
  ∧ maxItems c' = maxItems c
  ∧ Hits (stats c') = Hits (stats c)
  ∧ Misses (stats c') = Misses (stats c)
  ∧ Size (stats c') = Size (stats c)
  ∧ (len (items c') ≤ len (items c))
  ∧ Evictions (stats c')
    = if decide (len (items c') = len (items c)) then Evictions (stats c)
      else wrap_uint64 (Evictions (stats c) + 1).
Proof.
  unfold sweep_step, len.
  destruct (items c !! a) as [v|] eqn:Ha; simpl.
  - destruct (expired now v); simpl.
    + assert (size (items c) ≠ 0%nat) as Hne.
      { intros Hsz%map_size_empty_inv. rewrite Hsz in Ha.
        by rewrite lookup_empty in Ha. }
      rewrite map_size_delete_Some by (by eexists).
      split_and!; try done; [lia|]. rewrite decide_False; [done|lia].
    + split_and!; try done. by rewrite decide_True.
  - split_and!; try done. by rewrite decide_True.
Qed.

Lemma sweep_frame now (l : list string) c :
  let c' := foldl (sweep_step now) c l in
  defaultExpiration c' = defaultExpiration c
  ∧ cleanupInterval c' = cleanupInterval c
  ∧ maxItems c' = maxItems c
  ∧ Hits (stats c') = Hits (stats c)
  ∧ Misses (stats c') = Misses (stats c)
  ∧ Size (stats c') = Size (stats c)
  ∧ (len (items c') ≤ len (items c))
  ∧ wrap_uint64 (Evictions (stats c'))
    = wrap_uint64 (Evictions (stats c) + (len (items c) - len (items c'))).
Proof.
  revert c. induction l as [|a l IH]; intros c; cbn zeta; simpl.
  - split_and!; try done. f_equal. lia.
  - specialize (IH (sweep_step now c a)). cbn zeta in IH.
    destruct IH as (-> & -> & -> & -> & -> & -> & Hle & ->).
    destruct (sweep_step_frame now c a)
      as (-> & -> & -> & -> & -> & -> & Hle1 & ->).
    split_and!; try done; [lia|].
    case_decide as Hsz.
    + rewrite Hsz. done.
    + assert (len (items (sweep_step now c a)) = len (items c) - 1) as ->.
      { revert Hsz Hle1. unfold sweep_step, len.
        destruct (items c !! a) as [v|] eqn:Ha; [|done].
        destruct (expired now v); [|done]. simpl.
        rewrite map_size_delete_Some by (by eexists). lia. }
      unfold wrap_uint64. rewrite Z.add_mod_idemp_l by done.
      f_equal. lia.
Qed.

Lemma wrap_uint64_range (a : Z) : 0 ≤ wrap_uint64 a < 2 ^ 64.
Proof. unfold wrap_uint64. apply Z.mod_pos_bound. done. Qed.

Lemma wrap_uint64_id (a : Z) : 0 ≤ a < 2 ^ 64 → wrap_uint64 a = a.
Proof. unfold wrap_uint64. apply Z.mod_small. Qed.

Lemma sweep_evictions_range now (l : list string) c :
  0 ≤ Evictions (stats c) < 2 ^ 64 →
  0 ≤ Evictions (stats (foldl (sweep_step now) c l)) < 2 ^ 64.
Proof.
  revert c. induction l as [|a l IH]; intros c Hc; [done|].
  cbn [foldl]. apply IH.
  destruct (sweep_step_frame now c a) as (_ & _ & _ & _ & _ & _ & _ & ->).
  case_decide; [done|]. apply wrap_uint64_range.
Qed.

Lemma sweep_evictions now (l : list string) c :
  0 ≤ Evictions (stats c) < 2 ^ 64 →
  let c' := foldl (sweep_step now) c l in
  Evictions (stats c')
  = wrap_uint64 (Evictions (stats c) + (len (items c) - len (items c'))).
Proof.
  intros Hc c'.
  destruct (sweep_frame now l c) as (_ & _ & _ & _ & _ & _ & _ & Hw).
  fold c' in Hw. rewrite <- Hw.
  symmetry. apply wrap_uint64_id. by apply sweep_evictions_range.
Qed.

Lemma DeleteExpired_lookup order now c k :
  range_of (items c) order →
  items (DeleteExpired order now c) !! k = swept now (items c !! k).
Proof.
  intros [_ Hdom]. unfold DeleteExpired. cbn [items set_stats].
  rewrite sweep_lookup. case_decide as Hin; [done|].
  destruct (items c !! k) as [v|] eqn:Hk; [|done].
  exfalso. apply Hin, Hdom. by eexists.
Qed.

(** *** [Get] *)

Lemma Get_fst key now c :
  (Get key now c).1
  = match items c !! key with
    | Some item => if expired now item then None else Some (Value item)
    | None => None
    end.
Proof.
  unfold Get. destruct (items c !! key) as [item|]; [|done].
  by destruct (expired now item).
Qed.

(** *** [Set] *)

Lemma expiration_of_negative c d now : d < 0 → expiration_of c d now = 0.
Proof.
  intros Hd. unfold expiration_of.
  destruct (Z.eqb_spec d 0) as [?|_]; [lia|].
  destruct (Z.ltb_spec 0 d); [lia|done].
Qed.

Lemma expiration_of_positive c d now :
  0 < d → 0 ≤ now → now + d ≤ MaxInt64 → expiration_of c d now = now + d.
Proof.
  intros Hd Hnow Hmax. unfold expiration_of.
  destruct (Z.eqb_spec d 0) as [?|_]; [lia|].
  destruct (Z.ltb_spec 0 d); [|lia].
  apply wrap_int64_id. unfold MaxInt64 in *. lia.
Qed.

Lemma Set_lookup order key value d now c :
  items (Set_ order key value d now c) !! key
  = Some (mkCacheItem value (expiration_of c d now)).
Proof. unfold Set_. cbn [items set_stats set_items]. apply lookup_insert_eq. Qed.

(** When [Set] finds the cache at or over its limit and the scan stops at
    a key other than the empty string, that entry has the smallest
    [Expiration] of all, it is deleted before the insertion, and the
    cache does not grow. *)
Lemma Set_at_capacity_evicts_min order key value d now c :
  range_of (items c) order →
  maxItems c ≤ len (items c) →
  let victim := (oldest_scan (items c) order).1 in
  victim ≠ EmptyString →
  let c' := Set_ order key value d now c in
  (∃ v, items c !! victim = Some v
        ∧ ∀ k' v', items c !! k' = Some v' → Expiration v ≤ Expiration v')
  ∧ items c'
    = <[key := mkCacheItem value (expiration_of c d now)]>
        (delete victim (items c))
  ∧ Evictions (stats c') = wrap_uint64 (Evictions (stats c) + 1)
  ∧ len (items c') ≤ len (items c).
Proof.
  intros Hrange Hfull victim Hvictim c'.
  assert (∃ v, items c !! victim = Some v
               ∧ ∀ k' v', items c !! k' = Some v' →
                          Expiration v ≤ Expiration v') as Hmin.
  { destruct (oldest_scan_spec (items c) order Hrange)
      as [[Hr _]|(_ & (v & Hv & Hexp) & Hall)].
    - exfalso. apply Hvictim. subst victim. by rewrite Hr.
    - exists v. split; [done|]. rewrite Hexp. exact Hall. }
  assert (items c'
          = <[key := mkCacheItem value (expiration_of c d now)]>
              (delete victim (items c))
          ∧ Evictions (stats c') = wrap_uint64 (Evictions (stats c) + 1))
    as [Hitems Hev].
  { subst c'. unfold Set_.
    destruct (Z.leb_spec (maxItems c) (len (items c))) as [_|?]; [|lia].
    unfold evictOldest. fold victim. rewrite decide_True by done. done. }
  split_and!; [done..|].
  rewrite Hitems. destruct Hmin as (v & Hv & _). unfold len.
  assert (size (items c) ≠ 0%nat) as Hne.
  { intros Hsz%map_size_empty_inv. rewrite Hsz in Hv.
    by rewrite lookup_empty in Hv. }
  rewrite map_size_insert, map_size_delete_Some by (by eexists).
  destruct (delete victim (items c) !! key); simpl; lia.
Qed.

End CacheFacts.

(** ** Claims about the cache *)

Section CacheClaims.

Import TTLCache.

Context {V : Type}.
Implicit Types (c : Cache V) (order : list string) (k key : string).

(** C7.  In every cache state and at every time, [DeleteExpired] removes
    exactly the entries whose [Expiration] is set (positive) and lies
    before the current time, keeps every other entry as it is, and raises
    the eviction counter (a [uint64]) once for each entry removed.  An
    entry stored by [Set] with a negative ttl carries no expiration and
    survives every sweep, and [Set] with ttl 0 is [Set] with the
    configured default duration. *)
Theorem DeleteExpired_removes_exactly_expired c order now :
  range_of (items c) order →
  0 ≤ Evictions (stats c) < 2 ^ 64 →
  let c' := DeleteExpired order now c in
  (∀ k v, items c !! k = Some v →
     if decide (0 < Expiration v ∧ Expiration v < now)
     then items c' !! k = None
     else items c' !! k = Some v)
  ∧ (∀ k, items c !! k = None → items c' !! k = None)
  ∧ Evictions (stats c')
    = wrap_uint64 (Evictions (stats c) + (len (items c) - len (items c')))
  ∧ (∀ order0 key value d t0 order1 now1,
       d < 0 →
       items (DeleteExpired order1 now1 (Set_ order0 key value d t0 c))
         !! key
       = Some (mkCacheItem value 0))
  ∧ (∀ order0 key value t0,
       Set_ order0 key value 0 t0 c
       = Set_ order0 key value (defaultExpiration c) t0 c).
Proof.
  intros Hrange Hev c'. split_and!.
  - intros k v Hk. subst c'. rewrite DeleteExpired_lookup, Hk by done.
    simpl. case_decide as Hexp.
    + apply expired_spec in Hexp. by rewrite Hexp.
    + destruct (expired now v) eqn:He; [|done].
      by apply expired_spec in He.
  - intros k Hk. subst c'. by rewrite DeleteExpired_lookup, Hk.
  - subst c'. unfold DeleteExpired.
    cbn [items stats set_stats set_Size Evictions].
    by apply sweep_evictions.
  - intros order0 key value d t0 order1 now1 Hd.
    unfold DeleteExpired. cbn [items set_stats]. rewrite sweep_lookup.
    rewrite Set_lookup, expiration_of_negative by done.
    by case_decide.
  - intros order0 key value t0. unfold Set_, expiration_of.
    rewrite Z.eqb_refl.
    by destruct (Z.eqb_spec (defaultExpiration c) 0) as [->|].
Qed.

(** C4, as amended.  An entry stored by [Set] at time [t0 >= 0] with a
    positive ttl [d], where [t0 + d] fits an [int64], has
    [expiresAt = t0 + d].  While it is stored, [Get] at a time strictly
    after [expiresAt] returns not-found and counts a miss, and [Get] at
    any time up to and including [expiresAt] returns the stored value and
    counts a hit.  The check is made by [Get] itself on the stored
    stamp, so the answer is the same whether or not a sweep has run in
    between: after a sweep at any time a read after [expiresAt] is still
    not-found, and after a sweep no later than the read a read up to
    [expiresAt] still finds the value. *)
Theorem Get_after_Set_with_ttl c order key value d t0 t :
  0 < d → 0 ≤ t0 → t0 + d ≤ MaxInt64 →
  let c1 := Set_ order key value d t0 c in
  let expiresAt := t0 + d in
  items c1 !! key = Some (mkCacheItem value expiresAt)
  ∧ (expiresAt < t →
     Get key t c1 = (None, set_stats (incr_Misses (stats c1)) c1))
  ∧ (t ≤ expiresAt →
     Get key t c1 = (Some value, set_stats (incr_Hits (stats c1)) c1))
  ∧ (∀ order1 s, range_of (items c1) order1 →
       (expiresAt < t → (Get key t (DeleteExpired order1 s c1)).1 = None)
       ∧ (s ≤ t → t ≤ expiresAt →
          (Get key t (DeleteExpired order1 s c1)).1 = Some value)).
Proof.
  intros Hd Ht0 Hmax c1 expiresAt.
  assert (items c1 !! key = Some (mkCacheItem value expiresAt)) as Hk.
  { subst c1. by rewrite Set_lookup, expiration_of_positive. }
  split_and!; [done|..].
  - intros Ht. unfold Get. rewrite Hk.
    assert (expired t (mkCacheItem value expiresAt) = true) as ->; [|done].
    apply expired_spec. simpl. lia.
  - intros Ht. unfold Get. rewrite Hk.
    assert (expired t (mkCacheItem value expiresAt) = false) as ->; [|done].
    apply expired_false. simpl. lia.
  - intros order1 s Hrange.
    rewrite !Get_fst, !DeleteExpired_lookup, Hk by done. cbn [swept].
    split.
    + intros Ht. destruct (expired s _) eqn:Hs; [done|].
      assert (expired t (mkCacheItem value expiresAt) = true) as ->; [|done].
      apply expired_spec. simpl. lia.
    + intros Hs Ht.
      assert (expired s (mkCacheItem value expiresAt) = false) as ->.
      { apply expired_false. simpl. lia. }
      assert (expired t (mkCacheItem value expiresAt) = false) as ->; [|done].
      apply expired_false. simpl. lia.
Qed.

(** C10.  [Get] never changes the entries, the configuration, the
    eviction counter or the recorded size; on an absent or an expired key
    it changes the miss counter and nothing else.  An expired entry is
    still stored after the [Get], still counted by [ItemCount] and by the
    capacity test of [Set]; it goes away with [DeleteExpired], [Delete]
    or [Clear]. *)
Theorem Get_leaves_entries_alone c key now :
  let r := Get key now c in
  (items r.2 = items c
   ∧ defaultExpiration r.2 = defaultExpiration c
   ∧ cleanupInterval r.2 = cleanupInterval c
   ∧ maxItems r.2 = maxItems c
   ∧ Evictions (stats r.2) = Evictions (stats c)
   ∧ Size (stats r.2) = Size (stats c)
   ∧ ItemCount r.2 = ItemCount c
   ∧ (maxItems r.2 <=? len (items r.2)) = (maxItems c <=? len (items c)))
  ∧ (items c !! key = None
     ∨ (∃ v, items c !! key = Some v
             ∧ 0 < Expiration v ∧ Expiration v < now) →
     r = (None, set_stats (incr_Misses (stats c)) c)
     ∧ Hits (stats r.2) = Hits (stats c))
  ∧ (∀ v, items c !! key = Some v →
          0 < Expiration v ∧ Expiration v < now →
          items r.2 !! key = Some v
          ∧ (∀ order, range_of (items r.2) order →
               items (DeleteExpired order now r.2) !! key = None)
          ∧ items (Delete key r.2) !! key = None
          ∧ items (Clear r.2) !! key = None).
Proof.
  intros r.
  assert (items r.2 = items c) as Hitems.
  { subst r. unfold Get. destruct (items c !! key) as [v|]; [|done].
    by destruct (expired now v). }
  split; [|split].
  - subst r. unfold Get, ItemCount.
    destruct (items c !! key) as [v|]; [|done].
    by destruct (expired now v).
  - intros [Hk|(v & Hk & Hexp)]; subst r; unfold Get; rewrite Hk; [done|].
    apply expired_spec in Hexp. by rewrite Hexp.
  - intros v Hk Hexp. rewrite Hitems. split_and!.
    + done.
    + intros order Hrange.
      rewrite DeleteExpired_lookup by (by rewrite Hitems).
      rewrite Hitems, Hk.
      apply expired_spec in Hexp. simpl. by rewrite Hexp.
    + unfold Delete. cbn [items set_stats set_items].
      apply lookup_delete_eq.
    + done.
Qed.

End CacheClaims.

(** The keys of a map in the order of [map_to_list] are one admissible
    visiting order. *)
Lemma range_of_map_to_list {V : Type}
    (m : gmap string (TTLCache.CacheItem V)) :
  TTLCache.range_of m (map_to_list m).*1.
Proof.
  split; [apply NoDup_fst_map_to_list|].
  intros k. rewrite list_elem_of_fmap. split.
  - intros ([k' v] & -> & Hin%elem_of_map_to_list). by eexists.
  - intros [v Hv]. exists (k, v). split; [done|]. by apply elem_of_map_to_list.
Qed.

Lemma range_of_empty {V : Type} :
  TTLCache.range_of (∅ : gmap string (TTLCache.CacheItem V)) [].
Proof.
  split; [constructor|]. intros k. rewrite lookup_empty, elem_of_nil.
  split; [done|]. by intros [? ?].
Qed.

Lemma range_of_insert {V : Type} (m : gmap string (TTLCache.CacheItem V))
    (order : list string) (k : string) (v : TTLCache.CacheItem V) :
  TTLCache.range_of m order → m !! k = None →
  TTLCache.range_of (<[k := v]> m) (k :: order).
Proof.
  intros [Hnd Hdom] Hk. split.
  - constructor; [|done]. intros [x Hx]%Hdom. by rewrite Hk in Hx.
  - intros k'. rewrite lookup_insert_is_Some, elem_of_cons, Hdom.
    split.
    + intros [->|Hs]; [by left|].
      destruct (decide (k = k')) as [->|Hne]; [by left|by right].
    + intros [->|[_ Hs]]; [by left|by right].
Qed.

Section CacheExamples.

Import TTLCache.

(** Two entries, the first already past its time at 20, the second
    stored without expiration. *)
Lemma DeleteExpired_removes_exactly_expired_witness :
  let c : Cache nat :=
    Set_ [] "b" 2%nat (-1) 0 (Set_ [] "a" 1%nat 10 0 NewCache) in
  let order := (map_to_list (items c)).*1 in
  range_of (items c) order
  ∧ items (DeleteExpired order 20 c) !! "a" = None
  ∧ items (DeleteExpired order 20 c) !! "b" = Some (mkCacheItem 2%nat 0)
  ∧ Evictions (stats (DeleteExpired order 20 c)) = 1.
Proof.
  intros c order.
  assert (range_of (items c) order) as Hrange
    by apply range_of_map_to_list.
  assert (0 ≤ Evictions (stats c) < 2 ^ 64) as Hev.
  { replace (Evictions (stats c)) with 0 by reflexivity. lia. }
  destruct (DeleteExpired_removes_exactly_expired c order 20 Hrange Hev)
    as (Hsome & _ & Hcount & _ & _).
  split_and!.
  - exact Hrange.
  - exact (Hsome "a" (mkCacheItem 1%nat 10) eq_refl).
  - exact (Hsome "b" (mkCacheItem 2%nat 0) eq_refl).
  - rewrite Hcount. reflexivity.
Defined.

(** C4 as stated fails at the boundary: an entry stored at time 100
    with ttl 10 has [expiresAt = 110], and a read at time 110, which is
    at or after [expiresAt], still finds it and counts a hit. *)
Lemma Get_at_expiresAt_is_a_hit :
  let c : Cache nat := Set_ [] "k" 7%nat 10 100 NewCache in
  items c !! "k" = Some (mkCacheItem 7%nat 110)
  ∧ 110 >= 110
  ∧ (Get "k" 110 c).1 ≠ None
  ∧ (Get "k" 110 c).1 = Some 7%nat
  ∧ Hits (stats (Get "k" 110 c).2) = 1
  ∧ Misses (stats (Get "k" 110 c).2) = 0.
Proof. intros c. split_and!; try reflexivity; [lia|discriminate]. Qed.

(** At the boundary [Get] and [Items] disagree: [Get] compares with
    [now > Expiration], [Items] with [now < Expiration]. *)
Example Get_and_Items_at_expiresAt :
  let c : Cache nat := Set_ [] "k" 7%nat 10 100 NewCache in
  (Get "k" 110 c).1 = Some 7%nat ∧ Items 110 c !! "k" = None.
Proof. intros c. split; reflexivity. Qed.

(** A ttl so long that [t0 + d] leaves the [int64] range wraps to a
    negative stamp, which [Get] reads as no expiration. *)
Example Get_after_overflowing_ttl :
  let now := 1700000000000000000 in
  let c : Cache nat := Set_ [] "k" 7%nat MaxInt64 now NewCache in
  (∃ e, items c !! "k" = Some (mkCacheItem 7%nat e) ∧ e < 0)
  ∧ (Get "k" (now + 1) c).1 = Some 7%nat.
Proof.
  intros now c. split; [|reflexivity].
  eexists. split; [reflexivity|]. reflexivity.
Qed.

Lemma Get_after_Set_with_ttl_witness :
  let c : Cache nat := Set_ [] "k" 7%nat 10 100 NewCache in
  (0 < 10 ∧ 0 ≤ 100 ∧ 100 + 10 ≤ MaxInt64)
  ∧ (Get "k" 111 c).1 = None
  ∧ Misses (stats (Get "k" 111 c).2) = 1
  ∧ (Get "k" 110 c).1 = Some 7%nat.
Proof.
  intros c.
  assert (0 < 10) as H1 by lia.
  assert (0 ≤ 100) as H2 by lia.
  assert (100 + 10 ≤ MaxInt64) as H3 by (unfold MaxInt64; lia).
  destruct (Get_after_Set_with_ttl (V := nat) NewCache [] "k" 7%nat 10 100 111
              H1 H2 H3) as (_ & Hmiss & _).
  destruct (Get_after_Set_with_ttl (V := nat) NewCache [] "k" 7%nat 10 100 110
              H1 H2 H3) as (_ & _ & Hhit & _).
  split_and!; [done..| | |].
  - subst c. rewrite Hmiss by lia. reflexivity.
  - subst c. rewrite Hmiss by lia. reflexivity.
  - subst c. rewrite Hhit by lia. reflexivity.
Defined.

Lemma Get_leaves_entries_alone_witness :
  let c : Cache nat := Set_ [] "k" 7%nat 10 100 NewCache in
  let r := Get "k" 200 c in
  r.1 = None
  ∧ items r.2 !! "k" = Some (mkCacheItem 7%nat 110)
  ∧ ItemCount r.2 = 1
  ∧ items (DeleteExpired ["k"] 200 r.2) !! "k" = None.
Proof.
  intros c r.
  destruct (Get_leaves_entries_alone c "k" 200) as (_ & Hmiss & Hstay).
  destruct (Hstay (mkCacheItem 7%nat 110) eq_refl ltac:(simpl; lia))
    as (Hk & Hsweep & _ & _).
  split_and!.
  - subst r. destruct Hmiss as [-> _]; [|done].
    right. exists (mkCacheItem 7%nat 110). split; [reflexivity|simpl; lia].
  - exact Hk.
  - reflexivity.
  - apply Hsweep. change (items (Get "k" 200 c).2) with (items c).
    apply (range_of_map_to_list (items c)).
Defined.

(** C1 at the failing input.  A cache limited to one item holds an entry
    under the empty key; [Set] of another key finds the cache full, the
    scan of [evictOldest] stops at the empty key, and the guard
    [oldestKey != ""] then skips the deletion: nothing is evicted and the
    cache holds two entries against a limit of one. *)
Theorem Set_at_capacity_with_empty_key_evicts_nothing :
  let c : Cache nat := Set_ [] "" 7%nat 5 0 (WithMaxItems 1 NewCache) in
  let c' := Set_ [""] "a" 8%nat 10 0 c in
  maxItems c = 1
  ∧ ItemCount c = 1
  ∧ range_of (items c) [""]
  ∧ oldest_scan (items c) [""] = (EmptyString, 5)
  ∧ items c' !! "" = Some (mkCacheItem 7%nat 5)
  ∧ items c' !! "a" = Some (mkCacheItem 8%nat 10)
  ∧ ItemCount c' = 2
  ∧ Size (stats c') = 2
  ∧ Evictions (stats c') = 0
  ∧ maxItems c' = 1.
Proof.
  intros c c'. split_and!; try reflexivity.
  apply (range_of_map_to_list (items c)).
Qed.

(** The scan compares raw [Expiration] values, so an entry stored
    without expiration (stamp 0) is the first victim, before an entry
    that expires soon. *)
Example evictOldest_takes_the_entry_without_expiration :
  let c : Cache nat :=
    Set_ [] "soon" 2%nat 10 100
      (Set_ [] "keep" 1%nat (-1) 100 (WithMaxItems 2 NewCache)) in
  let c' := Set_ ["keep"; "soon"] "new" 3%nat 50 100 c in
  items c' !! "keep" = None
  ∧ items c' !! "soon" = Some (mkCacheItem 2%nat 110)
  ∧ c' = Set_ ["soon"; "keep"] "new" 3%nat 50 100 c.
Proof. intros c c'. split_and!; reflexivity. Qed.

(** With two entries of equal [Expiration] the victim is the one the
    [range] loop visits first, so it changes with the visiting order. *)
Example evictOldest_tie_follows_the_visiting_order :
  let c : Cache nat :=
    Set_ [] "b" 2%nat 10 100
      (Set_ [] "a" 1%nat 10 100 (WithMaxItems 2 NewCache)) in
  items (Set_ ["a"; "b"] "new" 3%nat 50 100 c) !! "a" = None
  ∧ items (Set_ ["a"; "b"] "new" 3%nat 50 100 c) !! "b"
    = Some (mkCacheItem 2%nat 110)
  ∧ items (Set_ ["b"; "a"] "new" 3%nat 50 100 c) !! "b" = None
  ∧ items (Set_ ["b"; "a"] "new" 3%nat 50 100 c) !! "a"
    = Some (mkCacheItem 1%nat 110).
Proof. intros c. split_and!; reflexivity. Qed.

(** C9 at the failing input.  The cache holds exactly [maxItems = 2]
    entries, one of them under the empty key with the smallest
    [Expiration].  [Set] on the key ["a"], which is present, runs
    [evictOldest], but the guard [oldestKey != ""] skips the deletion: no
    entry is evicted before the overwrite. *)
Theorem Set_existing_key_with_empty_key_victim_evicts_nothing :
  let c : Cache nat :=
    Set_ [] "a" 2%nat 20 0
      (Set_ [] "" 1%nat 10 0 (WithMaxItems 2 NewCache)) in
  let c' := Set_ ["a"; ""] "a" 3%nat 30 0 c in
  ItemCount c = maxItems c
  ∧ range_of (items c) ["a"; ""]
  ∧ items c !! "a" = Some (mkCacheItem 2%nat 20)
  ∧ items c' !! "" = Some (mkCacheItem 1%nat 10)
  ∧ items c' !! "a" = Some (mkCacheItem 3%nat 30)
  ∧ ItemCount c' = 2
  ∧ Evictions (stats c') = 0
  ∧ c' = Set_ [""; "a"] "a" 3%nat 30 0 c.
Proof.
  intros c c'. split_and!; try reflexivity.
  apply (range_of_insert (<["" := mkCacheItem 1%nat 10]> ∅) [""] "a"
           (mkCacheItem 2%nat 20)); [|done].
  apply (range_of_insert ∅ [] "" (mkCacheItem 1%nat 10));
    [apply range_of_empty|done].
Qed.

End CacheExamples.

(** * Properties of the event bus *)

Section BusFacts.

Import Events.

Context {D S : Type} `{!EventConsumer D S}.
Implicit Types (eb : EventBus D S) (e event : Event D).
Implicit Types (h handler : EventHandler D) (ty : EventType) (id u : string).

Lemma subscription_id_inj ty u1 u2 :
  ty +:+ "-" +:+ u1 = ty +:+ "-" +:+ u2 → u1 = u2.
Proof. intros Heq. by do 2 apply (inj (String.append _)) in Heq. Qed.

Lemma handlers_of_Subscribe ty h u eb ty' id' :
  handlers_of (Subscribe ty h u eb).2 ty' !! id'
  = if decide (ty' = ty ∧ id' = ty +:+ "-" +:+ u) then Some h
    else handlers_of eb ty' !! id'.
Proof.
  unfold Subscribe, handlers_of. cbn [snd subscribers set_subscribers].
  destruct (decide (ty' = ty)) as [->|Hty].
  - rewrite lookup_insert_eq. cbn [default from_option Datatypes.id].
    destruct (decide (id' = ty +:+ "-" +:+ u)) as [->|Hid].
    + rewrite lookup_insert_eq. by rewrite decide_True.
    + rewrite lookup_insert_ne by done. rewrite decide_False; [done|].
      by intros [_ ?].
  - rewrite lookup_insert_ne by done. rewrite decide_False; [done|].
    by intros [? _].
Qed.

Lemma handlers_of_unsubscribe ty id eb ty' id' :
  handlers_of (unsubscribe ty id eb) ty' !! id'
  = if decide (ty' = ty ∧ id' = id) then None
    else handlers_of eb ty' !! id'.
Proof.
  unfold unsubscribe, handlers_of.
  destruct (subscribers eb !! ty) as [hs|] eqn:Hty.
  - cbn [subscribers set_subscribers].
    destruct (decide (ty' = ty)) as [->|Hne].
    + rewrite lookup_insert_eq, Hty. cbn [default from_option Datatypes.id].
      destruct (decide (id' = id)) as [->|Hid].
      * rewrite lookup_delete_eq. by rewrite decide_True.
      * rewrite lookup_delete_ne by done. rewrite decide_False; [done|].
        by intros [_ ?].
    + rewrite lookup_insert_ne by done. rewrite decide_False; [done|].
      by intros [? _].
  - case_decide as Heq; [|done]. destruct Heq as [-> ->].
    by rewrite Hty.
Qed.

Lemma handlers_of_AddMiddleware mw eb ty :
  handlers_of (AddMiddleware mw eb) ty = handlers_of eb ty.
Proof. done. Qed.

(** [Publish] changes the consumer and the log, nothing else. *)
Lemma Publish_bus event eb :
  subscribers (Publish event eb).1 = subscribers eb
  ∧ middleware (Publish event eb).1 = middleware eb.
Proof.
  unfold Publish.
  destruct (Consume (apply_middleware (middleware eb) event) (consumer eb))
    as [[err|] s]; done.
Qed.

Lemma handlers_of_Publish event eb ty :
  handlers_of (Publish event eb).1 ty = handlers_of eb ty.
Proof. unfold handlers_of. by rewrite (proj1 (Publish_bus event eb)). Qed.

(** The fan-out of [Publish] is that of the bus it was called on, for the
    event that leaves the middleware chain, whatever the consumer
    answered. *)
Lemma Publish_started event eb :
  (Publish event eb).2
  = fan_out eb (apply_middleware (middleware eb) event).
Proof.
  unfold Publish.
  destruct (Consume (apply_middleware (middleware eb) event) (consumer eb))
    as [[err|] s]; done.
Qed.

Lemma Publish_consumer event eb :
  let event' := apply_middleware (middleware eb) event in
  consumer (Publish event eb).1 = (Consume event' (consumer eb)).2
  ∧ logger (Publish event eb).1
    = logger eb ++
        match (Consume event' (consumer eb)).1 with
        | Some err =>
            [mkLogEntry "error" [("error", LogString (Error err))]
               "Failed to consume event"]
        | None => []
        end.
Proof.
  unfold Publish.
  destruct (Consume (apply_middleware (middleware eb) event) (consumer eb))
    as [[err|] s]; cbn; [done|]. by rewrite app_nil_r.
Qed.

(** Middleware added later runs later, on the output of the earlier
    stages. *)
Lemma apply_middleware_snoc (mws : list (EventMiddleware D)) mw event :
  apply_middleware (mws ++ [mw]) event = mw (apply_middleware mws event).
Proof. unfold apply_middleware. by rewrite foldl_app. Qed.

Lemma elem_of_fan_out eb event (i : Invocation D) :
  i ∈ fan_out eb event
  ↔ ∃ id h, handlers_of eb (Type_ event) !! id = Some h
            ∧ i = mkInvocation id h event.
Proof.
  unfold fan_out. rewrite list_elem_of_fmap. split.
  - intros ([id h] & -> & Hin%elem_of_map_to_list). by exists id, h.
  - intros (id & h & Hh & ->). exists (id, h). split; [done|].
    by apply elem_of_map_to_list.
Qed.

Lemma filter_started_absent (l : list (string * EventHandler D)) event id :
  id ∉ l.*1 →
  filter (λ i, inv_id i = id) ((λ p, mkInvocation p.1 p.2 event) <$> l) = [].
Proof.
  induction l as [|[k a] l IH]; intros Hid; [done|].
  rewrite fmap_cons, filter_cons_False.
  - apply IH. intros Hin. apply Hid. rewrite fmap_cons. apply elem_of_cons.
    by right.
  - simpl. intros ->. apply Hid. rewrite fmap_cons. apply elem_of_cons.
    by left.
Qed.

Lemma filter_started_unique (l : list (string * EventHandler D)) event id h :
  NoDup l.*1 → (id, h) ∈ l →
  filter (λ i, inv_id i = id) ((λ p, mkInvocation p.1 p.2 event) <$> l)
  = [mkInvocation id h event].
Proof.
  induction l as [|[k a] l IH]; intros Hnd Hin.
  - by apply elem_of_nil in Hin.
  - rewrite fmap_cons in Hnd. apply NoDup_cons in Hnd as [Hk Hnd].
    simpl in Hk. rewrite fmap_cons.
    apply elem_of_cons in Hin as [Heq|Hin].
    + simplify_eq. rewrite filter_cons_True by done.
      by rewrite filter_started_absent.
    + rewrite filter_cons_False.
      * by apply IH.
      * simpl. intros ->. apply Hk. apply list_elem_of_fmap. by exists (id, h).
Qed.

(** A live subscription of the event's type is started exactly once, and
    a subscription that is not registered for it is not started. *)
Lemma fan_out_once eb event id h :
  handlers_of eb (Type_ event) !! id = Some h →
  filter (λ i, inv_id i = id) (fan_out eb event) = [mkInvocation id h event].
Proof.
  intros Hh. unfold fan_out.
  apply filter_started_unique; [apply NoDup_fst_map_to_list|].
  by apply elem_of_map_to_list.
Qed.

Lemma fan_out_none eb event id :
  handlers_of eb (Type_ event) !! id = None →
  filter (λ i, inv_id i = id) (fan_out eb event) = [].
Proof.
  intros Hh. unfold fan_out. apply filter_started_absent.
  intros ([k a] & -> & Hin%elem_of_map_to_list)%list_elem_of_fmap.
  simpl in Hh. by rewrite Hin in Hh.
Qed.

Lemma run_op_keeps_unsubscribed (op : BusOp D) eb ty u :
  handlers_of eb ty !! (ty +:+ "-" +:+ u) = None →
  u ∉ drawn [op] →
  handlers_of (run_op op eb).1 ty !! (ty +:+ "-" +:+ u) = None
  ∧ ∀ i, i ∈ (run_op op eb).2 →
         ¬ (inv_id i = ty +:+ "-" +:+ u ∧ Type_ (inv_event i) = ty).
Proof.
  intros Hnone Hu. destruct op as [ty' h' u'|sub'|mw|event]; cbn [run_op].
  - split; [|intros i Hi; by apply elem_of_nil in Hi].
    cbn [fst]. rewrite handlers_of_Subscribe. case_decide as Heq; [|done].
    destruct Heq as [-> Hid%subscription_id_inj]. subst u'.
    exfalso. apply Hu. cbn. apply elem_of_cons. by left.
  - split; [|intros i Hi; by apply elem_of_nil in Hi].
    cbn [fst]. unfold Unsubscribe. rewrite handlers_of_unsubscribe.
    by case_decide.
  - split; [done|intros i Hi; by apply elem_of_nil in Hi].
  - split; [by rewrite handlers_of_Publish|].
    intros i Hi [Hid Hty]. rewrite Publish_started in Hi.
    apply elem_of_fan_out in Hi as (id' & h' & Hh' & ->).
    cbn in Hid, Hty. subst. by rewrite Hnone in Hh'.
Qed.

(** Once a subscription is off the bus it is never started again,
    whatever is done with the bus afterwards, as long as no later
    [Subscribe] draws the same uuid. *)
Lemma run_ops_keeps_unsubscribed (ops : list (BusOp D)) eb ty u :
  handlers_of eb ty !! (ty +:+ "-" +:+ u) = None →
  u ∉ drawn ops →
  ∀ i, i ∈ (run_ops ops eb).2 →
       ¬ (inv_id i = ty +:+ "-" +:+ u ∧ Type_ (inv_event i) = ty).
Proof.
  revert eb. induction ops as [|op ops IH]; intros eb Hnone Hu i Hi.
  - by apply elem_of_nil in Hi.
  - assert ((u ∉ drawn [op]) ∧ (u ∉ drawn ops)) as [Hu1 Hu2].
    { change (op :: ops) with ([op] ++ ops) in Hu. unfold drawn in *.
      rewrite omap_app in Hu. split; intros ?; apply Hu, elem_of_app; auto. }
    destruct (run_op_keeps_unsubscribed op eb ty u Hnone Hu1) as [Hnone1 Hno1].
    cbn [run_ops] in Hi.
    destruct (run_op op eb) as [eb1 started1].
    specialize (IH eb1 Hnone1 Hu2).
    destruct (run_ops ops eb1) as [eb2 started2].
    cbn [snd] in *. apply elem_of_app in Hi as [Hi|Hi]; [by apply Hno1|].
    by apply IH.
Qed.

Lemma handlers_of_Unsubscribe_self (sub : EventSubscription D) eb :
  handlers_of (Unsubscribe sub eb) (sub_Type sub) !! sub_ID sub = None.
Proof.
  unfold Unsubscribe. rewrite handlers_of_unsubscribe. by rewrite decide_True.
Qed.

End BusFacts.

(** ** Claims about the event bus *)

Section BusClaims.

Import Events.

Context {D S : Type} `{!EventConsumer D S}.
Implicit Types (eb : EventBus D S) (e event : Event D).
Implicit Types (h handler : EventHandler D) (ty : EventType) (id u : string).

(** C5, as amended.  Two handlers are subscribed to the same event type,
    with distinct uuids drawn for their ids, and one event is published
    whose form after the middleware chain has that type.  Then both
    handlers are started exactly once, each with the event as it leaves
    the middleware chain (the published event itself when no middleware is
    registered).  If one of the two is unsubscribed before the publish,
    only the other is started.  For every subscription, once
    [Unsubscribe] has returned no later call on the bus starts its
    handler again under that subscription, as long as no later
    [Subscribe] draws the same uuid.  A [Subscribe] with a fresh uuid adds
    one subscription and leaves all the others as they are, and
    unsubscribing another subscription leaves it in place. *)
Theorem Subscribe_Publish_Unsubscribe eb ty h1 h2 u1 u2 event :
  u1 ≠ u2 →
  let s1 := (Subscribe ty h1 u1 eb).1 in
  let eb1 := (Subscribe ty h1 u1 eb).2 in
  let s2 := (Subscribe ty h2 u2 eb1).1 in
  let eb2 := (Subscribe ty h2 u2 eb1).2 in
  let event' := apply_middleware (middleware eb) event in
  Type_ event' = ty →
  (filter (λ i, inv_id i = sub_ID s1) (Publish event eb2).2
   = [mkInvocation (sub_ID s1) h1 event']
   ∧ filter (λ i, inv_id i = sub_ID s2) (Publish event eb2).2
     = [mkInvocation (sub_ID s2) h2 event']
   ∧ (middleware eb = [] → event' = event))
  ∧ (filter (λ i, inv_id i = sub_ID s1)
       (Publish event (Unsubscribe s1 eb2)).2 = []
     ∧ filter (λ i, inv_id i = sub_ID s2)
         (Publish event (Unsubscribe s1 eb2)).2
       = [mkInvocation (sub_ID s2) h2 event'])
  ∧ (∀ (eb0 : EventBus D S) (sub : EventSubscription D) u
       (ops : list (BusOp D)),
       sub_ID sub = sub_Type sub +:+ "-" +:+ u →
       u ∉ drawn ops →
       ∀ i, i ∈ (run_ops ops (Unsubscribe sub eb0)).2 →
            ¬ (inv_id i = sub_ID sub
               ∧ Type_ (inv_event i) = sub_Type sub))
  ∧ (sub_ID s1 ≠ sub_ID s2
     ∧ handlers_of eb2 ty !! sub_ID s1 = Some h1
     ∧ handlers_of eb2 ty !! sub_ID s2 = Some h2
     ∧ (∀ ty' id', ¬ (ty' = ty ∧ (id' = sub_ID s1 ∨ id' = sub_ID s2)) →
          handlers_of eb2 ty' !! id' = handlers_of eb ty' !! id')
     ∧ (∀ sub' : EventSubscription D,
          ¬ (sub_Type sub' = ty ∧ sub_ID sub' = sub_ID s1) →
          handlers_of (Unsubscribe sub' eb2) ty !! sub_ID s1 = Some h1)).
Proof.
  intros Hu s1 eb1 s2 eb2 event' Hty.
  assert (sub_ID s1 ≠ sub_ID s2) as Hids.
  { subst s1 s2. cbn. by intros ?%subscription_id_inj. }
  assert (handlers_of eb2 ty !! sub_ID s1 = Some h1) as H1.
  { subst eb2 eb1. rewrite !handlers_of_Subscribe.
    rewrite decide_False by (intros [_ ?]; by apply Hids).
    by rewrite decide_True. }
  assert (handlers_of eb2 ty !! sub_ID s2 = Some h2) as H2.
  { subst eb2. rewrite handlers_of_Subscribe. by rewrite decide_True. }
  assert (middleware eb2 = middleware eb) as Hmw by done.
  assert (middleware (Unsubscribe s1 eb2) = middleware eb) as Hmw'.
  { unfold Unsubscribe, unsubscribe.
    by destruct (subscribers eb2 !! sub_Type s1). }
  split_and!.
  - rewrite Publish_started, Hmw. fold event'.
    apply fan_out_once. by rewrite Hty.
  - rewrite Publish_started, Hmw. fold event'.
    apply fan_out_once. by rewrite Hty.
  - intros Hnil. subst event'. by rewrite Hnil.
  - rewrite Publish_started, Hmw'. fold event'.
    apply fan_out_none. rewrite Hty.
    apply (handlers_of_Unsubscribe_self s1 eb2).
  - rewrite Publish_started, Hmw'. fold event'.
    apply fan_out_once. rewrite Hty.
    unfold Unsubscribe. rewrite handlers_of_unsubscribe.
    rewrite decide_False; [done|]. intros [_ ?]. by apply Hids.
  - intros eb0 sub u ops Hid Hfresh i Hi. rewrite Hid.
    apply (run_ops_keeps_unsubscribed ops (Unsubscribe sub eb0)); [|done..].
    rewrite <- Hid. apply handlers_of_Unsubscribe_self.
  - done.
  - done.
  - done.
  - intros ty' id' Hother. subst eb2 eb1. rewrite !handlers_of_Subscribe.
    rewrite !decide_False; [done|..]; intros [-> ->]; apply Hother; auto.
  - intros sub' Hother. unfold Unsubscribe.
    rewrite handlers_of_unsubscribe. rewrite decide_False; [done|].
    intros [? ?]. by apply Hother.
Qed.

End BusClaims.

Section BusExamples.

Import Events.

(** C5 as stated fails on a bus with a middleware that rewrites the
    event: two handlers are subscribed to ["workflow"], one event of that
    type named ["WorkflowAdded"] is published, and both handlers are
    started with an event named ["Renamed"]. *)
Lemma handlers_receive_the_middleware_output :
  let rename : EventMiddleware string :=
    λ e, mkEvent (ID e) (Type_ e) "Renamed" (Data e) (Metadata e)
           (Timestamp e) in
  let h : EventHandler string := λ _, None in
  let eb0 : EventBus string (RegistryEventConsumer string) :=
    AddMiddleware rename (NewEventBus [] (NewRegistryEventConsumer [])) in
  let eb1 := (Subscribe "workflow" h "u1" eb0).2 in
  let eb2 := (Subscribe "workflow" h "u2" eb1).2 in
  let event := mkEvent "e1" "workflow" "WorkflowAdded" "ci" ∅ (Some 1) in
  let started := (Publish event eb2).2 in
  Type_ event = "workflow"
  ∧ length started = 2%nat
  ∧ ∀ i, i ∈ started →
         Name (inv_event i) = "Renamed" ∧ Name (inv_event i) ≠ Name event.
Proof.
  intros rename h eb0 eb1 eb2 event started. split_and!; [done..|].
  intros i Hi. subst started. rewrite Publish_started in Hi.
  apply elem_of_fan_out in Hi as (id & h' & _ & ->). done.
Qed.

Lemma Subscribe_Publish_Unsubscribe_witness :
  let h1 : EventHandler string := λ _, None in
  let h2 : EventHandler string := λ _, Some (errorString "boom") in
  let eb : EventBus string (RegistryEventConsumer string) :=
    NewEventBus [] (NewRegistryEventConsumer []) in
  let eb1 := (Subscribe "workflow" h1 "u1" eb).2 in
  let eb2 := (Subscribe "workflow" h2 "u2" eb1).2 in
  let event := mkEvent "e1" "workflow" "WorkflowAdded" "ci" ∅ (Some 1) in
  "u1" ≠ "u2"
  ∧ Type_ (apply_middleware (middleware eb) event) = "workflow"
  ∧ filter (λ i, inv_id i = "workflow-u1") (Publish event eb2).2
    = [mkInvocation "workflow-u1" h1 event]
  ∧ filter (λ i, inv_id i = "workflow-u2") (Publish event eb2).2
    = [mkInvocation "workflow-u2" h2 event].
Proof.
  intros h1 h2 eb eb1 eb2 event.
  assert ("u1" ≠ "u2") as Hu by done.
  assert (Type_ (apply_middleware (middleware eb) event) = "workflow")
    as Hty by done.
  destruct (Subscribe_Publish_Unsubscribe eb "workflow" h1 h2 "u1" "u2"
              event Hu Hty) as ((Hfirst & Hsecond & _) & _).
  split_and!; [done|done|exact Hfirst|exact Hsecond].
Defined.

(** C3 at the failing input.  An event with no timestamp is published on
    a bus with no middleware; the updated [Publish] hands it to the
    consumer and to the subscriber with the timestamp still unset, where
    the first [Publish] of the file stamps it with the current time. *)
Theorem Publish_leaves_the_timestamp_unset :
  let h : EventHandler string := λ _, None in
  let eb : EventBus string (RegistryEventConsumer string) :=
    (Subscribe "workflow" h "u1"
       (NewEventBus [] (NewRegistryEventConsumer []))).2 in
  let event := mkEvent "e1" "workflow" "WorkflowAdded" "ci" ∅ None in
  Timestamp event = None
  ∧ rec_events (consumer (Publish event eb).1) = [event]
  ∧ inv_event <$> (Publish event eb).2 = [event]
  ∧ inv_event <$> (Original.Publish 1700 event eb).2
    = [set_Timestamp (Some 1700) event].
Proof. intros h eb event. split_and!; reflexivity. Qed.

(** A consumer that fails: the registry consumer with a full channel.
    The error is logged on the bus and the subscriber is started all the
    same. *)
Example Publish_with_a_failing_consumer :
  let h : EventHandler string := λ _, None in
  let event := mkEvent "e1" "workflow" "WorkflowAdded" "ci" ∅ (Some 1) in
  let full : RegistryEventConsumer string :=
    mkRegistryEventConsumer [] 100 (replicate events_capacity event) in
  let eb := (Subscribe "workflow" h "u1" (NewEventBus [] full)).2 in
  (Consume event full).1 = Some (errorString "event channel full")
  ∧ logger (Publish event eb).1
    = [mkLogEntry "error" [("error", LogString "event channel full")]
         "Failed to consume event"]
  ∧ (Publish event eb).2 = [mkInvocation "workflow-u1" h event].
Proof.
  intros h event full eb.
  assert ((Consume event full).1 = Some (errorString "event channel full"))
    as Herr.
  { unfold Consume, RegistryEventConsumer_Consumer, Registry_Consume.
    rewrite decide_False; [done|]. subst full. cbn [rec_events].
    rewrite length_replicate. lia. }
  split_and!; [done| |by rewrite Publish_started].
  destruct (Publish_consumer event eb) as [_ ->].
  change (apply_middleware (middleware eb) event) with event.
  change (consumer eb) with full. by rewrite Herr.
Qed.

End BusExamples.

(** * Properties of the uuid strings *)

Section UUIDFacts.

Lemma append_cons (a : Ascii.ascii) (s t : string) :
  String a s +:+ t = String a (s +:+ t).
Proof. reflexivity. Qed.

Lemma length_append (s t : string) :
  String.length (s +:+ t) = (String.length s + String.length t)%nat.
Proof.
  induction s as [|a s IH]; [done|].
  rewrite append_cons. cbn. by rewrite IH.
Qed.








End UUIDFacts.

(** * Properties of the manager operations *)

(** Unfold one operation down to the world it returns. *)
Ltac run_M :=
  unfold Manager.run, Manager.AddWorkflow, Manager.AddSecret,
    Manager.GenerateNodeProp;
  unfold Manager.check, Manager.check_result, Manager.fail,
    Manager.call_github, Manager.call_store_Set, Manager.on_cache,
    Manager.Emit, Manager.Warn, Manager.uuid_New_String, Manager.Now;
  unfold mbind, Manager.M_bind, mret, Manager.M_ret;
  cbn.

Section ManagerFacts.

Import Manager.

Context {C : Type} `{!Cache C}.
Implicit Types (m : NodePropManager) (w : World C) (op : Operation).

(** An operation that returns an error has emitted nothing: every error
    return of the three operations comes before the call of [Emit], and
    no error path calls it. *)
Lemma failure_emits_nothing m op w e w' :
  run m op w = (Err e, w') → emitted w' = emitted w.
Proof.
  destruct op as [args|args|args]; run_M;
    repeat case_match; intros; simplify_eq; done.
Qed.





End ManagerFacts.

(** ** Claims about the manager *)

Section ManagerClaims.

Import Manager.

Context {C : Type} `{!Cache C}.
Implicit Types (m : NodePropManager) (w : World C) (op : Operation).

(** C6.  When the argument validation of [AddWorkflow], [AddSecret] or
    [GenerateNodeProp] fails, the operation returns that error at once,
    wrapped in its validation context, and the world is as before: no
    call on the GitHub client or the store, the same cache, no event
    emitted. *)
Theorem validation_failure_has_no_effect m op w err :
  validate m op = Some err →
  run m op w = (Err (wrapError (validation_context op) err), w)
  ∧ github_calls (run m op w).2 = github_calls w
  ∧ store_calls (run m op w).2 = store_calls w
  ∧ cache (run m op w).2 = cache w
  ∧ emitted (run m op w).2 = emitted w.
Proof.
  intros Hv.
  assert (run m op w = (Err (wrapError (validation_context op) err), w))
    as Hrun.
  { destruct op as [args|args|args]; cbn in Hv; run_M; by rewrite Hv. }
  by rewrite Hrun.
Qed.


End ManagerClaims.

Section ManagerExamples.

Import Manager.

Lemma validation_failure_has_no_effect_witness :
  let m := mock_manager None in
  let op := DoAddWorkflow (WorkflowArguments.mk "" "ci" "name: CI" "" ∅ "") in
  validate m op = Some (errorString "repository is required")
  ∧ (run m op new_world).1
    = Err (wrapError "invalid workflow arguments"
             (errorString "repository is required"))
  ∧ github_calls (run m op new_world).2 = []
  ∧ emitted (run m op new_world).2 = [].
Proof.
  intros m op.
  assert (validate m op = Some (errorString "repository is required"))
    as Hv by reflexivity.
  destruct (validation_failure_has_no_effect m op new_world _ Hv)
    as (Hrun & Hcalls & _ & _ & Hemitted).
  split_and!; [done| |exact Hcalls|exact Hemitted].
  by rewrite Hrun.
Defined.


(** C2 at the failing input.  The GitHub client answers every call with
    the error ["github error"].  Each of the three operations returns that
    error wrapped in its context, after one call on the client, and the
    list of emitted events is empty: no error event is emitted. *)
Theorem collaborator_failure_emits_no_event :
  let m := mock_manager (Some (errorString "github error")) in
  let wf := WorkflowArguments.mk "owner/repo" "test-workflow.yml"
              "name: Test" "" ∅ "" in
  let sec := SecretArguments.mk "owner/repo" "TEST_SECRET" "secret-value"
               "private" in
  let np := NodePropArguments.mk "owner/svc" "svc" "example.com" "" ∅ in
  ((AddWorkflow m wf new_world).1
   = Err (wrapError "failed to create workflow" (errorString "github error"))
   ∧ github_calls (AddWorkflow m wf new_world).2
     = [CreateWorkflow "owner/repo" "test-workflow.yml" "name: Test"]
   ∧ emitted (AddWorkflow m wf new_world).2 = [])
  ∧ ((AddSecret m sec new_world).1
     = Err (wrapError "failed to create secret" (errorString "github error"))
     ∧ github_calls (AddSecret m sec new_world).2
       = [CreateSecret "owner/repo" "TEST_SECRET" "secret-value" "private"]
     ∧ emitted (AddSecret m sec new_world).2 = [])
  ∧ ((GenerateNodeProp m np new_world).1
     = Err (wrapError "failed to create nodeprop file"
              (errorString "github error"))
     ∧ github_calls (GenerateNodeProp m np new_world).2
       = [CreateFile "owner/svc" ".nodeprop.yml" "id: uuid-0, name: svc"]
     ∧ emitted (GenerateNodeProp m np new_world).2 = []).
Proof. intros m wf sec np. split_and!; reflexivity. Qed.

(** The same operations against a client that succeeds emit their
    success event. *)
Example AddWorkflow_success_emits_WorkflowAdded :
  let m := mock_manager None in
  let wf := WorkflowArguments.mk "owner/repo" "ci" "name: CI" "" ∅ "" in
  (AddWorkflow m wf new_world).1 = Ok ()
  ∧ github_calls (AddWorkflow m wf new_world).2
    = [CreateWorkflow "owner/repo" "ci" "name: CI"]
  ∧ (λ e, (Event.Type_ e, Event.Name e))
      <$> emitted (AddWorkflow m wf new_world).2
    = [("workflow", "WorkflowAdded")].
Proof. intros m wf. split_and!; reflexivity. Qed.

End ManagerExamples.

(** * Further properties of the TTL cache *)

Section CacheMore.

Import TTLCache CacheRun.

Context {V : Type}.
Implicit Types (c : Cache V) (order : list string) (k key : string).

Lemma expired_mono (v : CacheItem V) (t1 t2 : Z) :
  t1 ≤ t2 → expired t1 v = true → expired t2 v = true.
Proof. rewrite !expired_spec. lia. Qed.

Lemma swept_later (o : option (CacheItem V)) (t1 t2 : Z) :
  t1 ≤ t2 → swept t2 (swept t1 o) = swept t2 o.
Proof.
  intros Ht. destruct o as [v|]; [|done]. cbn [swept].
  destruct (expired t1 v) eqn:H1; cbn [swept]; [|done].
  by rewrite (expired_mono v t1 t2).
Qed.

Lemma sweep_noop now (l : list string) c :
  (∀ k v, items c !! k = Some v → expired now v = false) →
  foldl (sweep_step now) c l = c.
Proof.
  intros Hlive. induction l as [|a l IH]; [done|]. cbn [foldl].
  assert (sweep_step now c a = c) as ->; [|done].
  unfold sweep_step. destruct (items c !! a) as [v|] eqn:Ha; [|done].
  by rewrite (Hlive a v Ha).
Qed.

Lemma DeleteExpired_live order now c k v :
  range_of (items c) order →
  items (DeleteExpired order now c) !! k = Some v →
  items c !! k = Some v ∧ expired now v = false.
Proof.
  intros Hrange. rewrite DeleteExpired_lookup by done.
  destruct (items c !! k) as [v'|]; [|done]. cbn [swept].
  destruct (expired now v') eqn:He; [done|]. by intros [= ->].
Qed.

(** A sweep right after a sweep, at the same or an earlier time, changes
    nothing at all: no entry goes and the eviction counter stays. *)
Theorem DeleteExpired_twice_is_once c order1 now1 order2 now2 :
  range_of (items c) order1 →
  now2 ≤ now1 →
  DeleteExpired order2 now2 (DeleteExpired order1 now1 c)
  = DeleteExpired order1 now1 c.
Proof.
  intros Hrange Hnow.
  assert (∀ k v, items (DeleteExpired order1 now1 c) !! k = Some v →
                 expired now2 v = false) as Hlive.
  { intros k v Hk.
    destruct (DeleteExpired_live order1 now1 c k v Hrange Hk) as [_ He].
    destruct (expired now2 v) eqn:H2; [|done].
    by rewrite (expired_mono v now2 now1) in He. }
  unfold DeleteExpired at 1. rewrite (sweep_noop now2 order2 _ Hlive).
  reflexivity.
Qed.

(** After a sweep every entry still stored is one that [Get] serves, at
    the time of the sweep and at any earlier time. *)
Theorem Get_after_DeleteExpired_hits c order now k v t :
  range_of (items c) order →
  items (DeleteExpired order now c) !! k = Some v →
  t ≤ now →
  let c1 := DeleteExpired order now c in
  Get k t c1 = (Some (Value v), set_stats (incr_Hits (stats c1)) c1).
Proof.
  intros Hrange Hk Ht c1.
  destruct (DeleteExpired_live order now c k v Hrange Hk) as [_ He].
  unfold Get. fold c1 in Hk. rewrite Hk.
  destruct (expired t v) eqn:H2; [|done].
  by rewrite (expired_mono v t now) in He.
Qed.

(** [stats.Size] follows the number of stored entries through every
    sequence of calls: each call that changes the entries recomputes it,
    and the reading calls leave both alone. *)
Theorem Size_stays_in_sync (ops : list (CacheOp V)) c :
  Size_in_sync c → Size_in_sync (apply_ops ops c).
Proof.
  revert c. induction ops as [|op ops IH]; intros c Hc; [done|].
  cbn [apply_ops foldl]. apply IH. clear IH.
  destruct op as [order key value d now|key now|key now|key| |order now];
    cbn [apply_op]; unfold Size_in_sync, ItemCount in *.
  - done.
  - unfold Get. destruct (items c !! key) as [item|]; [|done].
    by destruct (expired now item).
  - unfold GetWithExpiration. destruct (items c !! key) as [item|]; [|done].
    destruct (0 <? Expiration item); [|done].
    by destruct (Expiration item <? now).
  - done.
  - done.
  - done.
Qed.

Lemma Set_below_capacity order key value d now c :
  len (items c) < maxItems c →
  items (Set_ order key value d now c)
  = <[key := mkCacheItem value (expiration_of c d now)]> (items c)
  ∧ maxItems (Set_ order key value d now c) = maxItems c.
Proof.
  intros Hlt. unfold Set_.
  destruct (Z.leb_spec (maxItems c) (len (items c))) as [?|_]; [lia|done].
Qed.

Lemma Set_maxItems order key value d now c :
  maxItems (Set_ order key value d now c) = maxItems c.
Proof.
  unfold Set_, evictOldest.
  destruct (maxItems c <=? len (items c)); [|done].
  by case_decide.
Qed.

Lemma bounded_Set order key value d now c :
  bounded c → op_ok c (OpSet order key value d now) →
  bounded (Set_ order key value d now c).
Proof.
  intros (Hmax & Hlen & Hempty & Hstamp) (Hrange & Hkey & Hnew).
  assert (items (Set_ order key value d now c) !! EmptyString = None
          ∧ (∀ k v, items (Set_ order key value d now c) !! k = Some v →
                    Expiration v < MaxInt64)
          ∧ len (items (Set_ order key value d now c)) ≤ maxItems c)
    as (Hempty' & Hstamp' & Hlen').
  { destruct (decide (len (items c) < maxItems c)) as [Hlt|Hge].
    - destruct (Set_below_capacity order key value d now c Hlt) as [-> _].
      split_and!.
      + by rewrite lookup_insert_ne.
      + intros k v. destruct (decide (k = key)) as [->|Hne].
        * rewrite lookup_insert_eq. by intros [= <-].
        * rewrite lookup_insert_ne by done. apply Hstamp.
      + unfold len in *. rewrite map_size_insert.
        destruct (items c !! key); simpl; lia.
    - assert (maxItems c ≤ len (items c)) as Hfull by lia.
      assert ((oldest_scan (items c) order).1 ≠ EmptyString) as Hvictim.
      { destruct (oldest_scan_spec (items c) order Hrange)
          as [[_ Hall]|(_ & (v & Hv & _) & _)].
        - exfalso.
          assert (size (items c) ≠ 0%nat) as Hsz by (unfold len in *; lia).
          apply map_size_ne_0_lookup in Hsz as (k & v & Hk).
          specialize (Hall k v Hk). specialize (Hstamp k v Hk). lia.
        - intros Heq. rewrite Heq in Hv. by rewrite Hempty in Hv. }
      destruct (Set_at_capacity_evicts_min order key value d now c Hrange
                  Hfull Hvictim) as (_ & -> & _ & Hle).
      split_and!.
      + rewrite lookup_insert_ne by done.
        destruct (decide ((oldest_scan (items c) order).1 = EmptyString));
          [done|]. by rewrite lookup_delete_ne.
      + intros k v. destruct (decide (k = key)) as [->|Hne].
        * rewrite lookup_insert_eq. by intros [= <-].
        * rewrite lookup_insert_ne by done.
          intros Hk. apply (Hstamp k v).
          apply lookup_delete_Some in Hk. by destruct Hk.
      + revert Hle.
        assert (items (Set_ order key value d now c)
                = <[key := mkCacheItem value (expiration_of c d now)]>
                    (delete (oldest_scan (items c) order).1 (items c)))
          as <-; [|lia].
        by destruct (Set_at_capacity_evicts_min order key value d now c
                       Hrange Hfull Hvictim) as (_ & -> & _). }
  unfold bounded. rewrite Set_maxItems. done.
Qed.

Lemma Get_items_maxItems key now c :
  items (Get key now c).2 = items c
  ∧ maxItems (Get key now c).2 = maxItems c.
Proof.
  unfold Get. destruct (items c !! key) as [item|]; [|done].
  by destruct (expired now item).
Qed.

Lemma bounded_sweep_step now c a : bounded c → bounded (sweep_step now c a).
Proof.
  intros (Hmax & Hlen & Hempty & Hstamp).
  destruct (sweep_step_frame now c a) as (_ & _ & Hm & _ & _ & _ & Hle & _).
  unfold bounded. rewrite Hm. split_and!; [done|lia|..].
  - by rewrite sweep_step_lookup, Hempty; case_decide.
  - intros k v. rewrite sweep_step_lookup. case_decide; [|apply Hstamp].
    destruct (items c !! k) as [v'|] eqn:Hk; [|done]. cbn [swept].
    destruct (expired now v'); [done|]. intros [= <-]. by apply (Hstamp k).
Qed.

Lemma bounded_sweep now (l : list string) c :
  bounded c → bounded (foldl (sweep_step now) c l).
Proof.
  revert c. induction l as [|a l IH]; intros c Hc; [done|].
  cbn [foldl]. by apply IH, bounded_sweep_step.
Qed.

Lemma bounded_apply_op (op : CacheOp V) c :
  bounded c → op_ok c op → bounded (apply_op op c).
Proof.
  intros Hc Hok.
  destruct op as [order key value d now|key now|key now|key| |order now];
    cbn [apply_op].
  - by apply bounded_Set.
  - destruct (Get_items_maxItems key now c) as (Hi & Hm).
    destruct Hc as (Hmax & Hlen & Hempty & Hstamp).
    unfold bounded. by rewrite Hi, Hm.
  - destruct Hc as (Hmax & Hlen & Hempty & Hstamp).
    assert (items (GetWithExpiration key now c).2 = items c
            ∧ maxItems (GetWithExpiration key now c).2 = maxItems c)
      as [Hi Hm].
    { unfold GetWithExpiration. destruct (items c !! key) as [item|]; [|done].
      destruct (0 <? Expiration item); [|done].
      by destruct (Expiration item <? now). }
    unfold bounded. by rewrite Hi, Hm.
  - destruct Hc as (Hmax & Hlen & Hempty & Hstamp).
    unfold bounded, Delete. cbn [items maxItems set_stats set_items].
    split_and!; [done| | |].
    + unfold len in *. rewrite map_size_delete.
      destruct (items c !! key); simpl; lia.
    + destruct (decide (key = EmptyString)) as [->|Hne].
      * apply lookup_delete_eq.
      * by rewrite lookup_delete_ne.
    + intros k v Hk. apply lookup_delete_Some in Hk as [_ Hk].
      by apply (Hstamp k).
  - destruct Hc as (Hmax & Hlen & Hempty & Hstamp).
    unfold bounded, Clear. cbn [items maxItems set_stats set_items].
    split_and!; [done| |done|].
    + unfold len. rewrite map_size_empty. lia.
    + intros k v. by rewrite lookup_empty.
  - unfold DeleteExpired.
    pose proof (bounded_sweep now order c Hc) as (Hmax & Hlen & Hempty & Hstamp).
    unfold bounded. cbn [items maxItems set_stats]. done.
Qed.

(** The size limit as an invariant.  A cache within its limit, with no
    entry under the empty key and no stamp equal to [math.MaxInt64], stays
    so through every sequence of calls in which no [Set] uses the empty
    key or computes the stamp [math.MaxInt64]: the number of entries never
    exceeds [maxItems]. *)
Theorem cache_stays_within_maxItems (ops : list (CacheOp V)) c :
  bounded c → ops_ok ops c →
  bounded (apply_ops ops c)
  ∧ ItemCount (apply_ops ops c) ≤ maxItems c.
Proof.
  intros Hc Hok.
  assert (bounded (apply_ops ops c)
          ∧ maxItems (apply_ops ops c) = maxItems c) as [Hb Hm].
  { revert c Hc Hok. induction ops as [|op ops IH]; intros c Hc Hok.
    - done.
    - destruct Hok as [Hop Hok]. cbn [apply_ops foldl].
      destruct (IH (apply_op op c) (bounded_apply_op op c Hc Hop) Hok)
        as [Hb Hm].
      split; [done|]. unfold apply_ops in Hm. rewrite Hm. clear.
      destruct op as [order key value d now|key now|key now|key| |order now];
        cbn [apply_op].
      + apply Set_maxItems.
      + by destruct (Get_items_maxItems key now c) as (_ & ->).
      + unfold GetWithExpiration.
        destruct (items c !! key) as [item|]; [|done].
        destruct (0 <? Expiration item); [|done].
        by destruct (Expiration item <? now).
      + done.
      + done.
      + unfold DeleteExpired. cbn [maxItems set_stats].
        by destruct (sweep_frame now order c) as (_ & _ & -> & _). }
  split; [done|]. destruct Hb as (_ & Hlen & _). unfold ItemCount. lia.
Qed.

Lemma DeleteExpired_keeps_unexpired order now c k v :
  items c !! k = Some v → expired now v = false →
  items (DeleteExpired order now c) !! k = Some v.
Proof.
  intros Hk He. unfold DeleteExpired. cbn [items set_stats].
  rewrite sweep_lookup, Hk. cbn [swept]. rewrite He. by case_decide.
Qed.

Lemma cleanup_ticks_keeps_no_expiry (ticks : list (list string * Z)) c k v :
  items c !! k = Some v → Expiration v ≤ 0 →
  items (cleanup_ticks ticks c) !! k = Some v.
Proof.
  revert c. induction ticks as [|[order now] ticks IH]; intros c Hk He.
  - done.
  - cbn [cleanup_ticks foldl]. apply IH; [|done].
    apply DeleteExpired_keeps_unexpired; [done|].
    apply expired_false. by left.
Qed.

(** An entry stored with a negative ttl is served by [Get] at every
    later time, however many cleanup ticks have been served in between
    and whatever their order and times. *)
Theorem no_expiry_entry_is_always_served c order key value d t0
    (ticks : list (list string * Z)) t :
  d < 0 →
  (Get key t (cleanup_ticks ticks (Set_ order key value d t0 c))).1
  = Some value.
Proof.
  intros Hd. rewrite Get_fst.
  rewrite (cleanup_ticks_keeps_no_expiry ticks _ key (mkCacheItem value 0)).
  - done.
  - by rewrite Set_lookup, expiration_of_negative.
  - done.
Qed.

(** [GetWithExpiration] finds what [Get] finds and misses what [Get]
    misses, with the same miss count, and never changes the entries.  But
    a live entry that has an expiration is returned with the cache exactly
    as it was: the hit that [Get] counts is not counted. *)
Theorem GetWithExpiration_agrees_with_Get_but_skips_the_hit c key now :
  fst <$> (GetWithExpiration key now c).1 = (Get key now c).1
  ∧ items (GetWithExpiration key now c).2 = items c
  ∧ Misses (stats (GetWithExpiration key now c).2)
    = Misses (stats (Get key now c).2)
  ∧ (∀ item, items c !! key = Some item →
       0 < Expiration item → now ≤ Expiration item →
       GetWithExpiration key now c
       = (Some (Value item, Some (Expiration item)), c)
       ∧ Hits (stats (Get key now c).2) = wrap_uint64 (Hits (stats c) + 1))
  ∧ (∀ item, items c !! key = Some item → Expiration item ≤ 0 →
       GetWithExpiration key now c
       = (Some (Value item, None), set_stats (incr_Hits (stats c)) c)).
Proof.
  unfold GetWithExpiration, Get, expired.
  destruct (items c !! key) as [item|] eqn:Hk.
  - destruct (Z.ltb_spec 0 (Expiration item)) as [Hpos|Hnp];
      destruct (Z.ltb_spec (Expiration item) now) as [Hlt|Hge];
      cbn; split_and!; try done;
      intros item' [= <-]; try lia; done.
  - split_and!; done.
Qed.

(** What [Get] finds and what [Items] lists.  [Get] serves an entry
    unless its stamp is positive and before the current time; [Items]
    lists it if the stamp is zero or after the current time.  So every
    entry that [Items] lists is served by [Get], and [Get] serves exactly
    two kinds of entries that [Items] leaves out: those whose positive
    stamp equals the current time, and those with a negative stamp (left
    by a ttl that overflowed) that is not after the current time. *)
Theorem Items_and_Get c key now v :
  ((Get key now c).1 = Some v
   ↔ ∃ item, items c !! key = Some item ∧ Value item = v
             ∧ (Expiration item ≤ 0 ∨ now ≤ Expiration item))
  ∧ (Items now c !! key = Some v
     ↔ ∃ item, items c !! key = Some item ∧ Value item = v
               ∧ (Expiration item = 0 ∨ now < Expiration item))
  ∧ (Items now c !! key = Some v → (Get key now c).1 = Some v)
  ∧ ((Get key now c).1 = Some v ∧ Items now c !! key = None
     ↔ ∃ item, items c !! key = Some item ∧ Value item = v
               ∧ ((Expiration item < 0 ∧ Expiration item ≤ now)
                  ∨ (0 < Expiration item ∧ Expiration item = now))).
Proof.
  assert ((Get key now c).1 = Some v
          ↔ ∃ item, items c !! key = Some item ∧ Value item = v
                    ∧ (Expiration item ≤ 0 ∨ now ≤ Expiration item)) as HG.
  { rewrite Get_fst. destruct (items c !! key) as [item|] eqn:Hk.
    - destruct (expired now item) eqn:He.
      + split; [done|]. intros (item' & [= <-] & _ & Hor).
        apply expired_spec in He. lia.
      + split.
        * intros [= <-]. exists item. split_and!; [done..|].
          by apply expired_false.
        * by intros (item' & [= <-] & <- & _).
    - split; [done|]. by intros (item' & ? & _). }
  assert (∀ v', Items now c !! key = Some v'
          ↔ ∃ item, items c !! key = Some item ∧ Value item = v'
                    ∧ (Expiration item = 0 ∨ now < Expiration item)) as HI.
  { intros v'. unfold Items. rewrite lookup_fmap, fmap_Some. split.
    - intros (item & [Hk Hp]%map_lookup_filter_Some & ->). by exists item.
    - intros (item & Hk & <- & Hp). exists item. split; [|done].
      by apply map_lookup_filter_Some. }
  split_and!; [done|apply HI| |].
  - rewrite HI, HG. intros (item & Hk & Hv & Hor). exists item.
    split_and!; [done..|]. lia.
  - rewrite HG. split.
    + intros [(item & Hk & Hv & Hor) Hnone]. exists item.
      split_and!; [done..|].
      destruct (decide (Expiration item = 0 ∨ now < Expiration item))
        as [Hd|Hd]; [|lia].
      assert (Items now c !! key = Some v) as Hsome
        by (apply HI; by exists item).
      by rewrite Hnone in Hsome.
    + intros (item & Hk & Hv & Hor). split.
      * exists item. split_and!; [done..|]. lia.
      * apply eq_None_not_Some. intros [v' Hit].
        apply HI in Hit as (item' & Hk' & _ & Hor').
        rewrite Hk in Hk'. simplify_eq. lia.
Qed.

(** [Delete] and [Clear] remove without failing: deleting an absent key
    leaves the entries alone, deleting twice is deleting once, the other
    entries stay, a [Get] after either is a miss, and neither resets the
    hit, miss and eviction counters. *)
Theorem Delete_and_Clear_remove_quietly c key now :
  (items c !! key = None → items (Delete key c) = items c)
  ∧ Delete key (Delete key c) = Delete key c
  ∧ (∀ k, k ≠ key → items (Delete key c) !! k = items c !! k)
  ∧ (Get key now (Delete key c)).1 = None
  ∧ (∀ k, (Get k now (Clear c)).1 = None)
  ∧ Clear (Clear c) = Clear c
  ∧ ItemCount (Clear c) = 0
  ∧ (Hits (stats (Delete key c)), Misses (stats (Delete key c)),
     Evictions (stats (Delete key c)))
    = (Hits (stats c), Misses (stats c), Evictions (stats c))
  ∧ (Hits (stats (Clear c)), Misses (stats (Clear c)),
     Evictions (stats (Clear c)))
    = (Hits (stats c), Misses (stats c), Evictions (stats c)).
Proof.
  split_and!; try done.
  - intros Hk. unfold Delete. cbn [items set_stats set_items].
    by apply delete_id.
  - unfold Delete. cbn [items stats set_stats set_items set_Size].
    by rewrite delete_delete_eq.
  - intros k Hne. unfold Delete. cbn [items set_stats set_items].
    by rewrite lookup_delete_ne.
  - rewrite Get_fst. unfold Delete. cbn [items set_stats set_items].
    by rewrite lookup_delete_eq.
Qed.

Lemma Cache_ext (c1 c2 : Cache V) :
  items c1 = items c2 →
  defaultExpiration c1 = defaultExpiration c2 →
  cleanupInterval c1 = cleanupInterval c2 →
  maxItems c1 = maxItems c2 →
  Hits (stats c1) = Hits (stats c2) →
  Misses (stats c1) = Misses (stats c2) →
  Evictions (stats c1) = Evictions (stats c2) →
  Size (stats c1) = Size (stats c2) →
  c1 = c2.
Proof.
  destruct c1 as [i1 d1 ci1 m1 [h1 ms1 e1 s1]],
           c2 as [i2 d2 ci2 m2 [h2 ms2 e2 s2]].
  cbn. by intros -> -> -> -> -> -> -> ->.
Qed.

Lemma DeleteExpired_frame order now c :
  let c' := DeleteExpired order now c in
  defaultExpiration c' = defaultExpiration c
  ∧ cleanupInterval c' = cleanupInterval c
  ∧ maxItems c' = maxItems c
  ∧ Hits (stats c') = Hits (stats c)
  ∧ Misses (stats c') = Misses (stats c)
  ∧ Size (stats c') = wrap_uint64 (len (items c'))
  ∧ len (items c') ≤ len (items c).
Proof.
  unfold DeleteExpired. cbn [items stats set_stats set_Size Hits Misses Size
    defaultExpiration cleanupInterval maxItems].
  destruct (sweep_frame now order c) as (-> & -> & -> & -> & -> & _ & Hle & _).
  done.
Qed.

Lemma DeleteExpired_evictions order now c :
  0 ≤ Evictions (stats c) < 2 ^ 64 →
  let c' := DeleteExpired order now c in
  0 ≤ Evictions (stats c') < 2 ^ 64
  ∧ Evictions (stats c')
    = wrap_uint64 (Evictions (stats c) + (len (items c) - len (items c'))).
Proof.
  intros Hev. unfold DeleteExpired.
  cbn [items stats set_stats set_Size Evictions]. split.
  - by apply sweep_evictions_range.
  - by apply sweep_evictions.
Qed.

Lemma cleanup_ticks_app (t1 t2 : list (list string * Z)) c :
  cleanup_ticks (t1 ++ t2) c = cleanup_ticks t2 (cleanup_ticks t1 c).
Proof. unfold cleanup_ticks. by rewrite foldl_app. Qed.

Lemma ticks_ok_app (t1 t2 : list (list string * Z)) c :
  ticks_ok (t1 ++ t2) c ↔ ticks_ok t1 c ∧ ticks_ok t2 (cleanup_ticks t1 c).
Proof.
  revert c. induction t1 as [|tick t1 IH]; intros c; cbn.
  - tauto.
  - rewrite IH. unfold cleanup_ticks. cbn [foldl]. tauto.
Qed.

Lemma cleanup_ticks_frame (ticks : list (list string * Z)) c :
  let c' := cleanup_ticks ticks c in
  defaultExpiration c' = defaultExpiration c
  ∧ cleanupInterval c' = cleanupInterval c
  ∧ maxItems c' = maxItems c
  ∧ Hits (stats c') = Hits (stats c)
  ∧ Misses (stats c') = Misses (stats c)
  ∧ len (items c') ≤ len (items c).
Proof.
  revert c. induction ticks as [|[order now] ticks IH]; intros c.
  - cbn. split_and!; done || lia.
  - cbn zeta. unfold cleanup_ticks. cbn [foldl fst snd].
    fold (cleanup_ticks ticks (DeleteExpired order now c)).
    destruct (IH (DeleteExpired order now c)) as (-> & -> & -> & -> & -> & Hle).
    destruct (DeleteExpired_frame order now c)
      as (-> & -> & -> & -> & -> & _ & Hle1).
    split_and!; done || lia.
Qed.

Lemma cleanup_ticks_evictions (ticks : list (list string * Z)) c :
  0 ≤ Evictions (stats c) < 2 ^ 64 →
  let c' := cleanup_ticks ticks c in
  0 ≤ Evictions (stats c') < 2 ^ 64
  ∧ Evictions (stats c')
    = wrap_uint64 (Evictions (stats c) + (len (items c) - len (items c'))).
Proof.
  revert c. induction ticks as [|[order now] ticks IH]; intros c Hev.
  - cbn. split; [done|]. rewrite Z.sub_diag, Z.add_0_r.
    by rewrite wrap_uint64_id.
  - cbn zeta. unfold cleanup_ticks. cbn [foldl fst snd].
    fold (cleanup_ticks ticks (DeleteExpired order now c)).
    destruct (DeleteExpired_evictions order now c Hev) as [Hev1 Heq1].
    destruct (IH (DeleteExpired order now c) Hev1) as [Hev2 Heq2].
    split; [done|]. rewrite Heq2, Heq1. unfold wrap_uint64.
    rewrite Z.add_mod_idemp_l by done. f_equal. lia.
Qed.

Lemma cleanup_ticks_swept (ticks : list (list string * Z)) c T k :
  ticks_ok ticks c →
  (∀ tick, tick ∈ ticks → tick.2 ≤ T) →
  swept T (items (cleanup_ticks ticks c) !! k) = swept T (items c !! k).
Proof.
  revert c. induction ticks as [|[order now] ticks IH]; intros c Hok Hle.
  - done.
  - destruct Hok as [Hrange Hok]. unfold cleanup_ticks. cbn [foldl fst snd].
    fold (cleanup_ticks ticks (DeleteExpired order now c)).
    rewrite IH; [|done|].
    + rewrite DeleteExpired_lookup by done. apply swept_later.
      apply (Hle (order, now)). apply elem_of_cons. by left.
    + intros tick Hin. apply Hle. apply elem_of_cons. by right.
Qed.

(** The cleanup loop over several ticks amounts to one sweep at the time
    of the last tick, when no earlier tick read a later time: the same
    entries are left, the eviction counter has risen by the same number,
    and the cache is the same in every field. *)
Theorem cleanup_ticks_amount_to_the_last_sweep
    (ticks : list (list string * Z)) order T order0 c :
  ticks_ok (ticks ++ [(order, T)]) c →
  (∀ tick, tick ∈ ticks → tick.2 ≤ T) →
  range_of (items c) order0 →
  0 ≤ Evictions (stats c) < 2 ^ 64 →
  cleanup_ticks (ticks ++ [(order, T)]) c = DeleteExpired order0 T c.
Proof.
  intros Hok Hle Hrange0 Hev.
  apply ticks_ok_app in Hok as [Hok [Hrange _]]. cbn [fst] in Hrange.
  assert (items (cleanup_ticks (ticks ++ [(order, T)]) c)
          = items (DeleteExpired order0 T c)) as Hitems.
  { apply map_eq. intros k. rewrite cleanup_ticks_app.
    unfold cleanup_ticks at 1. cbn [foldl fst snd].
    rewrite !DeleteExpired_lookup by done.
    by apply cleanup_ticks_swept. }
  destruct (cleanup_ticks_frame (ticks ++ [(order, T)]) c)
    as (Hd & Hc & Hm & Hh & Hmi & _).
  destruct (DeleteExpired_frame order0 T c)
    as (Hd' & Hc' & Hm' & Hh' & Hmi' & Hs' & _).
  destruct (cleanup_ticks_evictions (ticks ++ [(order, T)]) c Hev)
    as [_ Hev1].
  destruct (DeleteExpired_evictions order0 T c Hev) as [_ Hev2].
  apply Cache_ext; try congruence.
  rewrite Hs', <- Hitems. rewrite cleanup_ticks_app.
  unfold cleanup_ticks at 1. cbn [foldl fst snd].
  by destruct (DeleteExpired_frame order T (cleanup_ticks ticks c))
    as (_ & _ & _ & _ & _ & -> & _).
Qed.

(** [startCleanup] cannot run on a cleanup interval that is not positive:
    the ticker it creates panics.  On a positive interval it only ever
    sweeps, so it keeps every entry that has no expiration or whose
    stamp no tick has passed. *)
Theorem startCleanup_panics_or_sweeps (ticks : list (list string * Z)) c :
  (cleanupInterval c ≤ 0 → startCleanup ticks c = None)
  ∧ (0 < cleanupInterval c →
     ∃ c', startCleanup ticks c = Some c'
           ∧ (∀ k v, items c' !! k = Some v → items c !! k = Some v)
           ∧ (∀ k v, items c !! k = Some v →
                (∀ tick, tick ∈ ticks → expired tick.2 v = false) →
                items c' !! k = Some v)).
Proof.
  unfold startCleanup. split.
  - intros Hle. by destruct (Z.leb_spec (cleanupInterval c) 0); [|lia].
  - intros Hlt. destruct (Z.leb_spec (cleanupInterval c) 0); [lia|].
    eexists. split; [done|]. clear. split.
    + revert c. induction ticks as [|[order now] ticks IH]; intros c k v.
      * done.
      * unfold cleanup_ticks. cbn [foldl fst snd].
        fold (cleanup_ticks ticks (DeleteExpired order now c)).
        intros Hk%IH. revert Hk. unfold DeleteExpired.
        cbn [items set_stats]. rewrite sweep_lookup.
        case_decide; [|done].
        destruct (items c !! k) as [v'|]; [|done]. cbn [swept].
        by destruct (expired now v').
    + revert c. induction ticks as [|[order now] ticks IH]; intros c k v Hk Hl.
      * done.
      * unfold cleanup_ticks. cbn [foldl fst snd].
        fold (cleanup_ticks ticks (DeleteExpired order now c)).
        apply IH.
        -- apply DeleteExpired_keeps_unexpired; [done|].
           apply (Hl (order, now)). apply elem_of_cons. by left.
        -- intros tick Hin. apply Hl. apply elem_of_cons. by right.
Qed.

End CacheMore.

Section CacheMoreExamples.

Import TTLCache CacheRun.

(** A cache with one entry that has expired by time 20 and one that has
    not. *)
Lemma DeleteExpired_twice_is_once_witness :
  let c : Cache nat :=
    Set_ [] "b" 2%nat 50 0 (Set_ [] "a" 1%nat 10 0 NewCache) in
  let order := (map_to_list (items c)).*1 in
  range_of (items c) order ∧ 15 ≤ 20
  ∧ DeleteExpired ["b"] 15 (DeleteExpired order 20 c)
    = DeleteExpired order 20 c
  ∧ Evictions (stats (DeleteExpired ["b"] 15 (DeleteExpired order 20 c))) = 1.
Proof.
  intros c order.
  assert (range_of (items c) order) as Hrange by apply range_of_map_to_list.
  assert (15 ≤ 20) as Hle by lia.
  pose proof (DeleteExpired_twice_is_once c order 20 ["b"] 15 Hrange Hle)
    as Heq.
  split_and!; [done|done|exact Heq|]. rewrite Heq. reflexivity.
Defined.

Lemma Get_after_DeleteExpired_hits_witness :
  let c : Cache nat :=
    Set_ [] "b" 2%nat 50 0 (Set_ [] "a" 1%nat 10 0 NewCache) in
  let order := (map_to_list (items c)).*1 in
  range_of (items c) order
  ∧ items (DeleteExpired order 20 c) !! "b" = Some (mkCacheItem 2%nat 50)
  ∧ 20 ≤ 20
  ∧ (Get "b" 20 (DeleteExpired order 20 c)).1 = Some 2%nat.
Proof.
  intros c order.
  assert (range_of (items c) order) as Hrange by apply range_of_map_to_list.
  assert (items (DeleteExpired order 20 c) !! "b"
          = Some (mkCacheItem 2%nat 50)) as Hk by reflexivity.
  assert (20 ≤ 20) as Hle by lia.
  pose proof (Get_after_DeleteExpired_hits c order 20 "b"
                (mkCacheItem 2%nat 50) 20 Hrange Hk Hle) as Hget.
  split_and!; [done..|]. cbv zeta in Hget. by rewrite Hget.
Defined.

Lemma Size_stays_in_sync_witness :
  let ops : list (CacheOp nat) :=
    [OpSet [] "a" 1%nat 10 0; OpGet "a" 5; OpSet ["a"] "b" 2%nat 10 0;
     OpDelete "a"; OpGetWithExpiration "b" 5] in
  Size_in_sync (NewCache (V := nat))
  ∧ Size (stats (apply_ops ops NewCache)) = 1
  ∧ ItemCount (apply_ops ops NewCache) = 1.
Proof.
  intros ops.
  assert (Size_in_sync (NewCache (V := nat))) as H0 by reflexivity.
  pose proof (Size_stays_in_sync ops NewCache H0) as Hsync.
  split_and!; [done| |reflexivity].
  rewrite Hsync. reflexivity.
Defined.

(** A cache limited to one item: the second [Set] evicts the first
    entry. *)
Lemma cache_stays_within_maxItems_witness :
  let c : Cache nat := WithMaxItems 1 NewCache in
  let ops : list (CacheOp nat) :=
    [OpSet [] "a" 1%nat 10 0; OpSet ["a"] "b" 2%nat 10 0] in
  bounded c ∧ ops_ok ops c
  ∧ ItemCount (apply_ops ops c) ≤ 1
  ∧ items (apply_ops ops c) !! "a" = None.
Proof.
  intros c ops.
  assert (bounded c) as Hb.
  { split_and!; [done|done|done|]. intros k v.
    change (items c) with (∅ : gmap string (CacheItem nat)).
    by rewrite lookup_empty. }
  assert (ops_ok ops c) as Hok.
  { subst ops. cbn [ops_ok op_ok apply_op].
    split_and!; try done; try reflexivity.
    - apply range_of_empty.
    - apply (range_of_insert ∅ [] "a" (mkCacheItem 1%nat 10));
        [apply range_of_empty|done]. }
  destruct (cache_stays_within_maxItems ops c Hb Hok) as [_ Hle].
  split_and!; [done|done|exact Hle|reflexivity].
Defined.

Lemma no_expiry_entry_is_always_served_witness :
  -1 < 0
  ∧ (Get "k" 1000
       (cleanup_ticks [(["k"], 100); (["k"], 500)]
          (Set_ [] "k" 7%nat (-1) 0 NewCache))).1
    = Some 7%nat.
Proof.
  assert (-1 < 0) as Hd by lia.
  split; [done|].
  exact (no_expiry_entry_is_always_served (V := nat) NewCache [] "k" 7%nat
           (-1) 0 [(["k"], 100); (["k"], 500)] 1000 Hd).
Defined.

(** Three ticks at times 5, 20 and 20 against one sweep at time 20. *)
Lemma cleanup_ticks_amount_to_the_last_sweep_witness :
  let c : Cache nat :=
    Set_ [] "b" 2%nat 50 0 (Set_ [] "a" 1%nat 10 0 NewCache) in
  let order0 := (map_to_list (items c)).*1 in
  let ticks := [(order0, 5); (order0, 20)] in
  ticks_ok (ticks ++ [(["b"], 20)]) c
  ∧ range_of (items c) order0
  ∧ cleanup_ticks (ticks ++ [(["b"], 20)]) c = DeleteExpired order0 20 c
  ∧ items (cleanup_ticks (ticks ++ [(["b"], 20)]) c) !! "a" = None.
Proof.
  intros c order0 ticks.
  assert (range_of (items c) order0) as Hrange
    by apply range_of_map_to_list.
  assert (range_of (<["b" := mkCacheItem 2%nat 50]> ∅) ["b"]) as Hb.
  { apply (range_of_insert ∅ [] "b" (mkCacheItem 2%nat 50));
      [apply range_of_empty|done]. }
  assert (ticks_ok (ticks ++ [(["b"], 20)]) c) as Hok.
  { subst ticks. cbn [app ticks_ok fst snd].
    split_and!; [exact Hrange|exact Hrange|exact Hb|done]. }
  assert (∀ tick, tick ∈ ticks → tick.2 ≤ 20) as Hle.
  { intros tick [->|[->|[]%elem_of_nil]%elem_of_cons]%elem_of_cons;
      cbn; lia. }
  assert (0 ≤ Evictions (stats c) < 2 ^ 64) as Hev.
  { replace (Evictions (stats c)) with 0 by reflexivity. lia. }
  pose proof (cleanup_ticks_amount_to_the_last_sweep ticks ["b"] 20 order0 c
                Hok Hle Hrange Hev) as Heq.
  split_and!; [done|done|exact Heq|]. rewrite Heq. reflexivity.
Defined.

End CacheMoreExamples.

(** * Properties of the registry consumer and its batching loop *)

Section BatchingFacts.

Import Events Batching.

Context {D : Type}.
Variable SendEvents : list (Event D) → option error.
Implicit Types (p : Processor D) (rec : RegistryEventConsumer D).
Implicit Types (w : Wakeup) (a : Action D) (event : Event D).

Lemma sendBatch_fields (batch : list (Event D)) p :
  let p' := sendBatch SendEvents batch p in
  p_sent p' = p_sent p ++ [batch]
  ∧ p_batch p' = p_batch p
  ∧ rec_events (p_rec p') = rec_events (p_rec p)
  ∧ rec_batchSize (p_rec p') = rec_batchSize (p_rec p).
Proof. unfold sendBatch. by destruct (SendEvents batch). Qed.

Lemma turn_held w p : held (turn SendEvents w p) = held p.
Proof.
  unfold held. destruct w; cbn [turn].
  - destruct (rec_events (p_rec p)) as [|event rest] eqn:Hq.
    + by rewrite Hq.
    + cbn zeta. case_match; cbn [set_batch p_sent p_batch p_rec].
      * match goal with
        | |- context [sendBatch SendEvents ?b ?q] =>
            destruct (sendBatch_fields b q) as (-> & _ & -> & _)
        end.
        cbn. rewrite concat_app. cbn. by rewrite !app_nil_r, <- !app_assoc.
      * cbn. by rewrite <- !app_assoc.
  - case_match; [|done]. cbn [set_batch p_sent p_batch p_rec].
    destruct (sendBatch_fields (p_batch p) p) as (-> & _ & -> & _).
    rewrite concat_app. cbn. by rewrite !app_nil_r, <- !app_assoc.
Qed.

Lemma act_held a p :
  held (act SendEvents a p).1 = held p ++ (act SendEvents a p).2.
Proof.
  destruct a as [event|w]; cbn [act].
  - unfold Registry_Consume. case_decide; cbn; unfold held; cbn.
    + by rewrite !app_assoc.
    + by rewrite !app_nil_r.
  - cbn [fst snd]. by rewrite turn_held, app_nil_r.
Qed.

(** Batching loses, repeats and reorders nothing.  Through any
    interleaving of [Consume] calls, receives and ticks, the events sent
    to the registry, followed by the batch in the making and by the
    channel, are exactly the events held before followed by the events
    [Consume] accepted, in the order they were accepted.  In particular
    the loop on its own sends the events of the channel in channel
    order. *)
Theorem batching_keeps_every_accepted_event_in_order
    (acts : list (Action D)) p :
  held (run SendEvents acts p).1 = held p ++ (run SendEvents acts p).2
  ∧ (∀ (wakeups : list Wakeup) rec p',
       processEvents SendEvents wakeups rec = Some p' →
       held p' = rec_events rec).
Proof.
  split.
  - revert p. induction acts as [|a acts IH]; intros p.
    + cbn. by rewrite app_nil_r.
    + cbn [run]. pose proof (act_held a p) as Ha.
      destruct (act SendEvents a p) as [p1 acc1]. specialize (IH p1).
      destruct (run SendEvents acts p1) as [p2 acc2]. cbn [fst snd] in *.
      by rewrite IH, Ha, app_assoc.
  - intros wakeups rec p'. unfold processEvents.
    destruct (rec_batchSize rec <? 0); [done|]. intros [= <-].
    assert (∀ q, held (foldl (λ p w, turn SendEvents w p) q wakeups)
                 = held q) as Hfold.
    { induction wakeups as [|w ws IH]; intros q; [done|].
      cbn [foldl]. by rewrite IH, turn_held. }
    by rewrite Hfold.
Qed.

Lemma turn_sized w p :
  sized p →
  sized (turn SendEvents w p)
  ∧ rec_batchSize (p_rec (turn SendEvents w p)) = rec_batchSize (p_rec p)
  ∧ ∃ new, p_sent (turn SendEvents w p) = p_sent p ++ new
           ∧ Forall (batch_sized (rec_batchSize (p_rec p))) new.
Proof.
  intros (Hn & Hb & Hq). unfold sized. destruct w; cbn [turn].
  - destruct (rec_events (p_rec p)) as [|event rest] eqn:Hrest.
    + rewrite Hrest. split_and!; try done. exists []. by rewrite app_nil_r.
    + cbn zeta. cbn [length] in Hq. cbn [p_rec rec_batchSize].
      destruct (Z.leb_spec (rec_batchSize (p_rec p))
                  (Z.of_nat (length (p_batch p ++ [event])))) as [Hfull|Hroom];
        cbn [set_batch p_sent p_batch p_rec].
      * match goal with
        | |- context [sendBatch SendEvents ?b ?q] =>
            destruct (sendBatch_fields b q) as (-> & _ & -> & ->)
        end.
        cbn. split_and!; try done; try lia.
        eexists. split; [done|]. constructor; [|done].
        unfold batch_sized. rewrite length_app in *. cbn in *. lia.
      * cbn. rewrite length_app in *. cbn in *.
        split_and!; try done; try lia.
        exists []. by rewrite app_nil_r.
  - destruct (Z.ltb_spec 0 (Z.of_nat (length (p_batch p)))) as [Hpos|Hzero].
    + cbn [set_batch p_sent p_batch p_rec].
      destruct (sendBatch_fields (p_batch p) p) as (-> & _ & -> & ->).
      cbn. split_and!; try done; try lia.
      eexists. split; [done|]. constructor; [|done].
      unfold batch_sized. lia.
    + split_and!; try done. exists []. by rewrite app_nil_r.
Qed.

Lemma act_sized a p :
  sized p →
  sized (act SendEvents a p).1
  ∧ rec_batchSize (p_rec (act SendEvents a p).1) = rec_batchSize (p_rec p)
  ∧ ∃ new, p_sent (act SendEvents a p).1 = p_sent p ++ new
           ∧ Forall (batch_sized (rec_batchSize (p_rec p))) new.
Proof.
  intros Hp. destruct a as [event|w]; cbn [act].
  - destruct Hp as (Hn & Hb & Hq). unfold sized, Registry_Consume.
    case_decide as Hroom; cbn.
    + rewrite length_app. cbn. split_and!; try done; try lia.
      exists []. by rewrite app_nil_r.
    + split_and!; try done. exists []. by rewrite app_nil_r.
  - cbn [fst]. by apply turn_sized.
Qed.

(** The sizes the loop keeps, for a batch size of at least one.  Through
    any interleaving of [Consume] calls, receives and ticks, the batch in
    the making stays below the batch size, the channel stays within its
    capacity, and every batch handed to the registry has at least one
    event and at most [batchSize]: no empty batch is ever sent. *)
Theorem batching_keeps_its_sizes (acts : list (Action D)) p :
  sized p →
  sized (run SendEvents acts p).1
  ∧ ∃ new, p_sent (run SendEvents acts p).1 = p_sent p ++ new
           ∧ Forall (batch_sized (rec_batchSize (p_rec p))) new.
Proof.
  revert p. induction acts as [|a acts IH]; intros p Hp.
  - cbn. split; [done|]. exists []. by rewrite app_nil_r.
  - cbn [run]. destruct (act_sized a p Hp) as (Hp1 & Hn1 & new1 & Hs1 & Hf1).
    destruct (act SendEvents a p) as [p1 acc1]. cbn [fst] in *.
    destruct (IH p1 Hp1) as (Hp2 & new2 & Hs2 & Hf2).
    destruct (run SendEvents acts p1) as [p2 acc2]. cbn [fst] in *.
    split; [done|]. exists (new1 ++ new2). split.
    + by rewrite Hs2, Hs1, app_assoc.
    + apply Forall_app. split; [done|]. by rewrite <- Hn1.
Qed.

End BatchingFacts.

Section BatchingExamples.

Import Events Batching.

Lemma batching_keeps_its_sizes_witness :
  let SendEvents : list (Event string) → option error :=
    λ _, Some (errorString "registry down") in
  let e := λ n : string, mkEvent n "workflow" "WorkflowAdded" "ci" ∅ None in
  let p : Processor string :=
    mkProcessor (mkRegistryEventConsumer [] 2 []) [] [] [] in
  let acts : list (Action string) :=
    [Published (e "1"); Published (e "2"); Published (e "3");
     Woke Receive; Woke Receive; Woke Receive; Woke Tick; Woke Tick] in
  sized p
  ∧ p_sent (run SendEvents acts p).1 = [[e "1"; e "2"]; [e "3"]]
  ∧ p_failed (run SendEvents acts p).1 = [[e "1"; e "2"]; [e "3"]]
  ∧ sized (run SendEvents acts p).1.
Proof.
  intros SendEvents e p acts.
  assert (sized p) as Hp.
  { unfold sized. cbn. unfold events_capacity. lia. }
  destruct (batching_keeps_its_sizes SendEvents acts p Hp) as [Hsized _].
  split_and!; [done|reflexivity|reflexivity|exact Hsized].
Defined.

End BatchingExamples.

(** * Further properties of the event bus *)

Section BusMore.

Import Events.

Context {D S : Type} `{!EventConsumer D S}.
Implicit Types (eb : EventBus D S) (e event : Event D).
Implicit Types (h handler : EventHandler D) (ty : EventType) (id u : string).

Lemma fan_out_ext {S1 S2 : Type} (eb1 : EventBus D S1) (eb2 : EventBus D S2)
    event :
  (∀ ty, handlers_of eb1 ty = handlers_of eb2 ty) →
  fan_out eb1 event = fan_out eb2 event.
Proof. intros Heq. unfold fan_out. by rewrite Heq. Qed.

Lemma Unsubscribe_middleware (sub : EventSubscription D) eb :
  middleware (Unsubscribe sub eb) = middleware eb.
Proof.
  unfold Unsubscribe, unsubscribe.
  by destruct (subscribers eb !! sub_Type sub).
Qed.

(** Subscribing and then unsubscribing gives back the bus as far as
    delivery goes: with an id that was not in use, every type has the
    handlers it had, so a later [Publish] starts exactly the invocations
    it would have started before.  Unsubscribing a second time changes
    nothing. *)
Theorem Subscribe_then_Unsubscribe_restores_delivery eb ty h u event :
  handlers_of eb ty !! (ty +:+ "-" +:+ u) = None →
  let s := (Subscribe ty h u eb).1 in
  let eb1 := (Subscribe ty h u eb).2 in
  (∀ ty', handlers_of (Unsubscribe s eb1) ty' = handlers_of eb ty')
  ∧ (Publish event (Unsubscribe s eb1)).2 = (Publish event eb).2
  ∧ Unsubscribe s (Unsubscribe s eb1) = Unsubscribe s eb1.
Proof.
  intros Hfresh s eb1.
  assert (∀ ty', handlers_of (Unsubscribe s eb1) ty' = handlers_of eb ty')
    as Hsame.
  { intros ty'. apply map_eq. intros id'. unfold Unsubscribe.
    rewrite handlers_of_unsubscribe. subst s eb1.
    rewrite handlers_of_Subscribe. cbn [Subscribe sub_Type sub_ID fst].
    destruct (decide (ty' = ty ∧ id' = ty +:+ "-" +:+ u)) as [[-> ->]|Hn];
      [by rewrite Hfresh|done]. }
  split_and!; [done| |].
  - rewrite !Publish_started, Unsubscribe_middleware.
    change (middleware eb1) with (middleware eb).
    by apply fan_out_ext.
  - unfold Unsubscribe, unsubscribe. subst s.
    cbn [Subscribe sub_Type sub_ID fst].
    destruct (subscribers eb1 !! ty) as [hs|] eqn:Hty; rewrite ?Hty; [|done].
    cbn [subscribers set_subscribers]. rewrite lookup_insert_eq.
    unfold set_subscribers. cbn [subscribers middleware consumer logger].
    by rewrite insert_insert_eq, delete_delete_eq.
Qed.

Lemma AddMiddleware_all (mws : list (EventMiddleware D)) eb :
  let eb' := foldl (λ eb mw, AddMiddleware mw eb) eb mws in
  middleware eb' = middleware eb ++ mws
  ∧ subscribers eb' = subscribers eb
  ∧ consumer eb' = consumer eb
  ∧ logger eb' = logger eb.
Proof.
  revert eb. induction mws as [|mw mws IH]; intros eb; cbn zeta.
  - cbn. by rewrite app_nil_r.
  - cbn [foldl]. destruct (IH (AddMiddleware mw eb)) as (-> & -> & -> & ->).
    cbn. by rewrite <- app_assoc.
Qed.

(** Middleware runs in the order of registration, each stage on the
    output of the one before.  After any number of [AddMiddleware] calls,
    [Publish] hands to the consumer, and to the handlers of the resulting
    type, the event obtained by running the earlier chain and then the
    added stages in the order they were added; the handlers started do
    not depend on what the consumer answered. *)
Theorem Publish_runs_the_middleware_in_registration_order
    (mws : list (EventMiddleware D)) eb event :
  let eb' := foldl (λ eb mw, AddMiddleware mw eb) eb mws in
  let event' :=
    foldl (λ e mw, mw e) (apply_middleware (middleware eb) event) mws in
  (Publish event eb').2 = fan_out eb event'
  ∧ consumer (Publish event eb').1 = (Consume event' (consumer eb)).2
  ∧ (∀ mw, apply_middleware (middleware eb ++ [mw]) event
           = mw (apply_middleware (middleware eb) event)).
Proof.
  intros eb' event'.
  destruct (AddMiddleware_all mws eb) as (Hmw & Hsub & Hcons & _).
  fold eb' in Hmw, Hsub, Hcons.
  assert (apply_middleware (middleware eb') event = event') as Hev.
  { rewrite Hmw. unfold apply_middleware. by rewrite foldl_app. }
  split_and!.
  - rewrite Publish_started, Hev. apply fan_out_ext. intros ty.
    unfold handlers_of. by rewrite Hsub.
  - destruct (Publish_consumer event eb') as [Hc _]. cbv zeta in Hc.
    by rewrite Hc, Hev, Hcons.
  - intros mw. apply apply_middleware_snoc.
Qed.

End BusMore.

Section LocalConsumerFacts.

Import Events.

Context {D : Type}.
Implicit Types (lec : LocalEventConsumer D) (event : Event D).
Implicit Types (eb : EventBus D (LocalEventConsumer D)).

Lemma Local_Consume_fst event lec : (Local_Consume event lec).1 = None.
Proof. unfold Local_Consume. by repeat case_match. Qed.

Lemma run_op_local_logger (op : BusOp D) eb :
  logger (run_op op eb).1 = logger eb.
Proof.
  destruct op as [ty h u|sub|mw|event]; cbn [run_op fst]; try done.
  - unfold Unsubscribe, unsubscribe.
    by destruct (subscribers eb !! sub_Type sub).
  - destruct (Publish_consumer event eb) as [_ ->].
    unfold Consume, LocalEventConsumer_Consumer.
    by rewrite Local_Consume_fst, app_nil_r.
Qed.

(** The local consumer never fails, whatever the store does: [Consume]
    returns no error, it writes one info line per event, it stores the
    event under [events:<type>:<id>] exactly when the type is nodeprop,
    workflow or secret and the store accepts the write, and a failed
    write only adds an error line to the consumer's own log.  So a bus
    with the local consumer never logs a consume failure, over any
    sequence of calls. *)
Theorem local_consumer_never_fails lec event :
  let key := "events:" +:+ Type_ event +:+ ":" +:+ ID event in
  (Consume event lec).1 = None
  ∧ lec_store (Consume event lec).2
    = (if shouldStore event
       then match lec_store_Set lec key with
            | None => <[key := event]> (lec_store lec)
            | Some _ => lec_store lec
            end
       else lec_store lec)
  ∧ (∃ extra, lec_logger (Consume event lec).2
              = lec_logger lec ++
                  mkLogEntry "info"
                    [("event_type", LogString (Type_ event));
                     ("event_name", LogString (Name event));
                     ("timestamp", LogTime (Timestamp event))]
                    "Event received" :: extra
              ∧ (extra = [] ↔ ¬ (shouldStore event = true
                                 ∧ is_Some (lec_store_Set lec key))))
  ∧ (∀ (ops : list (BusOp D)) eb, logger (run_ops ops eb).1 = logger eb).
Proof.
  intros key. unfold Consume, LocalEventConsumer_Consumer, Local_Consume.
  fold key. split_and!.
  - by repeat case_match.
  - by repeat case_match.
  - destruct (shouldStore event); [destruct (lec_store_Set lec key) as [err|]|];
      cbn; eexists; (split; [by rewrite <- ?app_assoc|]).
    + split; [done|]. intros Hn. exfalso. apply Hn. split; [done|by eexists].
    + split; [|done]. intros _ [_ [? ?]]. done.
    + split; [|done]. by intros _ [? _].
  - intros ops. induction ops as [|op ops IH]; intros eb; [done|].
    cbn [run_ops]. pose proof (run_op_local_logger op eb) as Hop.
    destruct (run_op op eb) as [eb1 started1]. specialize (IH eb1).
    destruct (run_ops ops eb1) as [eb2 started2]. cbn [fst] in *.
    by rewrite IH.
Qed.

End LocalConsumerFacts.

(** * Properties of the channel event bus *)

Section ChannelBusFacts.

Import ChannelBus.

Implicit Types (eb : EventBus) (ch : string * nat) (event e : Event.t).
Implicit Types (ty : string) (ops : list BusOp).

Lemma channels_Subscribe ty eb ty' :
  channels (Subscribe ty eb).2 ty'
  = if decide (ty' = ty) then channels eb ty ++ [[]] else channels eb ty'.
Proof.
  unfold Subscribe, channels at 1. cbn [snd subscribers].
  case_decide as Heq.
  - subst. by rewrite lookup_insert_eq.
  - by rewrite lookup_insert_ne.
Qed.

Lemma channels_Publish event eb ty' :
  channels (Publish event eb) ty'
  = if decide (ty' = Event.Type_ event) then send event <$> channels eb ty'
    else channels eb ty'.
Proof.
  unfold Publish, channels.
  destruct (subscribers eb !! Event.Type_ event) as [chans|] eqn:Hty.
  - cbn [subscribers]. case_decide as Heq.
    + subst. by rewrite lookup_insert_eq, Hty.
    + by rewrite lookup_insert_ne.
  - case_decide as Heq; [|done]. subst. by rewrite Hty.
Qed.

Lemma channels_receive ch eb ty' :
  channels (receive ch eb).2 ty'
  = match buffer eb ch with
    | [] => channels eb ty'
    | _ :: rest =>
        if decide (ty' = ch.1) then <[ch.2 := rest]> (channels eb ch.1)
        else channels eb ty'
    end.
Proof.
  unfold receive. destruct (buffer eb ch) as [|event rest]; [done|].
  unfold channels at 1. cbn [snd subscribers]. case_decide as Heq.
  - subst. by rewrite lookup_insert_eq.
  - by rewrite lookup_insert_ne.
Qed.

Lemma run_op_live (op : BusOp) eb ch : live eb ch → live (run_op op eb).1 ch.
Proof.
  unfold live. intros Hlive. destruct op as [ty|event|ch']; cbn [run_op].
  - cbn [fst]. rewrite channels_Subscribe. case_decide as Heq; [|done].
    rewrite Heq in Hlive. rewrite length_app. lia.
  - cbn [fst]. rewrite channels_Publish. case_decide; [|done].
    by rewrite length_fmap.
  - pose proof (channels_receive ch' eb ch.1) as Hc.
    destruct (receive ch' eb) as [[event|] eb1]; cbn [fst snd] in *;
      rewrite Hc; destruct (buffer eb ch'); try done;
      case_decide as Heq; try done; rewrite length_insert;
      by rewrite <- Heq.
Qed.

Lemma buffer_run_op (op : BusOp) eb ch :
  live eb ch →
  buffer (run_op op eb).1 ch
  = match op with
    | OpSubscribe _ => buffer eb ch
    | OpPublish event =>
        if decide (Event.Type_ event = ch.1) then send event (buffer eb ch)
        else buffer eb ch
    | OpReceive ch' =>
        if decide (ch' = ch) then tail (buffer eb ch) else buffer eb ch
    end
  ∧ received ch (run_op op eb).2
    = match op with
      | OpReceive ch' =>
          if decide (ch' = ch) then take 1 (buffer eb ch) else []
      | _ => []
      end.
Proof.
  unfold live. intros Hlive.
  destruct (lookup_lt_is_Some_2 _ _ Hlive) as [b Hb].
  assert (buffer eb ch = b) as Hbuf by (unfold buffer; by rewrite Hb).
  destruct op as [ty|event|ch']; cbn [run_op].
  - split; [|done]. cbn [fst]. unfold buffer at 1.
    rewrite channels_Subscribe. case_decide as Heq; [|done].
    rewrite <- Heq, lookup_app_l by done. by rewrite Hb.
  - split; [|done]. cbn [fst]. unfold buffer at 1.
    rewrite channels_Publish. case_decide as Heq.
    + rewrite decide_True by done. by rewrite list_lookup_fmap, Hb, Hbuf.
    + rewrite decide_False by done. by rewrite Hb.
  - pose proof (channels_receive ch' eb ch.1) as Hc.
    unfold buffer at 1. unfold receive in *.
    destruct (decide (ch' = ch)) as [->|Hne].
    + rewrite Hbuf in *. destruct b as [|event rest]; cbn [fst snd] in *.
      * split; [|done]. by rewrite Hb.
      * rewrite Hc, decide_True by done. split.
        -- by rewrite list_lookup_insert_eq.
        -- unfold received. rewrite filter_cons_True by done. done.
    + destruct (buffer eb ch') as [|event rest]; cbn [fst snd] in *.
      * split; [|done]. by rewrite Hb.
      * rewrite Hc. split.
        -- case_decide as Heq.
           ++ rewrite <- Heq, list_lookup_insert_ne; [by rewrite Hb|].
              intros Hi. apply Hne. destruct ch, ch'. cbn in *. congruence.
           ++ by rewrite Hb.
        -- unfold received. by rewrite filter_cons_False.
Qed.

Lemma send_length event (b : list Event.t) :
  (length b ≤ channel_capacity)%nat →
  (length (send event b) ≤ channel_capacity)%nat.
Proof.
  unfold send. case_decide; [|done]. rewrite length_app. cbn. lia.
Qed.

Lemma take_send event (b rest : list Event.t) :
  (length b ≤ channel_capacity)%nat →
  take channel_capacity (send event b ++ rest)
  = take channel_capacity (b ++ event :: rest).
Proof.
  intros Hb. unfold send. case_decide as Hlt.
  - by rewrite <- app_assoc.
  - rewrite !take_app_le by lia. done.
Qed.

Lemma run_ops_cons (op : BusOp) ops eb :
  run_ops (op :: ops) eb
  = ((run_ops ops (run_op op eb).1).1,
     (run_op op eb).2 ++ (run_ops ops (run_op op eb).1).2).
Proof.
  cbn [run_ops]. destruct (run_op op eb) as [eb1 got1]. cbn [fst snd].
  by destruct (run_ops ops eb1) as [eb2 got2].
Qed.

Lemma published_cons (op : BusOp) ops :
  published (op :: ops)
  = match op with
    | OpPublish event => event :: published ops
    | _ => published ops
    end.
Proof. by destruct op. Qed.

Lemma received_app ch (got1 got2 : list ((string * nat) * Event.t)) :
  received ch (got1 ++ got2) = received ch got1 ++ received ch got2.
Proof. unfold received. by rewrite filter_app, fmap_app. Qed.

Lemma undrained_buffer ops eb ch :
  live eb ch →
  (length (buffer eb ch) ≤ channel_capacity)%nat →
  (∀ op, op ∈ ops → op ≠ OpReceive ch) →
  buffer (run_ops ops eb).1 ch
  = take channel_capacity (buffer eb ch ++ of_type ch.1 (published ops)).
Proof.
  revert eb. induction ops as [|op ops IH]; intros eb Hlive Hlen Hnr.
  - cbn. rewrite app_nil_r. by rewrite take_ge.
  - rewrite run_ops_cons. cbn [fst].
    destruct (buffer_run_op op eb ch Hlive) as [Hbuf _].
    assert (∀ op', op' ∈ ops → op' ≠ OpReceive ch) as Hnr'.
    { intros op' Hin. apply Hnr. apply elem_of_cons. by right. }
    assert (op ≠ OpReceive ch) as Hop.
    { apply Hnr. apply elem_of_cons. by left. }
    rewrite IH; [|by apply run_op_live| |done]; rewrite Hbuf.
    + rewrite published_cons. destruct op as [ty|event|ch'].
      * done.
      * unfold of_type. case_decide as Heq.
        -- rewrite filter_cons_True by done. by apply take_send.
        -- by rewrite filter_cons_False.
      * rewrite decide_False; [done|]. by intros ->.
    + destruct op as [ty|event|ch']; try done.
      * case_decide; [by apply send_length|done].
      * rewrite decide_False; [done|]. by intros ->.
Qed.

(** A subscriber that does not read gets the first 100 events of its
    type and loses every later one.  Whatever else is subscribed,
    published or read on the bus, the channel returned by [Subscribe]
    holds exactly the first [channel_capacity] events of its type
    published since, in publication order. *)
Theorem undrained_subscriber_keeps_the_first_events ty eb ops :
  let ch := (Subscribe ty eb).1 in
  let eb1 := (Subscribe ty eb).2 in
  (∀ op, op ∈ ops → op ≠ OpReceive ch) →
  buffer (run_ops ops eb1).1 ch
  = take channel_capacity (of_type ty (published ops)).
Proof.
  intros ch eb1 Hnr.
  assert (live eb1 ch) as Hlive.
  { unfold live. subst ch eb1.
    change ((Subscribe ty eb).1) with (ty, length (channels eb ty)).
    cbn [fst snd]. rewrite channels_Subscribe, decide_True by done.
    rewrite length_app. cbn. lia. }
  assert (buffer eb1 ch = []) as Hempty.
  { unfold buffer. subst ch eb1.
    change ((Subscribe ty eb).1) with (ty, length (channels eb ty)).
    cbn [fst snd]. rewrite channels_Subscribe, decide_True by done.
    by rewrite lookup_app_r, Nat.sub_diag. }
  rewrite (undrained_buffer ops eb1 ch Hlive); [|rewrite Hempty; cbn; lia|done].
  by rewrite Hempty.
Qed.

(** Delivery keeps the order and repeats nothing.  What a subscriber has
    read from its channel, followed by what the channel still holds, is a
    sublist of what the channel held before followed by the events of its
    type published since: events may be dropped, never duplicated or
    reordered.  The channel never holds more than its capacity. *)
Theorem channel_delivery_is_an_ordered_sublist ops eb ch :
  live eb ch →
  (length (buffer eb ch) ≤ channel_capacity)%nat →
  sublist
    (received ch (run_ops ops eb).2 ++ buffer (run_ops ops eb).1 ch)
    (buffer eb ch ++ of_type ch.1 (published ops))
  ∧ (length (buffer (run_ops ops eb).1 ch) ≤ channel_capacity)%nat.
Proof.
  revert eb. induction ops as [|op ops IH]; intros eb Hlive Hlen.
  - cbn. by rewrite app_nil_r.
  - rewrite run_ops_cons. cbn [fst snd].
    destruct (buffer_run_op op eb ch Hlive) as [Hbuf Hgot].
    assert (length (buffer (run_op op eb).1 ch) ≤ channel_capacity)%nat
      as Hlen1.
    { rewrite Hbuf. destruct op as [ty|event|ch']; [done| |].
      - case_decide; [by apply send_length|done].
      - case_decide; [|done]. destruct (buffer eb ch); cbn in *; lia. }
    destruct (IH (run_op op eb).1 (run_op_live op eb ch Hlive) Hlen1)
      as [Hsub Hlen2].
    split; [|done].
    rewrite received_app, Hgot.
    rewrite Hbuf in Hsub. rewrite <- app_assoc, published_cons.
    destruct op as [ty|event|ch'].
    + done.
    + cbn [app]. unfold of_type in *. case_decide as Heq.
      * rewrite filter_cons_True by done.
        etrans; [exact Hsub|]. unfold send. case_decide.
        -- by rewrite <- app_assoc.
        -- apply sublist_app; [done|]. by apply sublist_cons.
      * by rewrite filter_cons_False.
    + case_decide as Heq; [|done]. subst ch'.
      destruct (buffer eb ch) as [|event rest]; [done|].
      cbn. cbn in Hsub. by apply sublist_skip.
Qed.

End ChannelBusFacts.


Section ChannelBusExamples.

Import ChannelBus.

(** A bus on which an "info" subscriber hears nothing of what was
    published before it subscribed, nor of other types. *)
Lemma undrained_subscriber_keeps_the_first_events_witness :
  let e := λ m : string, Event.mk EventTypeInfo m in
  let eb := Publish (e "early") NewEventBus in
  let ch := (Subscribe EventTypeInfo eb).1 in
  let ops :=
    [OpPublish (e "a"); OpSubscribe EventTypeInfo;
     OpPublish (Event.mk EventTypeError "x"); OpPublish (e "b");
     OpReceive (EventTypeInfo, 1%nat)] in
  (∀ op, op ∈ ops → op ≠ OpReceive ch)
  ∧ buffer (run_ops ops (Subscribe EventTypeInfo eb).2).1 ch = [e "a"; e "b"].
Proof.
  intros e eb ch ops.
  assert (∀ op, op ∈ ops → op ≠ OpReceive ch) as Hnr.
  { intros op Hin. subst ops.
    repeat (apply elem_of_cons in Hin as [->|Hin]); try discriminate.
    by apply elem_of_nil in Hin. }
  pose proof (undrained_subscriber_keeps_the_first_events
                EventTypeInfo eb ops Hnr) as Hbuf.
  split; [done|]. etrans; [exact Hbuf|reflexivity].
Defined.

(** A reader that takes one event between two publications. *)
Lemma channel_delivery_is_an_ordered_sublist_witness :
  let e := λ m : string, Event.mk EventTypeInfo m in
  let eb := (Subscribe EventTypeInfo NewEventBus).2 in
  let ch := (EventTypeInfo, 0%nat) in
  let ops := [OpPublish (e "a"); OpReceive ch; OpPublish (e "b")] in
  live eb ch
  ∧ (length (buffer eb ch) ≤ channel_capacity)%nat
  ∧ received ch (run_ops ops eb).2 = [e "a"]
  ∧ buffer (run_ops ops eb).1 ch = [e "b"]
  ∧ sublist
      (received ch (run_ops ops eb).2 ++ buffer (run_ops ops eb).1 ch)
      (buffer eb ch ++ of_type ch.1 (published ops)).
Proof.
  intros e eb ch ops.
  assert (live eb ch) as Hlive by (apply Nat.ltb_lt; reflexivity).
  assert (length (buffer eb ch) ≤ channel_capacity)%nat as Hlen
    by (apply Nat.leb_le; reflexivity).
  pose proof (channel_delivery_is_an_ordered_sublist ops eb ch Hlive Hlen)
    as [Hsub _].
  split_and!; [done|done|reflexivity|reflexivity|exact Hsub].
Defined.

End ChannelBusExamples.


Section BusMoreExamples.

Import Events.

(** A bus with one subscriber, on which a second one comes and goes. *)
Lemma Subscribe_then_Unsubscribe_restores_delivery_witness :
  let h1 : EventHandler string := λ _, None in
  let h2 : EventHandler string := λ _, Some (errorString "boom") in
  let eb : EventBus string (RegistryEventConsumer string) :=
    (Subscribe "workflow" h1 "u1"
       (NewEventBus [] (NewRegistryEventConsumer []))).2 in
  let s := (Subscribe "workflow" h2 "u2" eb).1 in
  let eb1 := (Subscribe "workflow" h2 "u2" eb).2 in
  let event := mkEvent "e1" "workflow" "WorkflowAdded" "ci" ∅ (Some 1) in
  handlers_of eb "workflow" !! ("workflow" +:+ "-" +:+ "u2") = None
  ∧ length (Publish event eb1).2 = 2%nat
  ∧ (Publish event (Unsubscribe s eb1)).2 = (Publish event eb).2
  ∧ (Publish event eb).2 = [mkInvocation "workflow-u1" h1 event].
Proof.
  intros h1 h2 eb s eb1 event.
  assert (handlers_of eb "workflow" !! ("workflow" +:+ "-" +:+ "u2") = None)
    as Hfresh by reflexivity.
  destruct (Subscribe_then_Unsubscribe_restores_delivery
              eb "workflow" h2 "u2" event Hfresh) as (_ & Hpub & _).
  split_and!; [done|reflexivity|exact Hpub|reflexivity].
Defined.

End BusMoreExamples.


(** * Properties of the pattern-based manager *)

Section PatternManagerFacts.

Import Manager PatternManager.

Context {C : Type} `{!PatternManager.Cache C}.
Variable Process : NodePropArguments.t → option error.
Variable applyWorkflow :
  NodePropFile.t → NodePropArguments.t → World C → option error * World C.
Variable filepath_Base : string → string.
Variable uuid_New : nat → string.
Variable time_Now : nat → Z.
Variable Format_RFC3339 : Z → string.

(** The failures of the pattern-based [AddWorkflow].  With a cancelled
    context it returns the context's error wrapped as "context error" and
    touches nothing, not even the metrics.  When the repository is not
    cached and the processor fails, it returns that error wrapped as
    "workflow processing failed", having published exactly one event, of
    type "error", whose message carries the error's text; no descriptor is
    generated (uuid and clock are not consulted), nothing is written to
    the cache, and the measurement that was started is stopped. *)
Theorem pattern_AddWorkflow_failures (args : NodePropArguments.t)
    (w : World C) (err : error) :
  AddWorkflow Process applyWorkflow filepath_Base uuid_New time_Now
    Format_RFC3339 (Some err) args w
  = (Some (wrapError "context error" err), w)
  ∧ (Process args = Some err →
     (∀ c, PatternManager.cache w = Some c →
           (cache_Get (NodePropArguments.RepoPath args) c).1 = None) →
     let r :=
       AddWorkflow Process applyWorkflow filepath_Base uuid_New time_Now
         Format_RFC3339 None args w in
     r.1 = Some (wrapError "workflow processing failed" err)
     ∧ Unwrap (wrapError "workflow processing failed" err) = Some err
     ∧ eventBus r.2
       = ChannelBus.Publish
           (ChannelBus.Event.mk ChannelBus.EventTypeError
              ("Workflow processing failed: " +:+ Error err))
           (eventBus w)
     ∧ PatternManager.cache r.2
       = (λ c, (cache_Get (NodePropArguments.RepoPath args) c).2)
           <$> PatternManager.cache w
     ∧ uuid_calls r.2 = uuid_calls w
     ∧ clock_calls r.2 = clock_calls w
     ∧ infos r.2 = infos w
     ∧ metrics r.2
       = (λ calls, calls ++ [MeasureStart "add_workflow";
                             MeasureStop "add_workflow"]) <$> metrics w).
Proof.
  split; [done|]. intros HP Hmiss r. subst r.
  unfold AddWorkflow, process_and_publish, measure, publish, set_cache.
  cbn [PatternManager.cache metrics eventBus infos uuid_calls clock_calls].
  assert (∀ o : option (list MetricCall),
            (λ calls, calls ++ [MeasureStop "add_workflow"])
              <$> ((λ calls, calls ++ [MeasureStart "add_workflow"]) <$> o)
            = (λ calls, calls ++ [MeasureStart "add_workflow";
                                  MeasureStop "add_workflow"]) <$> o) as Hm.
  { intros [calls|]; [|done]. cbn. by rewrite <- app_assoc. }
  destruct (PatternManager.cache w) as [c|] eqn:Hc.
  - specialize (Hmiss c eq_refl).
    destruct (cache_Get (NodePropArguments.RepoPath args) c) as [got c1]
      eqn:Hget.
    cbn [fst] in Hmiss. subst got. rewrite HP.
    cbn [fst snd PatternManager.cache metrics eventBus infos uuid_calls
         clock_calls fmap option_fmap option_map].
    rewrite Hm, Hget. done.
  - rewrite HP.
    cbn [fst snd PatternManager.cache metrics eventBus infos uuid_calls
         clock_calls fmap option_fmap option_map].
    by rewrite Hm.
Qed.

End PatternManagerFacts.

Section PatternManagerRoundTrip.

Import Manager PatternManager.

Variable Process Process' : NodePropArguments.t → option error.
Variable applyWorkflow :
  NodePropFile.t → NodePropArguments.t → World (gmap string NodePropFile.t) →
  option error * World (gmap string NodePropFile.t).
Variable filepath_Base : string → string.
Variable uuid_New : nat → string.
Variable time_Now : nat → Z.
Variable Format_RFC3339 : Z → string.

(** A repository is processed once.  With a cache that keeps what it is
    given, a first successful [AddWorkflow] for a repository path that is
    not cached builds the descriptor (id from uuid, name the base of the
    path, address under github.com/Cdaprod, status "active", the domain of
    the arguments), stores it under the path and publishes one "success"
    event.  Any later [AddWorkflow] for the same path, whatever its other
    arguments and whatever the processor would answer, logs "Using cached
    configuration" and is [applyWorkflow] on that descriptor: the processor
    is not run, no descriptor is generated and nothing is published by
    [AddWorkflow] itself. *)
Theorem pattern_AddWorkflow_processes_a_repository_once
    (args args' : NodePropArguments.t)
    (w : World (gmap string NodePropFile.t))
    (c : gmap string NodePropFile.t) :
  PatternManager.cache w = Some c →
  c !! NodePropArguments.RepoPath args = None →
  Process args = None →
  NodePropArguments.RepoPath args' = NodePropArguments.RepoPath args →
  let r1 :=
    AddWorkflow Process applyWorkflow filepath_Base uuid_New time_Now
      Format_RFC3339 None args w in
  let name := filepath_Base (NodePropArguments.RepoPath args) in
  ∃ nodeProp,
    NodePropFile.ID nodeProp = uuid_New (uuid_calls w)
    ∧ NodePropFile.Name nodeProp = name
    ∧ NodePropFile.Address nodeProp = "https://github.com/Cdaprod/" +:+ name
    ∧ NodePropFile.Status nodeProp = "active"
    ∧ Metadata.LastUpdated (NodePropFile.Metadata nodeProp)
      = Format_RFC3339 (time_Now (clock_calls w))
    ∧ CustomProperties.Domain (NodePropFile.CustomProperties nodeProp)
      = NodePropArguments.Domain args
    ∧ r1.1 = None
    ∧ PatternManager.cache r1.2
      = Some (<[NodePropArguments.RepoPath args := nodeProp]> c)
    ∧ eventBus r1.2
      = ChannelBus.Publish
          (ChannelBus.Event.mk ChannelBus.EventTypeSuccess
             ("Workflow added successfully to "
                +:+ NodePropArguments.RepoPath args))
          (eventBus w)
    ∧ AddWorkflow Process' applyWorkflow filepath_Base uuid_New time_Now
        Format_RFC3339 None args' r1.2
      = let r2 :=
          applyWorkflow nodeProp args'
            (mkWorld (PatternManager.cache r1.2)
               ((λ calls, calls ++ [MeasureStart "add_workflow"])
                  <$> metrics r1.2)
               (eventBus r1.2)
               (infos r1.2 ++ ["Using cached configuration"])
               (uuid_calls r1.2) (clock_calls r1.2)) in
        (r2.1, measure (MeasureStop "add_workflow") r2.2).
Proof.
  intros Hc Hmiss HP Hpath r1 name.
  assert (∃ w1, r1 = (None, w1)
          ∧ PatternManager.cache w1
            = Some (<[NodePropArguments.RepoPath args :=
                        NodePropFile.mk (uuid_New (uuid_calls w)) name
                          ("https://github.com/Cdaprod/" +:+ name) [] "active"
                          (Metadata.mk "" ""
                             (Format_RFC3339 (time_Now (clock_calls w))) []
                             GitHub.zero Docker.zero)
                          (CustomProperties.mk "" false false "" "" "" [] []
                             "" (NodePropArguments.Domain args))]> c)
          ∧ eventBus w1
            = ChannelBus.Publish
                (ChannelBus.Event.mk ChannelBus.EventTypeSuccess
                   ("Workflow added successfully to "
                      +:+ NodePropArguments.RepoPath args))
                (eventBus w)) as (w1 & Hr1 & Hc1 & Hbus).
  { subst r1. unfold AddWorkflow, process_and_publish, generateNodeProp.
    cbn [measure PatternManager.cache]. rewrite Hc.
    cbn [cache_Get MapCache]. rewrite Hmiss, HP.
    cbn [set_cache PatternManager.cache cache_Set MapCache snd].
    eexists. split; [reflexivity|]. split; reflexivity. }
  exists (NodePropFile.mk (uuid_New (uuid_calls w)) name
            ("https://github.com/Cdaprod/" +:+ name) [] "active"
            (Metadata.mk "" ""
               (Format_RFC3339 (time_Now (clock_calls w))) []
               GitHub.zero Docker.zero)
            (CustomProperties.mk "" false false "" "" "" [] []
               "" (NodePropArguments.Domain args))).
  rewrite Hr1. cbn [fst snd].
  split_and!; try done.
  unfold AddWorkflow. rewrite Hpath.
  cbn [PatternManager.cache measure]. rewrite Hc1.
  cbn [cache_Get MapCache]. rewrite lookup_insert_eq.
  by destruct (applyWorkflow _ _ _).
Qed.

End PatternManagerRoundTrip.


Section PatternManagerExamples.

Import Manager PatternManager.

(** Two calls for the same repository with one "success" subscriber: the
    second call finds the descriptor cached, although its processor would
    fail, and the subscriber holds one event. *)
Lemma pattern_AddWorkflow_processes_a_repository_once_witness :
  let Process : NodePropArguments.t → option error := λ _, None in
  let Process' : NodePropArguments.t → option error :=
    λ _, Some (errorString "processor down") in
  let applyWorkflow :=
    λ (_ : NodePropFile.t) (_ : NodePropArguments.t)
      (w : World (gmap string NodePropFile.t)), (@None error, w) in
  let Base : string → string := λ s, s in
  let uuid : nat → string := λ n, "uuid-" +:+ pretty n in
  let now : nat → Z := Z.of_nat in
  let fmt : Z → string := pretty in
  let args := NodePropArguments.mk "nodeprop" "ci.yml" "example.com" "" in
  let args' := NodePropArguments.mk "nodeprop" "release.yml" "" "" in
  let w : World (gmap string NodePropFile.t) :=
    mkWorld (Some ∅) (Some [])
      (ChannelBus.Subscribe ChannelBus.EventTypeSuccess
         ChannelBus.NewEventBus).2 [] 0 0 in
  let r1 := AddWorkflow Process applyWorkflow Base uuid now fmt None args w in
  let r2 :=
    AddWorkflow Process' applyWorkflow Base uuid now fmt None args' r1.2 in
  PatternManager.cache w = Some ∅
  ∧ (∅ : gmap string NodePropFile.t) !! NodePropArguments.RepoPath args = None
  ∧ Process args = None
  ∧ NodePropArguments.RepoPath args' = NodePropArguments.RepoPath args
  ∧ r1.1 = None
  ∧ r2.1 = None
  ∧ infos r2.2 = ["Using cached configuration"]
  ∧ uuid_calls r2.2 = 1%nat
  ∧ ChannelBus.buffer (eventBus r2.2) (ChannelBus.EventTypeSuccess, 0%nat)
    = [ChannelBus.Event.mk ChannelBus.EventTypeSuccess
         "Workflow added successfully to nodeprop"].
Proof.
  intros Process Process' applyWorkflow Base uuid now fmt args args' w r1 r2.
  assert (PatternManager.cache w = Some ∅) as Hc by reflexivity.
  assert ((∅ : gmap string NodePropFile.t)
            !! NodePropArguments.RepoPath args = None) as Hmiss
    by reflexivity.
  assert (Process args = None) as HP by reflexivity.
  assert (NodePropArguments.RepoPath args'
          = NodePropArguments.RepoPath args) as Hpath by reflexivity.
  destruct (pattern_AddWorkflow_processes_a_repository_once
              Process Process' applyWorkflow Base uuid now fmt
              args args' w ∅ Hc Hmiss HP Hpath)
    as (nodeProp & _ & _ & _ & _ & _ & _ & Hr1 & _).
  split_and!; [done|done|done|done|exact Hr1|reflexivity..].
Defined.

End PatternManagerExamples.


(** * More on the manager operations *)

Section ManagerMore.

Import Manager ManagerRun.

Context {C : Type} `{!Cache C}.
Implicit Types (m : NodePropManager) (w : World C) (op : Operation).

Lemma run_outcome m op w :
  match (run m op w).1 with
  | Ok _ =>
      ∃ call e,
        github_calls (run m op w).2 = github_calls w ++ [call]
        ∧ github m (github_calls w) call = None
        ∧ emitted (run m op w).2 = emitted w ++ [e]
        ∧ (Event.Type_ e, Event.Name e) = event_of op
        ∧ Event.Error e = None
        ∧ Event.Timestamp e = None
  | Err _ =>
      emitted (run m op w).2 = emitted w
      ∧ cache (run m op w).2 = cache w
      ∧ store_calls (run m op w).2 = store_calls w
      ∧ warnings (run m op w).2 = warnings w
      ∧ (github_calls (run m op w).2 = github_calls w
         ∨ ∃ call, github_calls (run m op w).2 = github_calls w ++ [call]
                   ∧ github m (github_calls w) call ≠ None)
  end.
Proof.
  destruct op as [args|args|args]; run_M;
    repeat case_match; simplify_eq; cbn in *;
    try (split_and!; try done;
         (by left) || (right; eexists; split; [done|congruence]));
    try (do 2 eexists; split_and!; done).
Qed.

(** One event per success, none per failure.  An operation that returns
    [nil] has made exactly one GitHub call, which the client accepted,
    and has emitted exactly one event, of the type and name of the
    operation, with no error and no timestamp.  An operation that returns
    an error has emitted nothing and has left cache, store and log alone;
    at most it has made the one GitHub call that was refused.  So after
    any sequence of operations the number of events emitted is the number
    of operations that succeeded. *)
Theorem operations_emit_one_event_per_success m (ops : list Operation) w :
  length (emitted (run_all m ops w))
  = (length (emitted w) + successes m ops w)%nat
  ∧ ∀ op,
      match (run m op w).1 with
      | Ok _ =>
          ∃ call e,
            github_calls (run m op w).2 = github_calls w ++ [call]
            ∧ github m (github_calls w) call = None
            ∧ emitted (run m op w).2 = emitted w ++ [e]
            ∧ (Event.Type_ e, Event.Name e) = event_of op
            ∧ Event.Error e = None
            ∧ Event.Timestamp e = None
      | Err _ =>
          emitted (run m op w).2 = emitted w
          ∧ cache (run m op w).2 = cache w
          ∧ store_calls (run m op w).2 = store_calls w
          ∧ warnings (run m op w).2 = warnings w
          ∧ (github_calls (run m op w).2 = github_calls w
             ∨ ∃ call, github_calls (run m op w).2 = github_calls w ++ [call]
                       ∧ github m (github_calls w) call ≠ None)
      end.
Proof.
  split; [|intros op; apply run_outcome].
  revert w. induction ops as [|op ops IH]; intros w.
  - cbn. lia.
  - cbn [run_all successes]. rewrite IH.
    pose proof (run_outcome m op w) as Hop.
    destruct (run m op w).1 as [[]|err]; cbn [succeeded].
    + destruct Hop as (call & e & _ & _ & -> & _). rewrite length_app. cbn. lia.
    + destruct Hop as (-> & _). lia.
Qed.

End ManagerMore.


Section ManagerSuccess.

Import Manager.

Context {C : Type} `{!Cache C}.
Implicit Types (m : NodePropManager) (w : World C).

Lemma GenerateNodeProp_success m args w :
  (GenerateNodeProp m args w).1 = Ok () →
  let f :=
    new_NodePropFile m args (uuid_New m (uuid_calls w))
      (time_Now m (clock_calls w)) in
  cache (GenerateNodeProp m args w).2
  = cache_Set ("nodeprop:" +:+ NodePropArguments.RepoPath args) (PNodeProp f)
      (1 * 3600 * 1000000000) (cache w)
  ∧ emitted (GenerateNodeProp m args w).2
    = emitted w ++ [Event.mk Events.EventTypeNodeProp "NodePropGenerated"
                      (PNodeProp f) None None ∅].
Proof. run_M. repeat case_match; simplify_eq; cbn in *; done. Qed.

Lemma AddWorkflow_success m args w :
  (AddWorkflow m args w).1 = Ok () →
  cache (AddWorkflow m args w).2
  = cache_Delete ("workflows:" +:+ WorkflowArguments.Repository args)
      (cache w).
Proof. run_M. repeat case_match; simplify_eq; cbn in *; done. Qed.

Lemma AddSecret_success m args w :
  (AddSecret m args w).1 = Ok () →
  cache (AddSecret m args w).2
  = cache_Delete ("secrets:" +:+ SecretArguments.Repository args) (cache w).
Proof. run_M. repeat case_match; simplify_eq; cbn in *; done. Qed.

(** [AddSecret] does not depend on the local store.  Once the arguments
    are valid and GitHub has accepted the secret, the call returns [nil]
    whatever the store answers: the reference is offered to the store
    once, under [secret_refs:<repo>:<name>]; a refusal adds one warning
    and nothing else; the [SecretAdded] event is emitted either way.  The
    clock is read four times, so the stored reference and the emitted
    secret carry different times. *)
Theorem AddSecret_tolerates_a_failing_store m args w :
  ValidateSecretArgs m args = None →
  github m (github_calls w)
    (CreateSecret (SecretArguments.Repository args)
       (SecretArguments.Name args) (SecretArguments.Value args)
       (SecretArguments.Visibility args)) = None →
  let r := AddSecret m args w in
  let key :=
    "secret_refs:" +:+ SecretArguments.Repository args +:+ ":"
      +:+ SecretArguments.Name args in
  let n := clock_calls w in
  let ref :=
    PSecretReference
      (SecretReference.mk (SecretArguments.Name args)
         (SecretArguments.Repository args) (Some (time_Now m n))
         (Some (time_Now m (S n))) (SecretArguments.Visibility args)) in
  r.1 = Ok ()
  ∧ store_calls r.2 = store_calls w ++ [(key, ref)]
  ∧ warnings r.2
    = warnings w
      ++ match store_Set m (store_calls w) key ref with
         | Some _ =>
             [mkLogEntry "warn" [] "Failed to store secret reference locally"]
         | None => []
         end
  ∧ emitted r.2
    = emitted w
      ++ [Event.mk Events.EventTypeSecret "SecretAdded"
            (PSecret
               (Secret.mk (SecretArguments.Name args)
                  (Some (time_Now m (S (S n))))
                  (Some (time_Now m (S (S (S n)))))
                  (SecretArguments.Visibility args)))
            None None ∅]
  ∧ clock_calls r.2 = (4 + n)%nat.
Proof.
  intros Hv Hg r key n ref. subst r key n ref. run_M. rewrite Hv. cbn.
  rewrite Hg. cbn.
  destruct (store_Set m _ _ _); cbn; by rewrite ?app_nil_r.
Qed.

End ManagerSuccess.

Section ManagerWithTTLCache.

Import Manager.

Implicit Types (m : NodePropManager) (w : World InMemoryCache).

(** A generated descriptor is served from the TTL cache for an hour.
    After a successful [GenerateNodeProp] on a manager whose cache is the
    TTL cache, with the cache's clock at a time [now] for which one hour
    later still fits an [int64], the descriptor carried by the emitted
    event is what the cache returns under [nodeprop:<RepoPath>] at every
    time up to [now] plus one hour, and no longer after that. *)
Theorem GenerateNodeProp_is_cached_for_an_hour m args w t :
  (GenerateNodeProp m args w).1 = Ok () →
  0 ≤ imc_now (cache w) →
  imc_now (cache w) + 3600000000000 ≤ MaxInt64 →
  let w' := (GenerateNodeProp m args w).2 in
  let key := "nodeprop:" +:+ NodePropArguments.RepoPath args in
  let f :=
    new_NodePropFile m args (uuid_New m (uuid_calls w))
      (time_Now m (clock_calls w)) in
  last (emitted w')
  = Some (Event.mk Events.EventTypeNodeProp "NodePropGenerated"
            (PNodeProp f) None None ∅)
  ∧ (cache_Get key (cache w')).1 = Some (PNodeProp f)
  ∧ (TTLCache.Get key t (imc_cache (cache w'))).1
    = if decide (t ≤ imc_now (cache w) + 3600000000000)
      then Some (PNodeProp f) else None.
Proof.
  intros Hok Hnow Hfit w' key f.
  destruct (GenerateNodeProp_success m args w Hok) as [Hcache Hem].
  fold w' f key in Hcache, Hem. rewrite Hem, last_snoc. split; [done|].
  assert (TTLCache.items (imc_cache (cache w')) !! key
          = Some (TTLCache.mkCacheItem (PNodeProp f)
                    (imc_now (cache w) + 3600000000000))) as Hitem.
  { rewrite Hcache. cbn [cache_Set InMemoryCache_Cache imc_cache].
    rewrite Set_lookup, expiration_of_positive by lia. done. }
  assert (imc_now (cache w') = imc_now (cache w)) as Hclock.
  { rewrite Hcache. done. }
  split.
  - cbn [cache_Get InMemoryCache_Cache].
    pose proof (Get_fst key (imc_now (cache w')) (imc_cache (cache w')))
      as Hget.
    destruct (TTLCache.Get key (imc_now (cache w')) (imc_cache (cache w')))
      as [v c1]. cbn [fst] in *. rewrite Hget, Hitem, Hclock.
    unfold TTLCache.expired. cbn [TTLCache.Expiration TTLCache.Value].
    rewrite (proj2 (Z.ltb_lt 0 _)) by lia.
    by rewrite (proj2 (Z.ltb_ge _ _)) by lia.
  - rewrite Get_fst, Hitem. unfold TTLCache.expired.
    cbn [TTLCache.Expiration TTLCache.Value].
    rewrite (proj2 (Z.ltb_lt 0 _)) by lia. cbn [andb].
    case_decide.
    + by rewrite (proj2 (Z.ltb_ge _ _)) by lia.
    + by rewrite (proj2 (Z.ltb_lt _ _)) by lia.
Qed.

(** A successful [AddWorkflow] or [AddSecret] drops what the TTL cache
    held under [workflows:<repo>], respectively [secrets:<repo>]: a read
    of that key misses at every time, and every other entry is as it
    was. *)
Theorem success_invalidates_the_cached_listing m w t :
  (∀ args,
     (AddWorkflow m args w).1 = Ok () →
     let key := "workflows:" +:+ WorkflowArguments.Repository args in
     let c' := imc_cache (cache (AddWorkflow m args w).2) in
     (TTLCache.Get key t c').1 = None
     ∧ ∀ k, k ≠ key →
            TTLCache.items c' !! k = TTLCache.items (imc_cache (cache w)) !! k)
  ∧ (∀ args,
       (AddSecret m args w).1 = Ok () →
       let key := "secrets:" +:+ SecretArguments.Repository args in
       let c' := imc_cache (cache (AddSecret m args w).2) in
       (TTLCache.Get key t c').1 = None
       ∧ ∀ k, k ≠ key →
              TTLCache.items c' !! k
              = TTLCache.items (imc_cache (cache w)) !! k).
Proof.
  split; intros args Hok key c'; subst c'.
  - rewrite (AddWorkflow_success m args w Hok). fold key.
    cbn [cache_Delete InMemoryCache_Cache imc_cache]. split.
    + rewrite Get_fst. unfold TTLCache.Delete. cbn.
      by rewrite lookup_delete_eq.
    + intros k Hk. unfold TTLCache.Delete. cbn.
      by rewrite lookup_delete_ne.
  - rewrite (AddSecret_success m args w Hok). fold key.
    cbn [cache_Delete InMemoryCache_Cache imc_cache]. split.
    + rewrite Get_fst. unfold TTLCache.Delete. cbn.
      by rewrite lookup_delete_eq.
    + intros k Hk. unfold TTLCache.Delete. cbn.
      by rewrite lookup_delete_ne.
Qed.

End ManagerWithTTLCache.


Section ManagerMoreExamples.

Import Manager ManagerDoubles.

(** A store that refuses the write: the secret is added all the same. *)
Lemma AddSecret_tolerates_a_failing_store_witness :
  let m := with_failing_store (mock_manager None) in
  let args :=
    SecretArguments.mk "owner/repo" "TEST_SECRET" "secret-value" "private" in
  ValidateSecretArgs m args = None
  ∧ github m (github_calls new_world)
      (CreateSecret "owner/repo" "TEST_SECRET" "secret-value" "private")
    = None
  ∧ (AddSecret m args new_world).1 = Ok ()
  ∧ warnings (AddSecret m args new_world).2
    = [mkLogEntry "warn" [] "Failed to store secret reference locally"]
  ∧ length (emitted (AddSecret m args new_world).2) = 1%nat.
Proof.
  intros m args.
  assert (ValidateSecretArgs m args = None) as Hv by reflexivity.
  assert (github m (github_calls new_world)
            (CreateSecret "owner/repo" "TEST_SECRET" "secret-value" "private")
          = None) as Hg by reflexivity.
  destruct (AddSecret_tolerates_a_failing_store m args new_world Hv Hg)
    as (Hok & _ & Hwarn & Hem & _).
  split_and!; [done|done|exact Hok|exact Hwarn|].
  rewrite Hem. reflexivity.
Defined.

(** A descriptor generated at the time of [new_world], read back half an
    hour later. *)
Lemma GenerateNodeProp_is_cached_for_an_hour_witness :
  let m := mock_manager None in
  let args := NodePropArguments.mk "owner/svc" "svc" "example.com" "" ∅ in
  let t := 1700000000000000000 + 1800000000000 in
  (GenerateNodeProp m args new_world).1 = Ok ()
  ∧ 0 ≤ imc_now (cache new_world)
  ∧ imc_now (cache new_world) + 3600000000000 ≤ MaxInt64
  ∧ ∃ f, (TTLCache.Get "nodeprop:owner/svc" t
            (imc_cache (cache (GenerateNodeProp m args new_world).2))).1
         = Some (PNodeProp f)
         ∧ NodePropFile.ID f = "uuid-0".
Proof.
  intros m args t.
  assert ((GenerateNodeProp m args new_world).1 = Ok ()) as Hok
    by reflexivity.
  assert (0 ≤ imc_now (cache new_world)) as Hnow by (vm_compute; discriminate).
  assert (imc_now (cache new_world) + 3600000000000 ≤ MaxInt64) as Hfit
    by (vm_compute; discriminate).
  destruct (GenerateNodeProp_is_cached_for_an_hour m args new_world t
              Hok Hnow Hfit) as (_ & _ & Hget).
  split_and!; [done..|]. eexists. split; [exact Hget|reflexivity].
Defined.

End ManagerMoreExamples.


(** * Properties of the configuration methods *)

Section ConfigManagerFacts.

Import TTLCache ConfigManager.

Context {Config St : Type} `{!Store Config St}.
Implicit Types (w : World Config St) (order : list string).

Lemma Flush_None {V : Type} order (c : Cache V) : Flush order c = None.
Proof.
  induction order as [|k order IH]; [done|].
  cbn [Flush]. by destruct (items c !! k).
Qed.

Lemma Get_items {V : Type} key now (c : Cache V) :
  items (Get key now c).2 = items c.
Proof. unfold Get. by repeat case_match. Qed.

Lemma SaveConfig_success order t0 w :
  (SaveConfig order t0 w).1 = None →
  let w1 := (SaveConfig order t0 w).2 in
  config w1 = config w
  ∧ store w1 = (store_Set "config" (VConfig (config w)) (store w)).2
  ∧ emitted w1
    = emitted w ++ [mkEvent Events.EventTypeConfig "ConfigSaved"
                      (Some (VConfig (config w))) None None ∅]
  ∧ items (cache w1) !! "config"
    = Some (mkCacheItem (VConfig (config w))
              (expiration_of (cache w) (1 * Hour) t0)).
Proof.
  unfold SaveConfig.
  destruct (store_Set "config" (VConfig (config w)) (store w)) as [[err|] st1];
    [done|].
  intros _. cbn. split_and!; try done. apply Set_lookup.
Qed.

(** A saved configuration is served from the cache for an hour.  After a
    successful [SaveConfig] at a time [t0] for which one hour later still
    fits an [int64], a [LoadConfig] that reads the cache at or before
    [t0] plus one hour returns [nil] with the configuration that was
    saved, without consulting the store and without emitting an event;
    one that reads the cache later goes to the store. *)
Theorem saved_config_is_served_from_the_cache order t0 w t order' t' :
  (SaveConfig order t0 w).1 = None →
  0 ≤ t0 →
  t0 + 3600000000000 ≤ MaxInt64 →
  let w1 := (SaveConfig order t0 w).2 in
  let r := LoadConfig t order' t' w1 in
  emitted w1
  = emitted w ++ [mkEvent Events.EventTypeConfig "ConfigSaved"
                    (Some (VConfig (config w))) None None ∅]
  ∧ (t ≤ t0 + 3600000000000 →
     r.1 = None
     ∧ config r.2 = config w
     ∧ store r.2 = store w1
     ∧ emitted r.2 = emitted w1
     ∧ items (cache r.2) = items (cache w1))
  ∧ (t0 + 3600000000000 < t →
     store r.2 = (store_Get "config" (store w1)).2).
Proof.
  intros Hok Ht0 Hfit w1 r.
  destruct (SaveConfig_success order t0 w Hok) as (Hcfg & Hst & Hem & Hitem).
  fold w1 in Hcfg, Hst, Hem, Hitem.
  rewrite expiration_of_positive in Hitem by (unfold Hour; lia).
  split; [done|].
  pose proof (Get_fst "config" t (cache w1)) as Hget.
  pose proof (Get_items "config" t (cache w1)) as Hitems.
  rewrite Hitem in Hget. unfold expired in Hget.
  cbn [Expiration Value] in Hget.
  subst r. unfold LoadConfig.
  destruct (Get "config" t (cache w1)) as [cached c1]. cbn [fst snd] in *.
  split.
  - intros Ht. rewrite (proj2 (Z.ltb_ge _ t)) in Hget by (unfold Hour; lia).
    rewrite andb_false_r in Hget. subst cached. by cbn.
  - intros Ht.
    rewrite (proj2 (Z.ltb_lt 0 _)) in Hget by (unfold Hour; lia).
    rewrite (proj2 (Z.ltb_lt _ t)) in Hget by (unfold Hour; lia).
    cbn in Hget. subst cached. unfold load_from_store.
    cbn [store set_cache set_store].
    destruct (store_Get "config" (store w1)) as [[[cfg|what]|err] st1];
      done.
Qed.

(** What [LoadConfig] leaves behind.  When it returns an error, which is
    either the store's error wrapped as "failed to load config" or
    "invalid config data type", the configuration in force, the cached
    entries and the emitted events are as before.  When it returns [nil],
    the cache holds under "config" the configuration now in force, and
    [ConfigLoaded] has been emitted exactly when the store was read. *)
Theorem LoadConfig_outcomes t order t' w :
  let r := LoadConfig t order t' w in
  match r.1 with
  | Some err =>
      config r.2 = config w
      ∧ emitted r.2 = emitted w
      ∧ items (cache r.2) = items (cache w)
      ∧ (err = errorString "invalid config data type"
         ∨ ∃ e, err = wrapError "failed to load config" e
                ∧ (store_Get "config" (store w)).1 = Manager.Err e)
  | None =>
      (∃ item, items (cache r.2) !! "config" = Some item
               ∧ Value item = VConfig (config r.2))
      ∧ ((emitted r.2 = emitted w ∧ store r.2 = store w
          ∧ (Get "config" t (cache w)).1 = Some (VConfig (config r.2)))
         ∨ (emitted r.2
            = emitted w ++ [mkEvent Events.EventTypeConfig "ConfigLoaded"
                              (Some (VConfig (config r.2))) None None ∅]
            ∧ (store_Get "config" (store w)).1
              = Manager.Ok (VConfig (config r.2))))
  end.
Proof.
  intros r. subst r. unfold LoadConfig.
  pose proof (Get_fst "config" t (cache w)) as Hget.
  pose proof (Get_items "config" t (cache w)) as Hitems.
  destruct (Get "config" t (cache w)) as [cached c1]. cbn [fst snd] in *.
  assert (∀ w0, config w0 = config w → emitted w0 = emitted w →
                items (cache w0) = items (cache w) → store w0 = store w →
            let r := load_from_store order t' w0 in
            match r.1 with
            | Some err =>
                config r.2 = config w
                ∧ emitted r.2 = emitted w
                ∧ items (cache r.2) = items (cache w)
                ∧ (err = errorString "invalid config data type"
                   ∨ ∃ e, err = wrapError "failed to load config" e
                          ∧ (store_Get "config" (store w)).1 = Manager.Err e)
            | None =>
                (∃ item, items (cache r.2) !! "config" = Some item
                         ∧ Value item = VConfig (config r.2))
                ∧ ((emitted r.2 = emitted w ∧ store r.2 = store w
                    ∧ cached = Some (VConfig (config r.2)))
                   ∨ (emitted r.2
                      = emitted w
                        ++ [mkEvent Events.EventTypeConfig "ConfigLoaded"
                              (Some (VConfig (config r.2))) None None ∅]
                      ∧ (store_Get "config" (store w)).1
                        = Manager.Ok (VConfig (config r.2))))
            end) as Hstore.
  { intros w0 Hc He Hi Hs. unfold load_from_store. rewrite Hs.
    destruct (store_Get "config" (store w)) as [[[cfg|what]|err] st1]; cbn.
    - split.
      + eexists. split; [apply Set_lookup|done].
      + right. by rewrite He.
    - split_and!; try done. by left.
    - split_and!; try done. right. by eexists. }
  destruct cached as [[cfg|what]|].
  - cbn. split; [|by left].
    rewrite Hitems.
    destruct (items (cache w) !! "config") as [item|]; [|done].
    destruct (expired t item); [done|]. exists item. split; congruence.
  - by apply Hstore.
  - by apply Hstore.
Qed.

(** [Shutdown] completes exactly when the cache behind [m.cache] is the
    [*Cache] of [cache.go].  Then it returns [nil], stops the watcher and
    emits the system event "Shutdown" last, whatever the store does;
    [Flush] cannot fail, since [persistItem] persists nothing, so the
    flush warning is never logged; if the store takes the configuration,
    "ConfigSaved" is emitted before "Shutdown"; if it refuses, the only
    trace is one warning, and the cached entries are as before.  With
    any other implementation of the [Cache] interface the type assertion
    panics: the info line is logged and the watcher stopped, and then
    nothing is flushed or saved and no event is emitted. *)
Theorem Shutdown_completes_or_panics {Other : Type} flush_order order
    now_set :
  let shutdown :=
    mkEvent Events.EventTypeSystem "Shutdown" (@None (value Config)) None
      None ∅ in
  let info := mkLogEntry "info" [] "Shutting down NodePropManager..." in
  (∀ w,
     ∃ w',
       Shutdown flush_order order now_set (HasCache (Other := Other) w)
       = (Returns None, HasCache w')
       ∧ watcher_stopped w' = true
       ∧ config w' = config w
       ∧ Flush flush_order (cache w) = None
       ∧ match (store_Set "config" (VConfig (config w)) (store w)).1 with
         | None =>
             emitted w'
             = emitted w
               ++ [mkEvent Events.EventTypeConfig "ConfigSaved"
                     (Some (VConfig (config w))) None None ∅; shutdown]
             ∧ logged w' = logged w ++ [info]
         | Some _ =>
             emitted w' = emitted w ++ [shutdown]
             ∧ logged w'
               = logged w
                 ++ [info;
                     mkLogEntry "warn" []
                       "Failed to save config during shutdown"]
             ∧ items (cache w') = items (cache w)
         end)
  ∧ (∀ o : OtherWorld Config St Other,
       Shutdown flush_order order now_set (HasOther o)
       = (Panics,
          HasOther
            (mkOtherWorld (o_config o) (o_cache o) (o_store o)
               (o_emitted o) (o_logged o ++ [info]) true))).
Proof.
  intros shutdown info. split; [|done].
  intros w. subst shutdown info. unfold Shutdown, announce.
  rewrite !Flush_None. unfold SaveConfig, log, watcher_Stop.
  cbn [config store cache emitted logged watcher_stopped].
  destruct (store_Set "config" (VConfig (config w)) (store w))
    as [[err|] st1]; cbn; eexists; (split; [reflexivity|]); cbn;
    split_and!; try done; by rewrite <- ?app_assoc.
Qed.

End ConfigManagerFacts.


Section ConfigManagerExamples.

Import TTLCache ConfigManager.

(** A configuration saved at time 1000, the manager pointed elsewhere,
    and the configuration loaded again half an hour later. *)
Lemma saved_config_is_served_from_the_cache_witness :
  let w : World string (MapStore string) :=
    mkWorld "config-1" NewCache (mkMapStore ∅) [] [] false in
  let w1 := (SaveConfig [] 1000 w).2 in
  let t := 1000 + 1800000000000 in
  (SaveConfig [] 1000 w).1 = None
  ∧ 0 ≤ 1000
  ∧ 1000 + 3600000000000 ≤ MaxInt64
  ∧ t ≤ 1000 + 3600000000000
  ∧ (LoadConfig t ["config"] t w1).1 = None
  ∧ config (LoadConfig t ["config"] t w1).2 = "config-1"
  ∧ length (emitted (LoadConfig t ["config"] t w1).2) = 1%nat.
Proof.
  intros w w1 t.
  assert ((SaveConfig [] 1000 w).1 = None) as Hok by reflexivity.
  assert (0 ≤ 1000) as H0 by lia.
  assert (1000 + 3600000000000 ≤ MaxInt64) as Hfit
    by (vm_compute; discriminate).
  assert (t ≤ 1000 + 3600000000000) as Ht by (vm_compute; discriminate).
  destruct (saved_config_is_served_from_the_cache [] 1000 w t ["config"] t
              Hok H0 Hfit) as (_ & Hhit & _).
  destruct (Hhit Ht) as (Hr & Hcfg & _ & Hem & _).
  split_and!; [done|done|done|done|exact Hr|exact Hcfg|].
  etrans; [exact (f_equal length Hem)|reflexivity].
Defined.

End ConfigManagerExamples.


(** * Properties of the GitHub operations *)

Section GitHubOpsStrings.

Import GitHubOps.

Lemma prefix_nil (s : string) : String.prefix "" s = true.
Proof. by destruct s. Qed.

Lemma prefix_append (p s : string) : String.prefix p (p +:+ s) = true.
Proof.
  induction p as [|a p IH]; [apply prefix_nil|].
  rewrite append_cons. cbn.
  destruct (Ascii.ascii_dec a a); [exact IH|done].
Qed.

Lemma prefix_append_r (p s t : string) :
  String.prefix p s = true → String.prefix p (s +:+ t) = true.
Proof.
  revert s. induction p as [|a p IH]; intros s; [intros _; apply prefix_nil|].
  destruct s as [|b s]; [done|]. rewrite append_cons. cbn.
  destruct (Ascii.ascii_dec a b); [apply IH|done].
Qed.

Lemma substring_append (s t : string) (n : nat) :
  String.substring (String.length s) n (s +:+ t) = String.substring 0 n t.
Proof.
  induction s as [|a s IH]; [done|]. rewrite append_cons. cbn. exact IH.
Qed.

Lemma substring_all (t : string) :
  String.substring 0 (String.length t) t = t.
Proof. induction t as [|a t IH]; cbn; [done|by rewrite IH]. Qed.

Lemma HasSuffix_append (s suffix : string) :
  HasSuffix (s +:+ suffix) suffix = true.
Proof.
  unfold HasSuffix. rewrite length_append.
  replace (String.length s + String.length suffix - String.length suffix)%nat
    with (String.length s) by lia.
  rewrite substring_append, substring_all, String.eqb_refl, andb_true_r.
  apply Nat.leb_le. lia.
Qed.

End GitHubOpsStrings.

Section GitHubOpsFacts.

Import GitHubOps.

Context {C : Type} `{!Cache C}.
Variable client : Client.
Variable defaultCacheDuration : Z.
Variable DecodeString : string → Manager.result string.

Implicit Types (w : World C) (owner repo path : string).

Lemma workflow_path_normal path :
  HasPrefix (workflow_path path) ".github/workflows/" = true
  ∧ HasSuffix (workflow_path path) ".yml"
    || HasSuffix (workflow_path path) ".yaml" = true.
Proof.
  unfold workflow_path.
  set (p1 := if negb (HasPrefix path ".github/workflows/")
             then ".github/workflows/" +:+ path else path).
  assert (HasPrefix p1 ".github/workflows/" = true) as Hp1.
  { subst p1. destruct (HasPrefix path ".github/workflows/") eqn:Hpre;
      cbn [negb]; [done|]. apply prefix_append. }
  destruct (HasSuffix p1 ".yml") eqn:Hyml; cbn [negb andb].
  - by rewrite Hyml.
  - destruct (HasSuffix p1 ".yaml") eqn:Hyaml; cbn [negb].
    + by rewrite Hyml, Hyaml.
    + split; [by apply prefix_append_r|].
      by rewrite HasSuffix_append.
Qed.

Lemma workflow_path_fixed path :
  HasPrefix path ".github/workflows/" = true →
  HasSuffix path ".yml" || HasSuffix path ".yaml" = true →
  workflow_path path = path.
Proof.
  intros Hpre Hsuf. unfold workflow_path. rewrite Hpre. cbn [negb].
  apply orb_true_iff in Hsuf as [->| ->]; cbn [negb andb]; [done|].
  by rewrite andb_false_r.
Qed.

(** [AddWorkflow] only ever writes under [.github/workflows/].  Whatever
    path it is given, it makes two calls on the client, a lookup and a
    write, both on the same path, which starts with ".github/workflows/"
    and ends in ".yml" or ".yaml"; a path that already has that form is
    used as it is, so normalising twice is normalising once.  The write
    is an update when the lookup succeeded and a create on any lookup
    error, and its error is returned wrapped. *)
Theorem AddWorkflow_writes_under_the_workflows_directory
    owner repo path (content : string) w :
  let p := workflow_path path in
  let r := AddWorkflow client owner repo path content w in
  HasPrefix p ".github/workflows/" = true
  ∧ HasSuffix p ".yml" || HasSuffix p ".yaml" = true
  ∧ workflow_path p = p
  ∧ (∃ write,
       calls r.2 = calls w ++ [GetContents owner repo p; write]
       ∧ write
         = match answer_GetContents client (calls w) owner repo p with
           | Manager.Ok _ =>
               UpdateFile owner repo p ("Add workflow: " +:+ p) content
           | Manager.Err _ =>
               CreateFile owner repo p ("Add workflow: " +:+ p) content
           end
       ∧ r.1
         = (wrapError "failed to create workflow file"
              <$> answer_write client
                    (calls w ++ [GetContents owner repo p]) write))
  ∧ AddWorkflow client owner repo p content w = r.
Proof.
  intros p r. destruct (workflow_path_normal path) as [Hpre Hsuf].
  fold p in Hpre, Hsuf.
  assert (workflow_path p = p) as Hfix by by apply workflow_path_fixed.
  split_and!; try done.
  - eexists. subst r. unfold AddWorkflow. fold p.
    cbn [add_call calls cache logged]. split_and!; [|reflexivity|].
    + destruct (answer_write _ _ _); cbn; by rewrite <- app_assoc.
    + by destruct (answer_write _ _ _).
  - subst r. unfold AddWorkflow. by rewrite Hfix.
Qed.

Lemma check_remote_outcome owner repo path w :
  let key := "file:" +:+ owner +:+ "/" +:+ repo +:+ "/" +:+ path in
  let r := check_remote client defaultCacheDuration owner repo path w in
  calls r.2 = calls w ++ [GetContents owner repo path]
  ∧ logged r.2 = logged w
  ∧ match answer_GetContents client (calls w) owner repo path with
    | Manager.Err err =>
        cache r.2 = cache w
        ∧ r.1 = (false, None,
                 if Contains (Error err) "404" then None
                 else Some (wrapError "failed to check file" err))
    | Manager.Ok found =>
        r.1 = (true, found, None)
        ∧ cache r.2
          = cache_Set key (CContent found) defaultCacheDuration (cache w)
    end.
Proof.
  intros key r. subst r. unfold check_remote, cacheKey. fold key.
  destruct (answer_GetContents client (calls w) owner repo path)
    as [found|err]; [done|].
  by destruct (Contains (Error err) "404").
Qed.

Lemma CheckFile_miss owner repo path w :
  (∀ found,
     (cache_Get (cacheKey owner repo path) (cache w)).1
     ≠ Some (CContent found)) →
  CheckFile client defaultCacheDuration owner repo path w
  = check_remote client defaultCacheDuration owner repo path
      (set_cache (cache_Get (cacheKey owner repo path) (cache w)).2 w).
Proof.
  intros Hmiss. unfold CheckFile.
  destruct (cache_Get (cacheKey owner repo path) (cache w)) as [got c1].
  cbn [fst snd] in *. destruct got as [[found|what]|]; try done.
  by destruct (Hmiss found).
Qed.

(** What [CheckFile] does when the cache has no content for the file.
    It asks the client once.  An error whose text contains "404",
    wherever and whatever else it says, is reported as "no such file"
    with no error, and nothing is cached, so the next call asks again;
    any other error is returned wrapped as "failed to check file"; a
    content is returned and stored in the cache under
    [file:<owner>/<repo>/<path>]. *)
Theorem CheckFile_on_a_cache_miss owner repo path w :
  let key := "file:" +:+ owner +:+ "/" +:+ repo +:+ "/" +:+ path in
  let r := CheckFile client defaultCacheDuration owner repo path w in
  let c1 := (cache_Get key (cache w)).2 in
  (∀ found, (cache_Get key (cache w)).1 ≠ Some (CContent found)) →
  calls r.2 = calls w ++ [GetContents owner repo path]
  ∧ logged r.2 = logged w
  ∧ match answer_GetContents client (calls w) owner repo path with
    | Manager.Err err =>
        cache r.2 = c1
        ∧ r.1 = (false, None,
                 if Contains (Error err) "404" then None
                 else Some (wrapError "failed to check file" err))
    | Manager.Ok found =>
        r.1 = (true, found, None)
        ∧ cache r.2 = cache_Set key (CContent found) defaultCacheDuration c1
    end.
Proof.
  intros key r c1 Hmiss. subst r.
  rewrite (CheckFile_miss owner repo path w Hmiss).
  exact (check_remote_outcome owner repo path
           (set_cache (cache_Get (cacheKey owner repo path) (cache w)).2 w)).
Qed.

(** [GetFileContent] on a file the cache does not hold.  A client error
    whose text contains "404" becomes the error "file not found: <path>";
    any other client error is passed on as [CheckFile] wrapped it, with no
    further context.  When the client answers without error, the content
    is decoded; but if the content pointer, or its [Content] field, is
    [nil], as the client may answer, the call panics. *)
Theorem GetFileContent_on_a_cache_miss owner repo path w :
  let r :=
    GetFileContent client defaultCacheDuration DecodeString owner repo path
      w in
  (∀ found,
     (cache_Get (cacheKey owner repo path) (cache w)).1
     ≠ Some (CContent found)) →
  calls r.2 = calls w ++ [GetContents owner repo path]
  ∧ r.1
    = match answer_GetContents client (calls w) owner repo path with
      | Manager.Err err =>
          Returned
            (EmptyString,
             Some (if Contains (Error err) "404"
                   then errorString ("file not found: " +:+ path)
                   else wrapError "failed to check file" err))
      | Manager.Ok None => Panicked
      | Manager.Ok (Some rc) =>
          match Content rc with
          | None => Panicked
          | Some text =>
              match DecodeString text with
              | Manager.Ok decoded => Returned (decoded, None)
              | Manager.Err err =>
                  Returned (EmptyString,
                            Some (wrapError "failed to decode content" err))
              end
          end
      end.
Proof.
  intros r Hmiss. subst r. unfold GetFileContent.
  rewrite (CheckFile_miss owner repo path w Hmiss).
  pose proof (check_remote_outcome owner repo path
                (set_cache (cache_Get (cacheKey owner repo path) (cache w)).2
                   w)) as (Hcalls & _ & Hr).
  cbv zeta in Hcalls, Hr. cbn [set_cache calls] in Hcalls, Hr.
  destruct (check_remote client defaultCacheDuration owner repo path _)
    as [[[exists_ content] err] w1]. cbn [fst snd] in *.
  destruct (answer_GetContents client (calls w) owner repo path)
    as [found|e].
  - destruct Hr as [Hr _]. simplify_eq. cbn [negb].
    destruct found as [[[text|]]|]; cbn [Content]; try done.
    by destruct (DecodeString text).
  - destruct Hr as [_ Hr]. simplify_eq.
    by destruct (Contains (Error e) "404").
Qed.

End GitHubOpsFacts.


Section GitHubOpsWithTTLCache.

Import GitHubOps.

Variable client : Client.
Variable defaultCacheDuration : Z.

Implicit Types (w : World TimedCache) (owner repo path : string).

(** A file that was found is not looked up again while it is cached.
    With the TTL cache behind the interface and a positive cache
    duration, after a [CheckFile] that missed the cache and got the
    content from the client, a [CheckFile] for the same file at any time
    up to the first call's time plus the duration returns that content
    without calling the client. *)
Theorem CheckFile_asks_the_client_once owner repo path w found t :
  (∀ f, (cache_Get (cacheKey owner repo path) (cache w)).1
        ≠ Some (CContent f)) →
  answer_GetContents client (calls w) owner repo path = Manager.Ok found →
  0 < defaultCacheDuration →
  0 ≤ tc_now (cache w) →
  tc_now (cache w) + defaultCacheDuration ≤ MaxInt64 →
  t ≤ tc_now (cache w) + defaultCacheDuration →
  let w1 := (CheckFile client defaultCacheDuration owner repo path w).2 in
  let w2 := set_cache (mkTimedCache (tc_cache (cache w1)) t) w1 in
  let r := CheckFile client defaultCacheDuration owner repo path w2 in
  calls w1 = calls w ++ [GetContents owner repo path]
  ∧ r.1 = (true, found, None)
  ∧ calls r.2 = calls w1.
Proof.
  intros Hmiss Hans Hd Hnow Hfit Ht w1 w2 r.
  assert (calls w1 = calls w ++ [GetContents owner repo path]
          ∧ TTLCache.items (tc_cache (cache w1)) !! cacheKey owner repo path
            = Some (TTLCache.mkCacheItem (CContent found)
                      (tc_now (cache w) + defaultCacheDuration)))
    as [Hcalls Hitem].
  { subst w1. rewrite (CheckFile_miss client _ owner repo path w Hmiss).
    unfold check_remote. cbn [set_cache calls cache]. rewrite Hans.
    cbn [snd add_call set_cache calls cache]. split; [done|].
    cbn [cache_Set cache_Get TimedCache_Cache].
    destruct (TTLCache.Get (cacheKey owner repo path) (tc_now (cache w))
                (tc_cache (cache w))) as [got c1].
    cbn [snd tc_cache tc_now].
    by rewrite Set_lookup, expiration_of_positive by lia. }
  split; [done|]. subst r. unfold CheckFile.
  cbn [cache_Get TimedCache_Cache]. subst w2.
  cbn [set_cache cache tc_cache tc_now].
  pose proof (Get_fst (cacheKey owner repo path) t (tc_cache (cache w1)))
    as Hget.
  rewrite Hitem in Hget. unfold TTLCache.expired in Hget.
  cbn [TTLCache.Expiration TTLCache.Value] in Hget.
  rewrite (proj2 (Z.ltb_lt 0 _)) in Hget by lia.
  rewrite (proj2 (Z.ltb_ge _ t)) in Hget by lia. cbn [andb] in Hget.
  destruct (TTLCache.Get (cacheKey owner repo path) t (tc_cache (cache w1)))
    as [got c2]. cbn [fst] in Hget. subst got. done.
Qed.

End GitHubOpsWithTTLCache.

Section GitHubOpsExamples.

Import GitHubOps.

(** A client that knows one file and answers everything else with the
    error of the GitHub library, which quotes the request. *)
Lemma CheckFile_on_a_cache_miss_witness :
  let client :=
    mkClient
      (λ _ owner repo path,
         if decide (path = ".nodeprop.yml")
         then Manager.Ok (Some (mkRepositoryContent (Some "aWQ6IDE=")))
         else Manager.Err
                (errorString
                   ("GET https://api.github.com/repos/" +:+ owner +:+ "/"
                      +:+ repo +:+ "/contents/" +:+ path
                      +:+ ": 500 Internal Server Error")))
      (λ _ _, None) in
  let w : World TimedCache :=
    mkWorld (mkTimedCache TTLCache.NewCache 1000) [] [] in
  let r := CheckFile client 300000000000 "owner" "repo" "docs/404.md" w in
  (∀ found,
     (cache_Get ("file:" +:+ "owner" +:+ "/" +:+ "repo" +:+ "/"
                   +:+ "docs/404.md") (cache w)).1
     ≠ Some (CContent found))
  ∧ r.1 = (false, None, None)
  ∧ calls r.2 = [GetContents "owner" "repo" "docs/404.md"]
  ∧ TTLCache.items (tc_cache (cache r.2)) = ∅.
Proof.
  intros client w r.
  assert (∀ found,
            (cache_Get ("file:" +:+ "owner" +:+ "/" +:+ "repo" +:+ "/"
                          +:+ "docs/404.md") (cache w)).1
            ≠ Some (CContent found)) as Hmiss by done.
  destruct (CheckFile_on_a_cache_miss client 300000000000 "owner" "repo"
              "docs/404.md" w Hmiss) as (Hcalls & _ & Hr).
  split_and!; [done| |exact Hcalls|reflexivity].
  exact (proj2 Hr).
Defined.

Lemma GetFileContent_on_a_cache_miss_witness :
  let client :=
    mkClient (λ _ _ _ _, Manager.Ok None) (λ _ _, None) in
  let DecodeString : string → Manager.result string := Manager.Ok in
  let w : World TimedCache :=
    mkWorld (mkTimedCache TTLCache.NewCache 1000) [] [] in
  let r :=
    GetFileContent client 300000000000 DecodeString "owner" "repo" "docs" w in
  (∀ found,
     (cache_Get (cacheKey "owner" "repo" "docs") (cache w)).1
     ≠ Some (CContent found))
  ∧ r.1 = Panicked
  ∧ calls r.2 = [GetContents "owner" "repo" "docs"].
Proof.
  intros client DecodeString w r.
  assert (∀ found,
            (cache_Get (cacheKey "owner" "repo" "docs") (cache w)).1
            ≠ Some (CContent found)) as Hmiss by done.
  destruct (GetFileContent_on_a_cache_miss client 300000000000 DecodeString
              "owner" "repo" "docs" w Hmiss) as (Hcalls & Hr).
  split_and!; [done|exact Hr|exact Hcalls].
Defined.

Lemma CheckFile_asks_the_client_once_witness :
  let rc := Some (mkRepositoryContent (Some "aWQ6IDE=")) in
  let client := mkClient (λ _ _ _ _, Manager.Ok rc) (λ _ _, None) in
  let w : World TimedCache :=
    mkWorld (mkTimedCache TTLCache.NewCache 1000) [] [] in
  let d := 300000000000 in
  let w1 := (CheckFile client d "owner" "repo" ".nodeprop.yml" w).2 in
  let w2 := set_cache (mkTimedCache (tc_cache (cache w1)) (1000 + d)) w1 in
  (∀ f, (cache_Get (cacheKey "owner" "repo" ".nodeprop.yml") (cache w)).1
        ≠ Some (CContent f))
  ∧ answer_GetContents client (calls w) "owner" "repo" ".nodeprop.yml"
    = Manager.Ok rc
  ∧ 0 < d
  ∧ 0 ≤ tc_now (cache w)
  ∧ tc_now (cache w) + d ≤ MaxInt64
  ∧ 1000 + d ≤ tc_now (cache w) + d
  ∧ (CheckFile client d "owner" "repo" ".nodeprop.yml" w2).1
    = (true, rc, None)
  ∧ calls (CheckFile client d "owner" "repo" ".nodeprop.yml" w2).2
    = [GetContents "owner" "repo" ".nodeprop.yml"].
Proof.
  intros rc client w d w1 w2.
  assert (∀ f, (cache_Get (cacheKey "owner" "repo" ".nodeprop.yml")
                  (cache w)).1 ≠ Some (CContent f)) as Hmiss by done.
  assert (answer_GetContents client (calls w) "owner" "repo" ".nodeprop.yml"
          = Manager.Ok rc) as Hans by reflexivity.
  assert (0 < d) as Hd by reflexivity.
  assert (0 ≤ tc_now (cache w)) as Hnow by (vm_compute; discriminate).
  assert (tc_now (cache w) + d ≤ MaxInt64) as Hfit
    by (vm_compute; discriminate).
  assert (1000 + d ≤ tc_now (cache w) + d) as Ht
    by (vm_compute; discriminate).
  destruct (CheckFile_asks_the_client_once client d "owner" "repo"
              ".nodeprop.yml" w rc (1000 + d) Hmiss Hans Hd Hnow Hfit Ht)
    as (Hcalls & Hr & Hsame).
  split_and!; [done..|exact Hr|].
  etrans; [exact Hsame|exact Hcalls].
Defined.

End GitHubOpsExamples.


Section TwoPublishes.

Import Events.

Context {D S : Type} `{!EventConsumer D S}.
Implicit Types (eb : EventBus D S) (event : Event D).

(** The two declarations of [Publish] compared.  The first one starts
    the handler invocations that the updated one starts for the event
    with its timestamp filled in, so for an event that carries a
    timestamp both start the same invocations; the first one leaves the
    bus as it is (no consumer, no log line).  With no middleware
    registered, every handler started by the first [Publish] sees a
    timestamp; with the updated one it sees the timestamp as
    published. *)
Theorem first_and_updated_Publish now event eb :
  let stamped :=
    if decide (Timestamp event = None)
    then set_Timestamp (Some now) event else event in
  (Original.Publish now event eb).1 = eb
  ∧ (Original.Publish now event eb).2 = (Publish stamped eb).2
  ∧ (Timestamp event ≠ None →
     (Original.Publish now event eb).2 = (Publish event eb).2)
  ∧ (middleware eb = [] →
     (∀ i, i ∈ (Original.Publish now event eb).2 →
           Timestamp (inv_event i) ≠ None)
     ∧ (∀ i, i ∈ (Publish event eb).2 →
             Timestamp (inv_event i) = Timestamp event)).
Proof.
  intros stamped. unfold Original.Publish. fold stamped. cbn [fst snd].
  rewrite !Publish_started. split_and!; try done.
  - intros Hset. subst stamped. by rewrite decide_False.
  - intros Hmw. rewrite Hmw. cbn [apply_middleware foldl]. split.
    + intros i (id & h & _ & ->)%elem_of_fan_out. cbn [inv_event].
      subst stamped. by case_decide.
    + by intros i (id & h & _ & ->)%elem_of_fan_out.
Qed.

End TwoPublishes.
